(** * npm-dependency-guardian: capability extraction and policy creation

    A shallow embedding of the policy generator (main.js, astUtils.js,
    extractModules.js, extractGlobals.js, dependencyGraph.js, setUtils.js,
    acornWalkPatch.js) and the properties of it that the specification
    states.

    JavaScript strings are modelled by [string] (one [ascii] per code unit,
    so code units above 255 are outside the model), arrays by [list],
    insertion-ordered [Set]s by duplicate-free lists in insertion order,
    objects keyed by file paths by association lists in insertion order,
    and objects keyed by package names by their own properties in
    enumeration order together with their prototype. *)

From Stdlib Require Import List String Ascii Bool Arith NArith Lia.
From Stdlib Require Import Permutation Sorted DecimalString.
From Stdlib Require OrderedTypeEx.
Import ListNotations.
Open Scope string_scope.
Open Scope list_scope.

Set Warnings "-register-all".

(* ================================================================== *)
(** ** JavaScript strings: [split], [join], [endsWith], [startsWith]  *)
(* ================================================================== *)

Module JsString.

(** [String.prototype.split(sep)] scans left to right and cuts at every
    non-overlapping occurrence of [sep].  [split_aux sep skip s] returns
    the segment under construction and the segments after it; [skip] is
    the number of characters of an already matched separator that are
    still to be dropped. *)
Fixpoint split_aux (sep : string) (skip : nat) (s : string)
  : string * list string :=
  match s with
  | EmptyString => (EmptyString, [])
  | String c s' =>
      match skip with
      | S k => split_aux sep k s'
      | O =>
          if String.prefix sep s
          then (EmptyString,
                let (h, t) := split_aux sep (String.length sep - 1) s' in
                h :: t)
          else let (h, t) := split_aux sep 0 s' in (String c h, t)
      end
  end.

(** With the empty separator JavaScript yields the code units one by
    one. *)
Fixpoint chars (s : string) : list string :=
  match s with
  | EmptyString => []
  | String c s' => String c EmptyString :: chars s'
  end.

Definition split (sep s : string) : list string :=
  match sep with
  | EmptyString => chars s
  | _ => let (h, t) := split_aux sep 0 s in h :: t
  end.

(** [Array.prototype.join(sep)] on an array of strings. *)
Definition join (sep : string) (l : list string) : string :=
  String.concat sep l.

(** [s.startsWith(p)] *)
Definition startsWith (s p : string) : bool := String.prefix p s.

(** [s.endsWith(p)]: the last [length p] characters of [s] are [p]. *)
Definition endsWith (s p : string) : bool :=
  (String.length p <=? String.length s)%nat &&
  String.eqb (String.substring (String.length s - String.length p)
                               (String.length p) s) p.

(** [s] contains the character [c]. *)
Fixpoint contains (c : ascii) (s : string) : bool :=
  match s with
  | EmptyString => false
  | String d s' => Ascii.eqb c d || contains c s'
  end.

End JsString.

(* ================================================================== *)
(** ** MemberAccess (astUtils.js)                                     *)
(* ================================================================== *)

(** A template literal prints an absent ([undefined]) string property as
    the text [undefined]. *)
Definition template_opt (o : option string) : string :=
  match o with
  | Some s => s
  | None => "undefined"
  end.

Module MemberAccess.

(** [class MemberAccess]: [memberName] is read from an array index, so
    it is [undefined] ([None]) when the index is out of range. *)
Record t := new { module : string; memberName : option string }.

(** [static fromString(accessString)].  [splice(0, n)] removes the first
    [n] elements from [splits] and returns them; the member is then the
    last element of what is left in [splits]. *)
Definition fromString (accessString : string) : t :=
  let splits := JsString.split "." accessString in
  let n := (List.length splits - 1)%nat in
  let removed := firstn n splits in
  let splits := skipn n splits in
  let mod_ := JsString.join "." removed in
  let member := nth_error splits (List.length splits - 1) in
  new mod_ member.

(** [toString()] *)
Definition toString (m : t) : string :=
  module m ++ "." ++ template_opt (memberName m).

End MemberAccess.

(* ================================================================== *)
(** ** Source enumeration (main.js)                                   *)
(* ================================================================== *)

(** [isJsFileName(name)] *)
Definition isJsFileName (name : string) : bool :=
  JsString.endsWith name ".js" || JsString.endsWith name ".mjs"
  || JsString.endsWith name ".cjs".

(** What [fs.readdirSync(dirPath, { withFileTypes: true })] yields: every
    entry has a name and a kind; a directory entry carries the entries that
    reading it in turn yields.  Entries that are neither a directory nor a
    regular file (symbolic links, sockets, ...) answer false to both
    [isDirectory()] and [isFile()]. *)
Inductive Dirent :=
| FileEntry (name : string)
| DirectoryEntry (name : string) (entries : list Dirent)
| OtherEntry (name : string).

Definition dirent_name (e : Dirent) : string :=
  match e with
  | FileEntry n | DirectoryEntry n _ | OtherEntry n => n
  end.

(** [name.split('/').pop()] *)
Definition split_pop (name : string) : string :=
  last (JsString.split "/" name) EmptyString.

Section SourceEnumeration.

(** [path.join] of the platform. *)
Variable path_join : string -> string -> string.

(** The body of the [forEach] callback of [recursiveGetJSFilePaths]: the
    paths one directory entry adds to [jsFilePaths]. *)
Fixpoint visitDirEntry (dirPath : string) (dirEntry : Dirent) : list string :=
  let fullPath := path_join dirPath (dirent_name dirEntry) in
  match dirEntry with
  | DirectoryEntry name entries =>
      if negb (String.eqb (split_pop name) "node_modules")
      then flat_map (visitDirEntry fullPath) entries
      else []
  | FileEntry name =>
      if isJsFileName name then [fullPath] else []
  | OtherEntry _ => []
  end.

(** [recursiveGetJSFilePaths(dirPath)], where [entries] is the content of
    the directory at [dirPath]. *)
Definition recursiveGetJSFilePaths (dirPath : string) (entries : list Dirent)
  : list string :=
  flat_map (visitDirEntry dirPath) entries.

(** The files the enumeration is to return, stated on the directory
    tree: a regular file with a JavaScript extension, reached through
    directories none of which is named [node_modules].  Directories whose
    name starts with a dot are directories like any other here. *)
Inductive JsFileUnder : string -> list Dirent -> string -> Prop :=
| JsFileHere dirPath entries name :
    In (FileEntry name) entries ->
    isJsFileName name = true ->
    JsFileUnder dirPath entries (path_join dirPath name)
| JsFileBelow dirPath entries name sub p :
    In (DirectoryEntry name sub) entries ->
    split_pop name <> "node_modules" ->
    JsFileUnder (path_join dirPath name) sub p ->
    JsFileUnder dirPath entries p.

End SourceEnumeration.

(** [path.join] on two segments that need no further normalisation: an
    empty segment is dropped and no second separator is put after a
    directory path that ends in one. *)
Definition simple_join (a b : string) : string :=
  if String.eqb b "" then a
  else if String.eqb a "" then b
  else if JsString.endsWith a "/" then a ++ b
  else a ++ "/" ++ b.

(* ================================================================== *)
(** ** JavaScript values, [Set], [Array.prototype.sort]               *)
(* ================================================================== *)

(** The primitive values an AST literal or a JSON scalar can hold.  Numbers
    are the non-negative integers below 2^53 (what an integer literal
    denotes); fractional numbers, regular expressions and big integers are
    outside the model. *)
Inductive jsval :=
| JNull
| JBool (b : bool)
| JNum (n : N)
| JStr (s : string).

Definition jsval_eq_dec (x y : jsval) : {x = y} + {x <> y}.
Proof.
  decide equality;
    [apply Bool.bool_dec | apply N.eq_dec | apply String.string_dec].
Defined.

(** Strict equality on primitives (also the [SameValueZero] of [Set]). *)
Definition jsval_eqb (x y : jsval) : bool :=
  if jsval_eq_dec x y then true else false.

(** [String(v)], which is also how a template literal prints [v]. *)
Definition toString (v : jsval) : string :=
  match v with
  | JNull => "null"
  | JBool true => "true"
  | JBool false => "false"
  | JNum n => NilEmpty.string_of_uint (N.to_uint n)
  | JStr s => s
  end.

(** [typeof v === 'string'] *)
Definition is_string (v : jsval) : bool :=
  match v with JStr _ => true | _ => false end.

(** The [Set] class together with the methods setUtils.js adds to its
    prototype.  Iteration is in insertion order. *)
Module JsSet.

Definition t := list jsval.

Definition empty : t := [].

Definition has (s : t) (x : jsval) : bool := existsb (jsval_eqb x) s.

Definition add (s : t) (x : jsval) : t := if has s x then s else s ++ [x].

(** [new Set(iterable)] *)
Definition from (l : list jsval) : t := fold_left add l empty.

(** [setUnion]: a new set with the elements of [this], then those of
    [other]. *)
Definition union (this other : list jsval) : t :=
  fold_left add other (fold_left add this empty).

(** [setIntersection] *)
Definition intersection (this : t) (other : t) : t :=
  fold_left (fun s element => if has other element then add s element else s)
            this empty.

(** [setDifference] *)
Definition difference (this : t) (other : t) : t :=
  fold_left (fun s element => if has other element then s else add s element)
            this empty.

(** [setFilter] *)
Definition filter (this : t) (f : jsval -> bool) : t :=
  fold_left (fun s element => if f element then add s element else s)
            this empty.

(** [setMap] *)
Definition map (this : t) (f : jsval -> jsval) : t :=
  fold_left (fun s element => add s (f element)) this empty.

End JsSet.

(** [Array.prototype.sort()] without a comparator orders the elements by
    the code units of their string conversions and is stable.  A stable
    sort has one possible result; it is computed here by insertion from the
    right. *)
Definition sort_le (x y : jsval) : bool := String.leb (toString x) (toString y).

Fixpoint sort_insert (x : jsval) (l : list jsval) : list jsval :=
  match l with
  | [] => [x]
  | y :: l' => if sort_le x y then x :: l else y :: sort_insert x l'
  end.

Definition sort (l : list jsval) : list jsval := fold_right sort_insert [] l.

(** The order in which [sort] leaves an array. *)
Definition sort_rel (x y : jsval) : Prop := sort_le x y = true.

(* ================================================================== *)
(** ** Policy creation (main.js)                                      *)
(* ================================================================== *)

(** [{ modules: ..., globals: ... }]: the capabilities of one package path
    (two sets) and also one entry of a policy (two sorted arrays). *)
Record Capabilities := mkCapabilities {
  modules : list jsval;
  globals : list jsval
}.

(** The own properties of an object with string keys, in the order in
    which [Object.keys] and [JSON.stringify] enumerate them.  An object
    whose keys are file paths under an absolute root (the dependency map,
    the capabilities) is such a list in insertion order. *)
Definition Dict (V : Type) := list (string * V).

Module Dict.

Definition keys {V} (d : Dict V) : list string := List.map fst d.

Fixpoint get {V} (d : Dict V) (k : string) : option V :=
  match d with
  | [] => None
  | (k', v) :: d' => if String.eqb k k' then Some v else get d' k
  end.

(** [d[k] = v]: an existing key keeps its place. *)
Fixpoint set {V} (d : Dict V) (k : string) (v : V) : Dict V :=
  match d with
  | [] => [(k, v)]
  | (k', v') :: d' =>
      if String.eqb k k' then (k', v) :: d' else (k', v') :: set d' k v
  end.

End Dict.

(** An object that the code creates as [{}] and fills by assignments
    [o[k] = v] with arbitrary strings [k] (package names) and objects [v]:
    its own properties and its prototype. *)
Module JsObject.

(** The array index that a key is, if it is one: the decimal numeral,
    without leading zeros, of a number below 2^32 - 1. *)
Definition arrayIndex (k : string) : option N :=
  match NilEmpty.uint_of_string k with
  | Some u =>
      let n := N.of_uint u in
      if String.eqb (NilEmpty.string_of_uint (N.to_uint n)) k
         && (n <? 4294967295)%N
      then Some n
      else None
  | None => None
  end.

(** Whether a new key [k] is enumerated before the key [k']: array indices
    come first, in ascending order; the other keys follow in the order of
    their creation. *)
Definition before (k k' : string) : bool :=
  match arrayIndex k, arrayIndex k' with
  | Some n, Some n' => (n <? n')%N
  | Some _, None => true
  | None, _ => false
  end.

(** A new own property takes its place in the enumeration order. *)
Fixpoint insert {V} (d : Dict V) (k : string) (v : V) : Dict V :=
  match d with
  | [] => [(k, v)]
  | (k', v') :: d' =>
      if before k k' then (k, v) :: d else (k', v') :: insert d' k v
  end.

Definition has {V} (d : Dict V) (k : string) : bool :=
  existsb (String.eqb k) (Dict.keys d).

(** The own property [k] receives the value [v]: an existing property
    keeps its place. *)
Definition define {V} (d : Dict V) (k : string) (v : V) : Dict V :=
  if has d k then Dict.set d k v else insert d k v.

(** [prototype] is [None] as long as the prototype is [Object.prototype],
    and [Some v] once the object [v] has been made the prototype. *)
Record t (V : Type) := mk {
  own : Dict V;
  prototype : option V
}.

Arguments mk {V} own prototype.
Arguments own {V} t.
Arguments prototype {V} t.

(** [{}] *)
Definition empty {V} : t V := mk [] None.

(** [Object.keys(o)] *)
Definition keys {V} (o : t V) : list string := Dict.keys (own o).

(** [o[k] = v] for an object [v].  The key [__proto__], unless it is an
    own property, is the accessor of [Object.prototype]: the assignment
    makes [v] the prototype of [o] and creates no property. *)
Definition assign {V} (o : t V) (k : string) (v : V) : t V :=
  if String.eqb k "__proto__" && negb (has (own o) k)
  then mk (own o) (Some v)
  else mk (define (own o) k v) (prototype o).

End JsObject.

(** [array.includes(x)] for an array of strings, where [x] may be
    [undefined]. *)
Definition includes (l : list string) (x : option string) : bool :=
  match x with
  | Some s => existsb (String.eqb s) l
  | None => false
  end.

(** [x === s] for a string [s], where [x] may be [undefined]. *)
Definition strictEq (x : option string) (s : string) : bool :=
  match x with
  | Some s' => String.eqb s' s
  | None => false
  end.

Section Policy.

Variable rootPath : string.
(** The [name] field of the root manifest; [None] when the manifest has
    none ([undefined]). *)
Variable rootPackageName : option string.

(** The name under which a package path is entered in the policy. *)
Definition packageNameOf (packagePath : string) : option string :=
  let pathParts := JsString.split "node_modules/" packagePath in
  let packageName := nth_error pathParts (List.length pathParts - 1) in
  if strictEq packageName rootPath then rootPackageName else packageName.

(** One iteration of the loop of [createGranularPolicy].  The read of
    [policy[packageName]] is under the test that the name is among the
    keys, so it finds an own property. *)
Definition addToPolicy (policy : JsObject.t Capabilities)
           (entry : string * Capabilities) : JsObject.t Capabilities :=
  let (packagePath, capabilities) := entry in
  let packageName := packageNameOf packagePath in
  let key := template_opt packageName in
  if includes (JsObject.keys policy) packageName then
    match Dict.get (JsObject.own policy) key with
    | Some old =>
        let globalUnion :=
          sort (JsSet.union (JsSet.from (globals old)) (globals capabilities)) in
        let moduleUnion :=
          sort (JsSet.union (JsSet.from (modules old)) (modules capabilities)) in
        JsObject.assign policy key (mkCapabilities moduleUnion globalUnion)
    | None => policy
    end
  else
    let globalArray := sort (globals capabilities) in
    let moduleArray := sort (modules capabilities) in
    JsObject.assign policy key (mkCapabilities moduleArray globalArray).

(** [createGranularPolicy(capabilities, rootPath, rootPackageName)] *)
Definition createGranularPolicy (capabilities : Dict Capabilities)
  : JsObject.t Capabilities :=
  fold_left addToPolicy capabilities JsObject.empty.

Record Policy := mkPolicy {
  memberAccessTracing : bool;
  policyCoarse : JsObject.t Capabilities;
  policyFine : JsObject.t Capabilities
}.

(** [createPolicy(capabilities, rootPath, rootPackageName,
    memberAccessTracing)]; the flag comes from the command line parser and
    may be absent. *)
Definition createPolicy (capabilitiesCoarse capabilitiesFine : Dict Capabilities)
           (memberAccessTracing : option bool) : Policy :=
  mkPolicy (match memberAccessTracing with Some true => true | _ => false end)
           (createGranularPolicy capabilitiesCoarse)
           (createGranularPolicy capabilitiesFine).

End Policy.

(** Capability sets that hold strings only, as module specifiers, global
    names and member accesses are. *)
Definition all_strings (c : Capabilities) : Prop :=
  Forall (fun x => is_string x = true) (modules c) /\
  Forall (fun x => is_string x = true) (globals c).

(** The same package path with the same two sets, the elements of which
    were inserted in a possibly different order (as happens when the files
    of the package are enumerated in another order). *)
Definition same_sets (e e' : string * Capabilities) : Prop :=
  fst e = fst e' /\
  Permutation (modules (snd e)) (modules (snd e')) /\
  Permutation (globals (snd e)) (globals (snd e')).

(** The capability sets are sets: no element occurs twice. *)
Definition duplicateFree (caps : Dict Capabilities) : Prop :=
  forall p c, In (p, c) caps -> NoDup (modules c) /\ NoDup (globals c).

(** The modules, and the globals, of the paths of [caps] that are entered
    under the key [k]. *)
Definition modulesUnder (keyOf : string -> string) (caps : Dict Capabilities)
           (k : string) (x : jsval) : Prop :=
  exists p c, In (p, c) caps /\ keyOf p = k /\ In x (modules c).

Definition globalsUnder (keyOf : string -> string) (caps : Dict Capabilities)
           (k : string) (x : jsval) : Prop :=
  exists p c, In (p, c) caps /\ keyOf p = k /\ In x (globals c).

(** Every array of a policy holds strings only. *)
Definition policy_strings (policy : JsObject.t Capabilities) : Prop :=
  forall k e, In (k, e) (JsObject.own policy) -> all_strings e.

(** [l] is the ascending, duplicate-free array of the values that satisfy
    [P]. *)
Definition sorted_set_of (l : list jsval) (P : jsval -> Prop) : Prop :=
  StronglySorted sort_rel l /\ NoDup l /\ forall x, In x l <-> P x.

(** [JSON.stringify] on a policy: the own properties of every object in
    enumeration order, no white space. *)
Module JSON.

Local Open Scope string_scope.

Definition quote_char : ascii := ascii_of_nat 34.

Definition hex_digit (n : nat) : ascii :=
  ascii_of_nat (if n <? 10 then 48 + n else 87 + n)%nat.

Definition escape (c : ascii) : string :=
  let n := nat_of_ascii c in
  if (n =? 34)%nat then String "\" (String quote_char EmptyString)
  else if (n =? 92)%nat then "\\"
  else if (n =? 8)%nat then "\b"
  else if (n =? 9)%nat then "\t"
  else if (n =? 10)%nat then "\n"
  else if (n =? 12)%nat then "\f"
  else if (n =? 13)%nat then "\r"
  else if (n <? 32)%nat
       then "\u00" ++ String (hex_digit (n / 16))
                             (String (hex_digit (n mod 16)) EmptyString)
  else String c EmptyString.

Fixpoint escape_all (s : string) : string :=
  match s with
  | EmptyString => EmptyString
  | String c s' => escape c ++ escape_all s'
  end.

Definition quote (s : string) : string :=
  String quote_char (escape_all s ++ String quote_char EmptyString).

Definition value (v : jsval) : string :=
  match v with
  | JStr s => quote s
  | _ => toString v
  end.

Definition array (l : list jsval) : string :=
  "[" ++ String.concat "," (List.map value l) ++ "]".

Definition capabilities (c : Capabilities) : string :=
  "{" ++ quote "modules" ++ ":" ++ array (modules c) ++ ","
      ++ quote "globals" ++ ":" ++ array (globals c) ++ "}".

Definition dict (d : Dict Capabilities) : string :=
  "{" ++ String.concat ","
           (List.map (fun kv => quote (fst kv) ++ ":" ++ capabilities (snd kv)) d)
      ++ "}".

Definition stringify (p : Policy) : string :=
  "{" ++ quote "memberAccessTracing" ++ ":"
      ++ (if memberAccessTracing p then "true" else "false") ++ ","
      ++ quote "policyCoarse" ++ ":"
      ++ dict (JsObject.own (policyCoarse p)) ++ ","
      ++ quote "policyFine" ++ ":"
      ++ dict (JsObject.own (policyFine p)) ++ "}".

End JSON.

(* ================================================================== *)
(** ** Exceptions                                                     *)
(* ================================================================== *)

(** A computation that returns a value or throws. *)
Inductive result (A : Type) : Type :=
| Ok (a : A)
| Throw (message : string).

Arguments Ok {A} a.
Arguments Throw {A} message.

Definition bind {A B} (c : result A) (k : A -> result B) : result B :=
  match c with
  | Ok a => k a
  | Throw e => Throw e
  end.

Notation "x <- c ;; k" := (bind c (fun x => k))
  (at level 61, c at next level, right associativity).
Notation "' p <- c ;; k" := (bind c (fun x => let 'p := x in k))
  (at level 61, p pattern, c at next level, right associativity).

(** Reading a property of [undefined] or [null] throws a [TypeError]. *)
Definition deref {A} (o : option A) : result A :=
  match o with
  | Some a => Ok a
  | None => Throw "TypeError"
  end.

(** A [for ... of] loop whose body updates a state and may throw. *)
Section ForEach.

Context {A S : Type}.
Variable body : A -> S -> result S.

Fixpoint forEach (l : list A) (s : S) : result S :=
  match l with
  | [] => Ok s
  | x :: l' => s' <- body x s ;; forEach l' s'
  end.

End ForEach.

(* ================================================================== *)
(** ** The syntax tree (astUtils.js)                                  *)
(* ================================================================== *)

(** The ["Enum"] [NodeTypes] of astUtils.js.  [Unlisted] stands for the
    node types of the parser that the enumeration does not list. *)
Module NodeTypes.

Inductive t :=
| ArrayPattern
| ArrowFunctionExpression
| AssignmentExpression
| AssignmentPattern
| BlockStatement
| CallExpression
| ExportAllDeclaration
| ExportNamedDeclaration
| ExportSpecifier
| Function
| FunctionDeclaration
| FunctionExpression
| Identifier
| ImportDeclaration
| ImportDefaultSpecifier
| ImportExpression
| ImportNamespaceSpecifier
| ImportSpecifier
| Literal
| MemberExpression
| MethodDefinition
| NewExpression
| ObjectPattern
| Program
| Property
| RestElement
| SequenceExpression
| UpdateExpression
| UnaryExpression
| VariableDeclaration
| VariableDeclarator
| Unlisted (type : string).

Definition eq_dec (a b : t) : {a = b} + {a <> b}.
Proof. decide equality. apply String.string_dec. Defined.

Definition eqb (a b : t) : bool := if eq_dec a b then true else false.

End NodeTypes.

(** The ["Enum"] [EnvironmentTypes]. *)
Module EnvironmentTypes.

Inductive t := Program | Function | Method | Block.

End EnvironmentTypes.

(** The nodes of the parser's tree, by their shape in the ESTree
    interfaces (ECMAScript 2020).  Every node carries [nid], standing for
    the identity of the node object, which is what [===] and
    [Array.prototype.includes] compare.  The node types that the
    analysis does not single out are [Other] nodes; such a node lists the
    child nodes that the walker visits, in the walker's order. *)
Module Ast.

(** How the walker hands a child over: as an expression or statement, or
    as a binding pattern. *)
Inductive role := Expression | Pattern.

Inductive CallKind := CallExpression | NewExpression.
Inductive FunctionKind :=
  FunctionDeclaration | FunctionExpression | ArrowFunctionExpression.
Inductive UnaryKind := UnaryExpression | UpdateExpression.
Inductive ModuleSpecifierKind :=
  ImportDefaultSpecifier | ImportNamespaceSpecifier.

(** An identifier that only names something in an import or export
    specifier; the walker never reaches it. *)
Record ident := mkIdent { ident_nid : nat; ident_name : string }.

Inductive node :=
| Identifier (nid : nat) (name : string)
| Literal (nid : nat) (value : jsval)
| MemberExpression (nid : nat) (object property : node)
| Call (kind : CallKind) (nid : nat) (callee : node) (arguments : list node)
| ImportExpression (nid : nat) (source : node)
| Function (kind : FunctionKind) (nid : nat) (id : option node)
           (params : list node) (body : node)
| Unary (kind : UnaryKind) (nid : nat) (argument : node)
| ObjectPattern (nid : nat) (properties : list node)
| ArrayPattern (nid : nat) (elements : list (option node))
| Property (nid : nat) (key value : node)
| RestElement (nid : nat) (argument : node)
| AssignmentPattern (nid : nat) (left right : node)
| MethodDefinition (nid : nat) (key value : node)
| Program (nid : nat) (body : list node)
| BlockStatement (nid : nat) (body : list node)
| VariableDeclaration (nid : nat) (kind : string) (declarations : list node)
| VariableDeclarator (nid : nat) (id : node) (init : option node)
| ImportDeclaration (nid : nat) (specifiers : list node) (source : node)
| ImportSpecifier (nid : nat) (imported local : ident)
| ModuleSpecifier (kind : ModuleSpecifierKind) (nid : nat) (local : ident)
| ExportNamedDeclaration (nid : nat) (declaration : option node)
                         (specifiers : list node) (source : option node)
| ExportSpecifier (nid : nat) (local exported : ident)
| ExportAllDeclaration (nid : nat) (exported : option node) (source : node)
| Other (nid : nat) (type : string) (children : list (role * node)).

(** [node.type] *)
Definition type (n : node) : NodeTypes.t :=
  match n with
  | Identifier _ _ => NodeTypes.Identifier
  | Literal _ _ => NodeTypes.Literal
  | MemberExpression _ _ _ => NodeTypes.MemberExpression
  | Call CallExpression _ _ _ => NodeTypes.CallExpression
  | Call NewExpression _ _ _ => NodeTypes.NewExpression
  | ImportExpression _ _ => NodeTypes.ImportExpression
  | Function FunctionDeclaration _ _ _ _ => NodeTypes.FunctionDeclaration
  | Function FunctionExpression _ _ _ _ => NodeTypes.FunctionExpression
  | Function ArrowFunctionExpression _ _ _ _ => NodeTypes.ArrowFunctionExpression
  | Unary UnaryExpression _ _ => NodeTypes.UnaryExpression
  | Unary UpdateExpression _ _ => NodeTypes.UpdateExpression
  | ObjectPattern _ _ => NodeTypes.ObjectPattern
  | ArrayPattern _ _ => NodeTypes.ArrayPattern
  | Property _ _ _ => NodeTypes.Property
  | RestElement _ _ => NodeTypes.RestElement
  | AssignmentPattern _ _ _ => NodeTypes.AssignmentPattern
  | MethodDefinition _ _ _ => NodeTypes.MethodDefinition
  | Program _ _ => NodeTypes.Program
  | BlockStatement _ _ => NodeTypes.BlockStatement
  | VariableDeclaration _ _ _ => NodeTypes.VariableDeclaration
  | VariableDeclarator _ _ _ => NodeTypes.VariableDeclarator
  | ImportDeclaration _ _ _ => NodeTypes.ImportDeclaration
  | ImportSpecifier _ _ _ => NodeTypes.ImportSpecifier
  | ModuleSpecifier ImportDefaultSpecifier _ _ => NodeTypes.ImportDefaultSpecifier
  | ModuleSpecifier ImportNamespaceSpecifier _ _ => NodeTypes.ImportNamespaceSpecifier
  | ExportNamedDeclaration _ _ _ _ => NodeTypes.ExportNamedDeclaration
  | ExportSpecifier _ _ _ => NodeTypes.ExportSpecifier
  | ExportAllDeclaration _ _ _ => NodeTypes.ExportAllDeclaration
  | Other _ t _ => NodeTypes.Unlisted t
  end.

Definition nid (n : node) : nat :=
  match n with
  | Identifier i _ | Literal i _ | MemberExpression i _ _ | Call _ i _ _
  | ImportExpression i _ | Function _ i _ _ _ | Unary _ i _
  | ObjectPattern i _ | ArrayPattern i _ | Property i _ _ | RestElement i _
  | AssignmentPattern i _ _ | MethodDefinition i _ _ | Program i _
  | BlockStatement i _ | VariableDeclaration i _ _ | VariableDeclarator i _ _
  | ImportDeclaration i _ _ | ImportSpecifier i _ _ | ModuleSpecifier _ i _
  | ExportNamedDeclaration i _ _ _ | ExportSpecifier i _ _
  | ExportAllDeclaration i _ _ | Other i _ _ => i
  end.

(** [a === b] on node objects. *)
Definition same (a b : node) : bool := Nat.eqb (nid a) (nid b).

(** [array.includes(n)] on an array of nodes. *)
Definition includes (l : list node) (n : node) : bool := existsb (same n) l.

(** [n.name]: of the node types of ECMAScript 2020 only identifiers have
    this property; on any other node the read gives [undefined]. *)
Definition name (n : node) : option string :=
  match n with
  | Identifier _ s => Some s
  | _ => None
  end.

(** [n.value] when it is read as a primitive: the value of a literal;
    [undefined] on an identifier. *)
Definition value (n : node) : option jsval :=
  match n with
  | Literal _ v => Some v
  | _ => None
  end.

(** [n.id] *)
Definition id (n : node) : option node :=
  match n with
  | VariableDeclarator _ i _ => Some i
  | Function _ _ i _ _ => i
  | _ => None
  end.

(** [n.init] *)
Definition init (n : node) : option node :=
  match n with
  | VariableDeclarator _ _ i => i
  | _ => None
  end.

(** [n.params] *)
Definition params (n : node) : option (list node) :=
  match n with
  | Function _ _ _ ps _ => Some ps
  | _ => None
  end.

(** A child that may be absent ([null]). *)
Definition optional (r : role) (o : option node) : list (role * node) :=
  match o with
  | Some n => [(r, n)]
  | None => []
  end.

(** The children the walker visits, in its order, with the role in which
    it hands each over.  This is the table [acorn_walk.base] of the
    walker library (version 8), with the three entries that
    acornWalkPatch.js replaces: both sides of a member expression, key
    and value of a property or method definition, and every property of
    an object pattern are visited like expressions. *)
Definition children (n : node) : list (role * node) :=
  match n with
  | Identifier _ _ | Literal _ _ => []
  | MemberExpression _ o p => [(Expression, o); (Expression, p)]
  | Call _ _ callee args => (Expression, callee) :: map (pair Expression) args
  | ImportExpression _ src => [(Expression, src)]
  | Function _ _ i ps b =>
      optional Pattern i ++ map (pair Pattern) ps ++ [(Expression, b)]
  | Unary _ _ a => [(Expression, a)]
  | ObjectPattern _ props => map (pair Expression) props
  | ArrayPattern _ elts => flat_map (optional Pattern) elts
  | Property _ k v => [(Expression, k); (Expression, v)]
  | RestElement _ a => [(Pattern, a)]
  | AssignmentPattern _ l r => [(Pattern, l); (Expression, r)]
  | MethodDefinition _ k v => [(Expression, k); (Expression, v)]
  | Program _ b => map (pair Expression) b
  | BlockStatement _ b => map (pair Expression) b
  | VariableDeclaration _ _ ds => map (pair Expression) ds
  | VariableDeclarator _ i ini => (Pattern, i) :: optional Expression ini
  | ImportDeclaration _ specs src =>
      map (pair Expression) specs ++ [(Expression, src)]
  | ImportSpecifier _ _ _ | ModuleSpecifier _ _ _ | ExportSpecifier _ _ _ => []
  | ExportNamedDeclaration _ d _ src =>
      optional Expression d ++ optional Expression src
  | ExportAllDeclaration _ e src =>
      optional Expression e ++ [(Expression, src)]
  | Other _ _ ch => ch
  end.

(** A child handed over as a pattern is passed on under its own type
    unless it is an identifier: that one ends in the walker's
    [VariablePattern] case, which no analysis of this program looks at. *)
Definition visited_as (r : role) (n : node) : bool :=
  match r, n with
  | Pattern, Identifier _ _ => false
  | _, _ => true
  end.

End Ast.

(* ================================================================== *)
(** ** The traversal driver                                           *)
(* ================================================================== *)

(** The recursive function [c] that [extractMemberAccesses],
    [findGlobalsInAST] and the walker's [simple] each define: push the node
    on the ancestors, run the analyses ([enter]), walk the children by the
    walker's table, finish ([leave]), pop the node.

    The walker calls [c] on a child first under an override type
    ([Expression], [Statement], [Pattern], [Function], ...) and from there
    on the same node under its own type.  No analysis looks at an override
    type, and the [isNew] test keeps the node from being pushed twice, so
    one call per node, under the node's own type, is what is modelled. *)
Section Traverse.

Context {S : Type}.
Variable enter : Ast.node -> list Ast.node -> S -> result S.
Variable leave : Ast.node -> S -> result S.

Fixpoint traverse (n : Ast.node) (ancestors : list Ast.node) (s : S)
         {struct n} : result S :=
  let ancestors := ancestors ++ [n] in
  let c (r : Ast.role) (child : Ast.node) (s : S) : result S :=
    if Ast.visited_as r child then traverse child ancestors s else Ok s in
  let opt (r : Ast.role) (o : option Ast.node) (s : S) : result S :=
    match o with
    | Some child => c r child s
    | None => Ok s
    end in
  s <- enter n ancestors s ;;
  s <- match n with
       | Ast.Identifier _ _ | Ast.Literal _ _ => Ok s
       | Ast.MemberExpression _ o p =>
           s <- c Ast.Expression o s ;; c Ast.Expression p s
       | Ast.Call _ _ callee args =>
           s <- c Ast.Expression callee s ;;
           forEach (c Ast.Expression) args s
       | Ast.ImportExpression _ src => c Ast.Expression src s
       | Ast.Function _ _ i ps b =>
           s <- opt Ast.Pattern i s ;;
           s <- forEach (c Ast.Pattern) ps s ;;
           c Ast.Expression b s
       | Ast.Unary _ _ a => c Ast.Expression a s
       | Ast.ObjectPattern _ props => forEach (c Ast.Expression) props s
       | Ast.ArrayPattern _ elts => forEach (opt Ast.Pattern) elts s
       | Ast.Property _ k v =>
           s <- c Ast.Expression k s ;; c Ast.Expression v s
       | Ast.RestElement _ a => c Ast.Pattern a s
       | Ast.AssignmentPattern _ l r =>
           s <- c Ast.Pattern l s ;; c Ast.Expression r s
       | Ast.MethodDefinition _ k v =>
           s <- c Ast.Expression k s ;; c Ast.Expression v s
       | Ast.Program _ b => forEach (c Ast.Expression) b s
       | Ast.BlockStatement _ b => forEach (c Ast.Expression) b s
       | Ast.VariableDeclaration _ _ ds => forEach (c Ast.Expression) ds s
       | Ast.VariableDeclarator _ i ini =>
           s <- c Ast.Pattern i s ;; opt Ast.Expression ini s
       | Ast.ImportDeclaration _ specs src =>
           s <- forEach (c Ast.Expression) specs s ;; c Ast.Expression src s
       | Ast.ImportSpecifier _ _ _ | Ast.ModuleSpecifier _ _ _
       | Ast.ExportSpecifier _ _ _ => Ok s
       | Ast.ExportNamedDeclaration _ d _ src =>
           s <- opt Ast.Expression d s ;; opt Ast.Expression src s
       | Ast.ExportAllDeclaration _ e src =>
           s <- opt Ast.Expression e s ;; c Ast.Expression src s
       | Ast.Other _ _ ch => forEach (fun rc => c (fst rc) (snd rc)) ch s
       end ;;
  leave n s.

(** One step of the walk on a child. *)
Definition walkChild (ancestors : list Ast.node) (rc : Ast.role * Ast.node)
           (s : S) : result S :=
  if Ast.visited_as (fst rc) (snd rc) then traverse (snd rc) ancestors s
  else Ok s.

End Traverse.

(* ================================================================== *)
(** ** Environments (astUtils.js)                                     *)
(* ================================================================== *)

(** [class Variable] ([Variable] is a reserved word here): [module] is
    [null] until [setModule] is called. *)
Record EnvVariable := mkVariable { var_name : string; var_module : jsval }.

(** [new Variable(variableName)] *)
Definition newVariable (variableName : string) : EnvVariable :=
  mkVariable variableName JNull.

(** [class Environment] without its [parent] link (see [Env]) and without
    the fields that are written but never read ([start], [end],
    [children]). *)
Record Environment := mkEnvironment {
  env_type : EnvironmentTypes.t;
  env_vars : list EnvVariable
}.

(** The environment pointer of a traversal: the environment it designates
    followed by the chain of its parents, the last one having [parent ===
    null].  [[]] is the pointer before any environment exists
    ([undefined]).

    The traversals keep the enclosing environments alive through [prev_env]
    and an inner environment reaches the same objects through [parent], so
    whatever is added to an outer environment from inside a block is still
    there once the block is left: leaving a block drops the head of the
    chain and keeps the tail as it is by then ([traverse_shape] below: a
    subtree leaves the chain in the shape in which it found it).  This
    presumes what the parser guarantees, that [Program] is the root and
    occurs nowhere else. *)
Definition Env := list Environment.

Module Env.

Definition push (v : EnvVariable) (e : Environment) : Environment :=
  mkEnvironment (env_type e) (env_vars e ++ [v]).

(** [env.addVar(variable)] *)
Definition addVar (env : Env) (v : EnvVariable) : result Env :=
  match env with
  | [] => Throw "TypeError"
  | e :: parent => Ok (push v e :: parent)
  end.

(** The loop of [addVarToFunctionScope]: go up while the environment is
    neither a function nor a method environment and has a parent. *)
Fixpoint addVarToFunctionScope_from (e : Environment) (parent : Env)
         (v : EnvVariable) : Env :=
  match env_type e, parent with
  | EnvironmentTypes.Function, _ | EnvironmentTypes.Method, _ | _, [] =>
      push v e :: parent
  | _, e' :: parent' => e :: addVarToFunctionScope_from e' parent' v
  end.

(** [env.addVarToFunctionScope(variable)] *)
Definition addVarToFunctionScope (env : Env) (v : EnvVariable) : result Env :=
  match env with
  | [] => Throw "TypeError"
  | e :: parent => Ok (addVarToFunctionScope_from e parent v)
  end.

Definition named (name : string) (v : EnvVariable) : bool :=
  String.eqb (var_name v) name.

(** [getVarNamed(name)] on an existing environment; [None] is [null]. *)
Fixpoint lookup (env : Env) (name : string) : option EnvVariable :=
  match env with
  | [] => None
  | e :: parent =>
      match find (named name) (env_vars e) with
      | Some v => Some v
      | None => lookup parent name
      end
  end.

(** [env.getVarNamed(name)] *)
Definition getVarNamed (env : Env) (name : string) : result (option EnvVariable) :=
  match env with
  | [] => Throw "TypeError"
  | _ => Ok (lookup env name)
  end.

(** [env.getModRefVarNamed(name)] *)
Definition getModRefVarNamed (env : Env) (name : string)
  : result (option EnvVariable) :=
  variable <- getVarNamed env name ;;
  match variable with
  | None => Ok None
  | Some v =>
      Ok (if jsval_eqb (var_module v) JNull then None else Some v)
  end.

(** [env.hasVarNamed(name)] *)
Definition hasVarNamed (env : Env) (name : string) : result bool :=
  variable <- getVarNamed env name ;;
  Ok (match variable with Some _ => true | None => false end).

(** [setModule(module)] on the first variable called [name] of a list. *)
Fixpoint setModule_vars (vars : list EnvVariable) (name : string) (m : jsval)
  : option (list EnvVariable) :=
  match vars with
  | [] => None
  | v :: vs =>
      if named name v then Some (mkVariable (var_name v) m :: vs)
      else option_map (cons v) (setModule_vars vs name m)
  end.

Fixpoint setModule_chain (env : Env) (name : string) (m : jsval) : option Env :=
  match env with
  | [] => None
  | e :: parent =>
      match setModule_vars (env_vars e) name m with
      | Some vars => Some (mkEnvironment (env_type e) vars :: parent)
      | None => option_map (cons e) (setModule_chain parent name m)
      end
  end.

(** [env.getVarNamed(name).setModule(module)]: the variable object found
    by the lookup is updated where it lives; when there is none the call
    is on [null] and throws. *)
Definition setModuleOfVarNamed (env : Env) (name : string) (m : jsval)
  : result Env :=
  match env with
  | [] => Throw "TypeError"
  | _ => deref (setModule_chain env name m)
  end.

(** [allVars()] on an existing environment: its variables, then those of
    the parents. *)
Fixpoint allVars_from (e : Environment) (parent : Env) : list EnvVariable :=
  match parent with
  | [] => env_vars e
  | e' :: parent' => env_vars e ++ allVars_from e' parent'
  end.

(** [env.allVars()] *)
Definition allVars (env : Env) : result (list EnvVariable) :=
  match env with
  | [] => Throw "TypeError"
  | e :: parent => Ok (allVars_from e parent)
  end.

(** [variable.moduleReferencing()] *)
Definition moduleReferencing (v : EnvVariable) : bool :=
  negb (jsval_eqb (var_module v) JNull).

End Env.

(** [ancestors[ancestors.length - k]], [undefined] when out of range. *)
Definition fromEnd {A} (l : list A) (k : nat) : option A :=
  if (k <=? List.length l)%nat then nth_error l (List.length l - k) else None.

(** [isFunction(ancestors)] *)
Definition isFunction (ancestors : list Ast.node) : bool :=
  (2 <=? List.length ancestors)%nat &&
  match option_map Ast.type (fromEnd ancestors 2) with
  | Some NodeTypes.FunctionDeclaration
  | Some NodeTypes.Function
  | Some NodeTypes.FunctionExpression
  | Some NodeTypes.ArrowFunctionExpression => true
  | _ => false
  end.

(** [isMethod(ancestors)] *)
Definition isMethod (ancestors : list Ast.node) : bool :=
  (3 <=? List.length ancestors)%nat &&
  match option_map Ast.type (fromEnd ancestors 3) with
  | Some NodeTypes.MethodDefinition => true
  | _ => false
  end.

(** [identifiersFromNode(node)]: the identifier nodes a binding target
    introduces.  ([flat()] on an array of nodes changes nothing; on the
    arrays of arrays built in the two loops it concatenates.) *)
Fixpoint identifiersFromNode (node : Ast.node) : result (list Ast.node) :=
  match node with
  | Ast.Identifier _ _ => Ok [node]
  | Ast.RestElement _ argument => identifiersFromNode argument
  | Ast.AssignmentPattern _ lhs _ => identifiersFromNode lhs
  | Ast.ObjectPattern _ properties =>
      forEach (fun prop identifiers =>
                 ids <- identifiersFromNode prop ;; Ok (identifiers ++ ids))
              properties []
  | Ast.ArrayPattern _ elements =>
      forEach (fun element identifiers =>
                 match element with
                 | Some e =>
                     ids <- identifiersFromNode e ;; Ok (identifiers ++ ids)
                 | None => Ok identifiers
                 end)
              elements []
  | Ast.Property _ _ value => identifiersFromNode value
  | Ast.Unary _ _ argument => identifiersFromNode argument
  | _ => Throw "Unknown node type"
  end.

(** [identifiersFromNode(x)] where [x] may be [undefined]: reading
    [x.type] throws then. *)
Definition identifiersFromNode_opt (x : option Ast.node)
  : result (list Ast.node) :=
  node <- deref x ;; identifiersFromNode node.

(** The [name] of each identifier node found by [identifiersFromNode]. *)
Definition identifierName (identifier : Ast.node) : string :=
  template_opt (Ast.name identifier).

(** [identifiersFromImportDeclaration(node)], as names. *)
Definition identifiersFromImportDeclaration (specifiers : list Ast.node)
  : result (list string) :=
  forEach (fun spec names =>
             match spec with
             | Ast.ImportSpecifier _ _ local
             | Ast.ModuleSpecifier _ _ local
             | Ast.ExportSpecifier _ local _ => Ok (names ++ [Ast.ident_name local])
             | _ => Throw "TypeError"
             end)
          specifiers [].

(** [identifiersFromVariableDeclaration(node)] *)
Definition identifiersFromVariableDeclaration (declarations : list Ast.node)
  : result (list Ast.node) :=
  forEach (fun declarator variables =>
             ids <- identifiersFromNode_opt (Ast.id declarator) ;;
             Ok (variables ++ ids))
          declarations [].

(** [trackVars(node, type, env)] *)
Definition trackVars (node : Ast.node) (env : Env) : result Env :=
  match node with
  | Ast.ImportDeclaration _ specifiers _ =>
      names <- identifiersFromImportDeclaration specifiers ;;
      forEach (fun name env => Env.addVar env (newVariable name)) names env
  | Ast.VariableDeclaration _ kind declarations =>
      identifiers <- identifiersFromVariableDeclaration declarations ;;
      if String.eqb kind "var" then
        forEach (fun identifier env =>
                   Env.addVarToFunctionScope env
                     (newVariable (identifierName identifier)))
                identifiers env
      else
        forEach (fun identifier env =>
                   Env.addVar env (newVariable (identifierName identifier)))
                identifiers env
  | _ => Ok env
  end.

(** [initialVarsForFunction(ancestors)] *)
Definition initialVarsForFunction (ancestors : list Ast.node)
  : result (list EnvVariable) :=
  fn <- deref (fromEnd ancestors 2) ;;
  params <- deref (Ast.params fn) ;;
  identifiers <-
    forEach (fun param ids => l <- identifiersFromNode param ;; Ok (ids ++ l))
            params [] ;;
  Ok (map (fun identifier => newVariable (identifierName identifier)) identifiers).

(** [trackScope(node, type, ancestors, env)] *)
Definition trackScope (node : Ast.node) (ancestors : list Ast.node) (env : Env)
  : result Env :=
  match Ast.type node with
  | NodeTypes.Program => Ok [mkEnvironment EnvironmentTypes.Program []]
  | NodeTypes.BlockStatement =>
      '(env_type, initial_vars) <-
        (if isFunction ancestors then
           initial_vars <- initialVarsForFunction ancestors ;;
           Ok (EnvironmentTypes.Function, initial_vars)
         else if isMethod ancestors then
           initial_vars <- initialVarsForFunction ancestors ;;
           Ok (EnvironmentTypes.Method, initial_vars)
         else Ok (EnvironmentTypes.Block, [])) ;;
      match env with
      | [] => Throw "TypeError"
      | _ => Ok (mkEnvironment env_type initial_vars :: env)
      end
  | _ => Ok env
  end.

(** The end of [c]: [if (type === NodeTypes.BlockStatement) env = prev_env]. *)
Definition exitScope (node : Ast.node) (env : Env) : Env :=
  match Ast.type node with
  | NodeTypes.BlockStatement => tl env
  | _ => env
  end.

(* ================================================================== *)
(** ** Module imports and member accesses (extractModules.js)         *)
(* ================================================================== *)

(** [n.type === NodeTypes.CallExpression || n.type === NodeTypes.NewExpression]
    together with what the tests that follow it read from such a node. *)
Definition asCall (n : Ast.node) : option (Ast.node * list Ast.node) :=
  match n with
  | Ast.Call _ _ callee arguments => Some (callee, arguments)
  | _ => None
  end.

Definition isType (t : NodeTypes.t) (n : Ast.node) : bool :=
  NodeTypes.eqb (Ast.type n) t.

(** [x === 'require'] for a property that may be absent. *)
Definition isRequire (x : option string) : bool :=
  match x with
  | Some s => String.eqb s "require"
  | None => false
  end.

(** [typeof x === 'string'] for a literal value that may be absent. *)
Definition typeofString (x : option jsval) : bool :=
  match x with
  | Some v => is_string v
  | None => false
  end.

(** [validRequireCall(declarator)] *)
Definition validRequireCall (declarator : Ast.node) : bool :=
  match Ast.init declarator, Ast.id declarator with
  | Some init, Some id =>
      isType NodeTypes.Identifier id &&
      match asCall init with
      | Some (callee, arguments) =>
          isType NodeTypes.Identifier callee &&
          isRequire (Ast.name callee) &&
          (0 <? List.length arguments)%nat &&
          match arguments with
          | argument :: _ =>
              isType NodeTypes.Literal argument &&
              typeofString (Ast.value argument)
          | [] => false
          end
      | None => false
      end
  | _, _ => false
  end.

(** What a template literal prints for [x.value] when the property may be
    absent. *)
Definition template_val (x : option jsval) : string :=
  match x with
  | Some v => toString v
  | None => "undefined"
  end.

(** The first argument's [value] of a call recognised by
    [validRequireCall]. *)
Definition firstArgumentValue (init : Ast.node) : option jsval :=
  match asCall init with
  | Some (_, argument :: _) => Ast.value argument
  | _ => None
  end.

(** The body of the loop over the declarators in
    [trackModuleReferencingVars]. *)
Definition trackDeclarator (variableDeclarator : Ast.node) (env : Env)
  : result Env :=
  if validRequireCall variableDeclarator then
    id <- deref (Ast.id variableDeclarator) ;;
    init <- deref (Ast.init variableDeclarator) ;;
    module <- deref (firstArgumentValue init) ;;
    Env.setModuleOfVarNamed env (template_opt (Ast.name id)) module
  else
    match Ast.init variableDeclarator, Ast.id variableDeclarator with
    | Some init, Some id =>
        if isType NodeTypes.Identifier id && isType NodeTypes.Identifier init
        then
          modRefVar <- Env.getModRefVarNamed env (template_opt (Ast.name init)) ;;
          match modRefVar with
          | Some v =>
              Env.setModuleOfVarNamed env (template_opt (Ast.name id))
                                      (var_module v)
          | None => Ok env
          end
        else Ok env
    | _, _ => Ok env
    end.

(** [trackModuleReferencingVars(node, type, env)] *)
Definition trackModuleReferencingVars (node : Ast.node) (env : Env)
  : result Env :=
  match node with
  | Ast.VariableDeclaration _ _ declarations =>
      forEach trackDeclarator declarations env
  | Ast.ImportDeclaration _ specifiers source =>
      if isType NodeTypes.Literal source then
        forEach (fun specifier env =>
                   match specifier with
                   | Ast.ModuleSpecifier _ _ local =>
                       module <- deref (Ast.value source) ;;
                       Env.setModuleOfVarNamed env (Ast.ident_name local) module
                   | _ => Ok env
                   end)
                specifiers env
      else Ok env
  | _ => Ok env
  end.

(** [x.name || x.value] inside a template literal. *)
Definition nameOrValue (x : Ast.node) : string :=
  match Ast.name x with
  | Some (String c s) => String c s
  | _ => template_val (Ast.value x)
  end.

(** [n.type === NodeTypes.Literal || n.type === NodeTypes.Identifier] *)
Definition isLiteralOrIdentifier (n : Ast.node) : bool :=
  isType NodeTypes.Literal n || isType NodeTypes.Identifier n.

(** The index [i] of a loop inside a template literal. *)
Definition indexString (i : nat) : string := toString (JNum (N.of_nat i)).

(** The test on [declarator.init] that the object-pattern and the
    array-pattern branch of [trackMemberAccess] share: a call or [new] of
    something whose [name] is [require], with a string literal as first
    argument.  It yields that literal's [value]. *)
Definition patternFromRequire (init : option Ast.node) : option jsval :=
  match init with
  | Some init =>
      match asCall init with
      | Some (callee, argument :: _) =>
          if isRequire (Ast.name callee) &&
             isType NodeTypes.Literal argument &&
             typeofString (Ast.value argument)
          then Ast.value argument
          else None
      | _ => None
      end
  | None => None
  end.

(** The loop over the properties of an object pattern: a member access for
    every [Property], nothing for a [RestElement], an error otherwise. *)
Definition addProperties (module : string) (properties : list Ast.node)
           (memberAccesses : JsSet.t) : result JsSet.t :=
  forEach (fun property memberAccesses =>
             match property with
             | Ast.Property _ key _ =>
                 Ok (JsSet.add memberAccesses
                       (JStr (module ++ "." ++ template_opt (Ast.name key))))
             | Ast.RestElement _ _ => Ok memberAccesses
             | _ => Throw "Unknown object pattern property type"
             end)
          properties memberAccesses.

(** The loop [for (let i = 0; i < elements.length; ++i)] that adds
    [`${module}.${i}`]. *)
Definition addIndices (module : string) (length : nat)
           (memberAccesses : JsSet.t) : JsSet.t :=
  fold_left (fun memberAccesses i =>
               JsSet.add memberAccesses (JStr (module ++ "." ++ indexString i)))
            (seq 0 length) memberAccesses.

(** The body of the loop over the declarators in [trackMemberAccess]. *)
Definition trackDeclaratorAccess (env : Env) (declarator : Ast.node)
           (memberAccesses : JsSet.t) : result JsSet.t :=
  id <- deref (Ast.id declarator) ;;
  let init := Ast.init declarator in
  match id with
  | Ast.ObjectPattern _ properties =>
      match patternFromRequire init with
      | Some module => addProperties (toString module) properties memberAccesses
      | None =>
          match init with
          | Some (Ast.Identifier _ name) =>
              modRefVar <- Env.getModRefVarNamed env name ;;
              match modRefVar with
              | Some v =>
                  addProperties (toString (var_module v)) properties
                                memberAccesses
              | None => Ok memberAccesses
              end
          | _ => Ok memberAccesses
          end
      end
  | Ast.ArrayPattern _ elements =>
      match patternFromRequire init with
      | Some _ =>
          Ok (addIndices (template_opt (match init with
                                        | Some i => Ast.name i
                                        | None => None
                                        end))
                         (List.length elements) memberAccesses)
      | None =>
          match init with
          | Some (Ast.Identifier _ name) =>
              modRefVar <- Env.getModRefVarNamed env name ;;
              match modRefVar with
              | Some v =>
                  Ok (addIndices (toString (var_module v))
                                 (List.length elements) memberAccesses)
              | None => Ok memberAccesses
              end
          | _ => Ok memberAccesses
          end
      end
  | _ => Ok memberAccesses
  end.

(** The second branch for a member expression: the test "member access
    directly to a require call".  It reads [name], not [value], of the
    first argument. *)
Definition directRequireAccess (object : Ast.node) : option string :=
  match asCall object with
  | Some (callee, argument :: _) =>
      if isType NodeTypes.Identifier callee &&
         isRequire (Ast.name callee) &&
         isType NodeTypes.Literal argument &&
         (match Ast.name argument with Some _ => true | None => false end)
      then Some (template_opt (Ast.name argument))
      else None
  | _ => None
  end.

(** [trackMemberAccess(node, type, env, memberAccesses)] *)
Definition trackMemberAccess (node : Ast.node) (env : Env)
           (memberAccesses : JsSet.t) : result JsSet.t :=
  match node with
  | Ast.ImportDeclaration _ specifiers source =>
      if isType NodeTypes.Literal source then
        Ok (fold_left
              (fun memberAccesses specifier =>
                 match specifier with
                 | Ast.ImportSpecifier _ imported _ =>
                     JsSet.add memberAccesses
                       (JStr (template_val (Ast.value source) ++ "."
                              ++ Ast.ident_name imported))
                 | _ => memberAccesses
                 end)
              specifiers memberAccesses)
      else Ok memberAccesses
  | Ast.ExportNamedDeclaration _ _ specifiers (Some source) =>
      if isType NodeTypes.Literal source then
        Ok (fold_left
              (fun memberAccesses specifier =>
                 match specifier with
                 | Ast.ExportSpecifier _ local _ =>
                     JsSet.add memberAccesses
                       (JStr (template_val (Ast.value source) ++ "."
                              ++ Ast.ident_name local))
                 | _ => memberAccesses
                 end)
              specifiers memberAccesses)
      else Ok memberAccesses
  | Ast.MemberExpression _ object property =>
      if isLiteralOrIdentifier property && isType NodeTypes.Identifier object
      then
        modRefVar <- Env.getModRefVarNamed env (template_opt (Ast.name object)) ;;
        match modRefVar with
        | Some v =>
            Ok (JsSet.add memberAccesses
                  (JStr (toString (var_module v) ++ "." ++ nameOrValue property)))
        | None => Ok memberAccesses
        end
      else if isLiteralOrIdentifier property then
        match directRequireAccess object with
        | Some module =>
            Ok (JsSet.add memberAccesses
                  (JStr (module ++ "." ++ nameOrValue property)))
        | None => Ok memberAccesses
        end
      else Ok memberAccesses
  | Ast.VariableDeclaration _ _ declarations =>
      forEach (trackDeclaratorAccess env) declarations memberAccesses
  | _ => Ok memberAccesses
  end.

(** The state of the function [c] of [extractMemberAccesses]. *)
Definition MemberState : Type := Env * JsSet.t.

Definition enterMember (node : Ast.node) (ancestors : list Ast.node)
           (st : MemberState) : result MemberState :=
  let (env, memberAccesses) := st in
  env <- trackScope node ancestors env ;;
  env <- trackVars node env ;;
  env <- trackModuleReferencingVars node env ;;
  memberAccesses <- trackMemberAccess node env memberAccesses ;;
  Ok (env, memberAccesses).

Definition leaveMember (node : Ast.node) (st : MemberState)
  : result MemberState :=
  Ok (exitScope node (fst st), snd st).

(** [extractMemberAccesses(node)] *)
Definition extractMemberAccesses (node : Ast.node) : result JsSet.t :=
  st <- traverse enterMember leaveMember node [] ([], JsSet.empty) ;;
  Ok (snd st).

(** The visitors that [extractImportsFromAST] hands to the walker's
    [simple]; the walker calls them when it is done with the children of a
    node. *)
Definition addSource (source : Ast.node) (imports : JsSet.t) : JsSet.t :=
  if isType NodeTypes.Literal source
  then match Ast.value source with
       | Some v => JsSet.add imports v
       | None => imports
       end
  else imports.

Definition importsVisitor (node : Ast.node) (imports : JsSet.t) : JsSet.t :=
  match node with
  | Ast.Call _ _ callee arguments =>
      if isType NodeTypes.Identifier callee && isRequire (Ast.name callee)
      then match arguments with
           | argument :: _ => addSource argument imports
           | [] => imports
           end
      else imports
  | Ast.ImportDeclaration _ _ source => addSource source imports
  | Ast.ImportExpression _ source => addSource source imports
  | Ast.ExportNamedDeclaration _ _ _ (Some source) => addSource source imports
  | Ast.ExportAllDeclaration _ _ source => addSource source imports
  | _ => imports
  end.

(** The walk of [extractImportsFromAST]; none of its steps throws (see
    [walkImports_total]). *)
Definition walkImports (ast : Ast.node) (imports : JsSet.t) : result JsSet.t :=
  traverse (fun _ _ imports => Ok imports)
           (fun node imports => Ok (importsVisitor node imports))
           ast [] imports.

(** [extractImportsFromAST(ast)], exported as [extractImports]. *)
Definition extractImports (ast : Ast.node) : JsSet.t :=
  match walkImports ast JsSet.empty with
  | Ok imports => imports
  | Throw _ => JsSet.empty
  end.

(* ================================================================== *)
(** ** Globals (extractGlobals.js)                                    *)
(* ================================================================== *)

(** [node === x] where [x] may be [null] or absent. *)
Definition sameOpt (x : option Ast.node) (node : Ast.node) : bool :=
  match x with
  | Some n => Ast.same n node
  | None => false
  end.

(** The five tests of [inGlobalNamespace] on the parent alone, in the
    order of the source. *)
Definition isPropertyOfMember (parent node : Ast.node) : bool :=
  match parent with
  | Ast.MemberExpression _ _ property => Ast.same property node
  | _ => false
  end.

(** "Argument to a function / method": the parent's type is [Function],
    [FunctionExpression] or [FunctionDeclaration]. *)
Definition isParameter (parent node : Ast.node) : bool :=
  (isType NodeTypes.Function parent ||
   isType NodeTypes.FunctionExpression parent ||
   isType NodeTypes.FunctionDeclaration parent) &&
  match Ast.params parent with
  | Some params => Ast.includes params node
  | None => false
  end.

Definition isMethodKey (parent node : Ast.node) : bool :=
  match parent with
  | Ast.MethodDefinition _ key _ => Ast.same key node
  | _ => false
  end.

Definition isFunctionName (parent node : Ast.node) : bool :=
  isType NodeTypes.FunctionDeclaration parent && sameOpt (Ast.id parent) node.

Definition isDeclaratorName (parent node : Ast.node) : bool :=
  isType NodeTypes.VariableDeclarator parent && sameOpt (Ast.id parent) node.

Definition isArrayPatternElement (parent node : Ast.node) : bool :=
  match parent with
  | Ast.ArrayPattern _ elements => existsb (fun e => sameOpt e node) elements
  | _ => false
  end.

Definition isObjectPatternProperty (grandParent parent : Ast.node) : bool :=
  isType NodeTypes.Property parent &&
  match grandParent with
  | Ast.ObjectPattern _ properties => Ast.includes properties parent
  | _ => false
  end.

(** [inGlobalNamespace(node, ancestors)] *)
Definition inGlobalNamespace (node : Ast.node) (ancestors : list Ast.node)
  : bool :=
  match fromEnd ancestors 2 with
  | None => true
  | Some parent =>
      if isPropertyOfMember parent node then false
      else if isParameter parent node then false
      else if isMethodKey parent node then false
      else if isFunctionName parent node then false
      else if isDeclaratorName parent node then false
      else
        match fromEnd ancestors 3 with
        | None => true
        | Some grandParent =>
            if isArrayPatternElement parent node then false
            else if isObjectPatternProperty grandParent parent then false
            else true
        end
  end.

Section Globals.

(** The set exported by globalNames.js, a file of the repository that is
    not among the sources at hand: the names of the platform's global
    objects. *)
Variable globalNames : list string.

Definition globalNames_has (name : string) : bool :=
  existsb (String.eqb name) globalNames.

(** [isGlobal(node, env, ancestors)] *)
Definition isGlobal (node : Ast.node) (env : Env) (ancestors : list Ast.node)
  : result bool :=
  match Ast.name node with
  | Some name =>
      if isType NodeTypes.Identifier node && globalNames_has name then
        bound <- Env.hasVarNamed env name ;;
        Ok (negb bound && inGlobalNamespace node ancestors)
      else Ok false
  | None => Ok false
  end.

(** [trackGlobals(node, type, env, ancestors, globals)]; of the
    [Identifier] objects pushed on [globals] only the name is kept. *)
Definition trackGlobals (node : Ast.node) (env : Env)
           (ancestors : list Ast.node) (globals : list string)
  : result (list string) :=
  if isType NodeTypes.Identifier node then
    g <- isGlobal node env ancestors ;;
    Ok (if g then globals ++ [template_opt (Ast.name node)] else globals)
  else Ok globals.

(** [x.name || x.value.toString()] *)
Definition nameOrValueToString (x : Ast.node) : result string :=
  match Ast.name x with
  | Some (String c s) => Ok (String c s)
  | _ =>
      match Ast.value x with
      | Some JNull | None => Throw "TypeError"
      | Some v => Ok (toString v)
      end
  end.

(** The loop over the elements of an array pattern in
    [trackGlobalMembers]: an index for every slot that is not elided. *)
Definition addGlobalIndices (global : string) (elements : list (option Ast.node))
           (globalMembers : JsSet.t) : JsSet.t :=
  fold_left (fun globalMembers ie =>
               match snd ie with
               | Some _ =>
                   JsSet.add globalMembers
                     (JStr (global ++ "." ++ indexString (fst ie)))
               | None => globalMembers
               end)
            (combine (seq 0 (List.length elements)) elements) globalMembers.

(** The body of the loop over the declarators in [trackGlobalMembers]. *)
Definition trackDeclaratorGlobal (env : Env) (ancestors : list Ast.node)
           (declarator : Ast.node) (globalMembers : JsSet.t)
  : result JsSet.t :=
  id <- deref (Ast.id declarator) ;;
  match id, Ast.init declarator with
  | Ast.ObjectPattern _ properties, Some init =>
      g <- isGlobal init env (ancestors ++ [declarator; init]) ;;
      if g then addProperties (template_opt (Ast.name init)) properties
                              globalMembers
      else Ok globalMembers
  | Ast.ArrayPattern _ elements, Some init =>
      g <- isGlobal init env (ancestors ++ [declarator; init]) ;;
      Ok (if g then addGlobalIndices (template_opt (Ast.name init)) elements
                                     globalMembers
          else globalMembers)
  | _, _ => Ok globalMembers
  end.

(** [trackGlobalMembers(node, type, env, ancestors, globalMembers)] *)
Definition trackGlobalMembers (node : Ast.node) (env : Env)
           (ancestors : list Ast.node) (globalMembers : JsSet.t)
  : result JsSet.t :=
  match node with
  | Ast.MemberExpression _ object property =>
      if isType NodeTypes.Identifier property ||
         isType NodeTypes.Literal property
      then
        g <- isGlobal object env (ancestors ++ [object]) ;;
        if g then
          member <- nameOrValueToString property ;;
          Ok (JsSet.add globalMembers
                (JStr (template_opt (Ast.name object) ++ "." ++ member)))
        else Ok globalMembers
      else Ok globalMembers
  | Ast.VariableDeclaration _ _ declarations =>
      forEach (trackDeclaratorGlobal env ancestors) declarations globalMembers
  | _ => Ok globalMembers
  end.

(** The state of the function [c] of [findGlobalsInAST]. *)
Definition GlobalState : Type := Env * list string * JsSet.t.

Definition enterGlobal (node : Ast.node) (ancestors : list Ast.node)
           (st : GlobalState) : result GlobalState :=
  let '(env, globals, globalMembers) := st in
  env <- trackScope node ancestors env ;;
  env <- trackVars node env ;;
  globals <- trackGlobals node env ancestors globals ;;
  globalMembers <- trackGlobalMembers node env ancestors globalMembers ;;
  Ok (env, globals, globalMembers).

Definition leaveGlobal (node : Ast.node) (st : GlobalState)
  : result GlobalState :=
  let '(env, globals, globalMembers) := st in
  Ok (exitScope node env, globals, globalMembers).

(** [findGlobalsInAST(node)], exported as [extractGlobals]: the set of
    global names and the set of global members. *)
Definition extractGlobals (node : Ast.node) : result (JsSet.t * JsSet.t) :=
  st <- traverse enterGlobal leaveGlobal node [] ([], [], JsSet.empty) ;;
  let '(_, globals, globalMembers) := st in
  Ok (JsSet.from (map JStr globals), globalMembers).

End Globals.

(* ================================================================== *)
(** ** Capabilities of packages (main.js)                             *)
(* ================================================================== *)

(** [removeFirstLine(text)]: [splice(1)] returns the lines after the
    first. *)
Definition newline : string := String (ascii_of_nat 10) EmptyString.

Definition removeFirstLine (text : string) : string :=
  JsString.join newline (skipn 1 (JsString.split newline text)).

Section Packages.

(** [mod.builtinModules] of the platform. *)
Variable builtinModules : list string.
(** The set exported by globalNames.js. *)
Variable globalNames : list string.
(** [acorn.parse] wrapped by [buildTree]: the tree, or [null] when the
    parser throws. *)
Variable buildTree : string -> bool -> option Ast.node.
(** The file system as the run finds it: the text of a file, and the
    entries under a directory. *)
Variable readFileSync : string -> string.
Variable readdirSync : string -> list Dirent.
Variable path_join : string -> string -> string.

(** [const NATIVE_MODULES = new Set(mod.builtinModules)] *)
Definition NATIVE_MODULES : JsSet.t := JsSet.from (map JStr builtinModules).

(** [getASTFromPath(filePath, locations)] *)
Definition getASTFromPath (filePath : string) (locations : bool)
  : option Ast.node :=
  let content := readFileSync filePath in
  let content :=
    if JsString.startsWith content "#!" then removeFirstLine content
    else content in
  buildTree content locations.

(** [recursiveGetJSFilePaths(packagePath)] on the file system. *)
Definition jsFilePathsOf (packagePath : string) : list string :=
  recursiveGetJSFilePaths path_join packagePath (readdirSync packagePath).

(** [getAccessesForPackage(packagePath, includeCustomModules, locations)] *)
Definition getAccessesForPackage (packagePath : string)
           (includeCustomModules locations : bool) : result Capabilities :=
  let jsFilePaths := jsFilePathsOf packagePath in
  '(modules, globals) <-
    forEach (fun filePath (acc : JsSet.t * JsSet.t) =>
               let (modules, globals) := acc in
               match getASTFromPath filePath locations with
               | None => Ok acc
               | Some ast =>
                   let fileModules := extractImports ast in
                   '(fileGlobals, _) <- extractGlobals globalNames ast ;;
                   Ok (JsSet.union modules fileModules,
                       JsSet.union globals fileGlobals)
               end)
            jsFilePaths (JsSet.empty, JsSet.empty) ;;
  let modules :=
    if negb includeCustomModules
    then JsSet.intersection modules NATIVE_MODULES
    else modules in
  Ok (mkCapabilities modules globals).

(** [MemberAccess.fromString(memberAccessString)] on an element of a set:
    [split] exists on strings only. *)
Definition fromStringValue (memberAccessString : jsval)
  : result MemberAccess.t :=
  match memberAccessString with
  | JStr s => Ok (MemberAccess.fromString s)
  | _ => Throw "TypeError"
  end.

(** The chain [.map(fromString).filter(...).map(toString)] at the end of
    [getMemberAccessesForPackage].  The set in the middle holds
    [MemberAccess] objects, each a new object, so nothing is merged
    there. *)
Definition filterNative (moduleMemberAccesses : JsSet.t) : result JsSet.t :=
  parsed <- forEach (fun s acc => m <- fromStringValue s ;; Ok (acc ++ [m]))
                    moduleMemberAccesses [] ;;
  let kept :=
    List.filter (fun memberAccess =>
                   JsSet.has NATIVE_MODULES (JStr (MemberAccess.module memberAccess)))
                parsed in
  Ok (JsSet.from (map (fun m => JStr (MemberAccess.toString m)) kept)).

(** [getMemberAccessesForPackage(packagePath, locations)] *)
Definition getMemberAccessesForPackage (packagePath : string)
           (locations : bool) : result Capabilities :=
  let jsFilePaths := jsFilePathsOf packagePath in
  '(moduleMemberAccesses, globalMemberAccesses) <-
    forEach (fun filePath (acc : JsSet.t * JsSet.t) =>
               let (moduleMemberAccesses, globalMemberAccesses) := acc in
               match getASTFromPath filePath locations with
               | None => Ok acc
               | Some ast =>
                   fileModuleMemberAccesses <- extractMemberAccesses ast ;;
                   '(_, fileGlobalMemberAccesses) <-
                     extractGlobals globalNames ast ;;
                   Ok (JsSet.union moduleMemberAccesses fileModuleMemberAccesses,
                       JsSet.union globalMemberAccesses fileGlobalMemberAccesses)
               end)
            jsFilePaths (JsSet.empty, JsSet.empty) ;;
  moduleMemberAccesses <- filterNative moduleMemberAccesses ;;
  Ok (mkCapabilities moduleMemberAccesses globalMemberAccesses).

(** [getCapabilitiesFromDependencyMap(dependencyMap, memberAccessTracing,
    includeCustomModules, locations)]; only the keys of the dependency map
    are looked at.  The result is the pair [capabilitiesCoarse],
    [capabilitiesFine]. *)
Definition getCapabilitiesFromDependencyMap {V} (dependencyMap : Dict V)
           (memberAccessTracing : option bool)
           (includeCustomModules locations : bool)
  : result (Dict Capabilities * Dict Capabilities) :=
  forEach (fun packagePath (acc : Dict Capabilities * Dict Capabilities) =>
             let (capabilitiesCoarse, capabilitiesFine) := acc in
             coarse <- getAccessesForPackage packagePath includeCustomModules
                                             locations ;;
             let capabilitiesCoarse :=
               Dict.set capabilitiesCoarse packagePath coarse in
             match memberAccessTracing with
             | Some true =>
                 fine <- getMemberAccessesForPackage packagePath locations ;;
                 Ok (capabilitiesCoarse,
                     Dict.set capabilitiesFine packagePath fine)
             | _ => Ok (capabilitiesCoarse, capabilitiesFine)
             end)
          (Dict.keys dependencyMap) ([], []).

End Packages.

(* ================================================================== *)
(** ** The dependency map (dependencyGraph.js)                        *)
(* ================================================================== *)

(** A package entry of a version 1 lock file: the [optional] mark (a JSON
    scalar when present), the keys of [requires], and the nested
    [dependencies] when present. *)
Inductive LockEntryV1 :=
| mkLockEntryV1 (optional : option jsval) (requires : list string)
                (dependencies : option (list (string * LockEntryV1))).

(** A package entry of a version 2 or 3 lock file: the keys of its
    [dependencies]. *)
Record LockEntryV2 := mkLockEntryV2 { v2_dependencies : list string }.

(** The parsed lock file.  An absent property is [None]. *)
Record Lockfile := mkLockfile {
  lockfileVersion : option jsval;
  lock_dependencies : option (list (string * LockEntryV1));
  lock_packages : option (Dict LockEntryV2)
}.

(** The parsed manifest of the root: the keys of [dependencies]. *)
Record PackageJson := mkPackageJson { pkg_dependencies : list string }.

(** [x === true] and the truthiness of [x] for a JSON scalar that may be
    absent. *)
Definition isTrue (x : option jsval) : bool :=
  match x with Some (JBool true) => true | _ => false end.

Definition truthy (x : option jsval) : bool :=
  match x with
  | None | Some JNull | Some (JBool false) | Some (JNum 0%N)
  | Some (JStr EmptyString) => false
  | _ => true
  end.

(** The names of the properties of [Object.prototype], which every
    object inherits. *)
Definition objectPrototypeNames : list string :=
  ["constructor"; "__defineGetter__"; "__defineSetter__"; "hasOwnProperty";
   "__lookupGetter__"; "__lookupSetter__"; "isPrototypeOf";
   "propertyIsEnumerable"; "toString"; "valueOf"; "__proto__";
   "toLocaleString"].

Definition inherited (k : string) : bool :=
  existsb (String.eqb k) objectPrototypeNames.

(** An element of an array of the dependency map: a package path, or
    what [concat] appends when [packagePathsMap[name]] is no array. *)
Inductive Edge :=
| EdgePath (packagePath : string)
| EdgeUndefined
(** the function [Object.prototype[name]] *)
| EdgeInherited (name : string)
(** [Object.prototype] itself *)
| EdgeObjectPrototype
(** the length of the array that has become the prototype *)
| EdgeLength (n : nat)
(** the value of [Array.prototype[name]]: a function, or [undefined] when
    there is no such property *)
| EdgeArrayPrototype (name : string).

(** [packagePathsMap]: package names to arrays of paths.  A package named
    [__proto__] makes an array the prototype of the object. *)
Definition PathsMap := JsObject.t (list string).

(** The value of [packagePathsMap[name]]: an array of paths ([inl]) or
    another value ([inr]).  A name that is no own property is looked up
    along the prototype chain; when an array has become the prototype, the
    chain goes through that array (its [length] and its elements) and
    through [Array.prototype]. *)
Definition lookupPaths (packagePathsMap : PathsMap) (name : string)
  : list string + Edge :=
  match Dict.get (JsObject.own packagePathsMap) name,
        JsObject.prototype packagePathsMap with
  | Some paths, _ => inl paths
  | None, None =>
      if String.eqb name "__proto__" then inr EdgeObjectPrototype
      else if inherited name then inr (EdgeInherited name)
      else inr EdgeUndefined
  | None, Some paths =>
      if String.eqb name "__proto__" then inl paths
      else if String.eqb name "length" then inr (EdgeLength (List.length paths))
      else
        match JsObject.arrayIndex name with
        | Some i =>
            match nth_error paths (N.to_nat i) with
            | Some packagePath => inr (EdgePath packagePath)
            | None => inr (EdgeArrayPrototype name)
            end
        | None => inr (EdgeArrayPrototype name)
        end
  end.

(** [array.concat(packagePathsMap[name])]: an array is spread, any other
    value is appended as one element. *)
Definition concatPaths (l : list Edge) (v : list string + Edge) : list Edge :=
  match v with
  | inl paths => l ++ map EdgePath paths
  | inr e => l ++ [e]
  end.

(** [if (!Object.keys(packagePathsMap).includes(packageName))
    packagePathsMap[packageName] = [];] *)
Definition ensurePaths (packagePathsMap : PathsMap) (packageName : string)
  : PathsMap :=
  if includes (JsObject.keys packagePathsMap) (Some packageName)
  then packagePathsMap
  else JsObject.assign packagePathsMap packageName [].

(** [packagePathsMap[packageName].push(packagePath)]: the array that the
    read finds, an own property or the prototype, grows; a value that is
    no array has no [push]. *)
Definition pushPath (packagePathsMap : PathsMap)
           (packageName packagePath : string) : result PathsMap :=
  match Dict.get (JsObject.own packagePathsMap) packageName with
  | Some paths =>
      Ok (JsObject.mk (Dict.set (JsObject.own packagePathsMap) packageName
                                (paths ++ [packagePath]))
                      (JsObject.prototype packagePathsMap))
  | None =>
      match lookupPaths packagePathsMap packageName with
      | inl paths =>
          Ok (JsObject.mk (JsObject.own packagePathsMap)
                          (Some (paths ++ [packagePath])))
      | inr _ => Throw "TypeError"
      end
  end.

(** [packagePathsMap.hasOwnProperty(name)]: an own property named
    [hasOwnProperty] (an array) hides the method of [Object.prototype],
    and calling it throws. *)
Definition hasOwnProperty (packagePathsMap : PathsMap) (name : string)
  : result bool :=
  if JsObject.has (JsObject.own packagePathsMap) "hasOwnProperty"
  then Throw "TypeError"
  else Ok (JsObject.has (JsObject.own packagePathsMap) name).

Section DependencyMap.

Variable path_join : string -> string -> string.
(** [fs.existsSync] *)
Variable existsSync : string -> bool.

(** The loop body of [addPackagePathsToMap], for one key of [packages]
    and the entry under it. *)
Fixpoint addPackagePathToMap (nodeModulesPath packageName : string)
         (package : LockEntryV1) (packagePathsMap : PathsMap)
         {struct package} : result PathsMap :=
  let 'mkLockEntryV1 optional _ dependencies := package in
  let packagePath := path_join nodeModulesPath packageName in
  let packagePathsMap := ensurePaths packagePathsMap packageName in
  if isTrue optional && negb (existsSync packagePath) then Ok packagePathsMap
  else
    packagePathsMap <- pushPath packagePathsMap packageName packagePath ;;
    match dependencies with
    | Some dependencies =>
        forEach (fun e m =>
                   addPackagePathToMap
                     (path_join (path_join nodeModulesPath packageName)
                                "node_modules/")
                     (fst e) (snd e) m)
                dependencies packagePathsMap
    | None => Ok packagePathsMap
    end.

(** [buildPackagePathsMapVersion1(lockfile, nodeModulesPath)];
    [Object.keys] of an absent [dependencies] throws. *)
Definition buildPackagePathsMapVersion1 (lockfile : Lockfile)
           (nodeModulesPath : string) : result PathsMap :=
  packages <- deref (lock_dependencies lockfile) ;;
  forEach (fun e m => addPackagePathToMap nodeModulesPath (fst e) (snd e) m)
          packages JsObject.empty.

(** The loop body of [addDependenciesToMap]; the read of
    [packagePathsMap[dependencyName]] is under no test. *)
Fixpoint addDependencyToMap (packagePathsMap : PathsMap)
         (nodeModulesPath packageName : string) (package : LockEntryV1)
         (dependencyMap : Dict (list Edge))
         {struct package} : Dict (list Edge) :=
  let 'mkLockEntryV1 optional requires dependencies := package in
  let packagePath := path_join nodeModulesPath packageName in
  if truthy optional && negb (existsSync packagePath) then dependencyMap
  else
    let edges :=
      fold_left (fun l dependencyName =>
                   concatPaths l (lookupPaths packagePathsMap dependencyName))
                requires [] in
    let dependencyMap := Dict.set dependencyMap packagePath edges in
    match dependencies with
    | Some dependencies =>
        fold_left (fun m e =>
                     addDependencyToMap packagePathsMap
                       (path_join (path_join nodeModulesPath packageName)
                                  "node_modules/")
                       (fst e) (snd e) m)
                  dependencies dependencyMap
    | None => dependencyMap
    end.

(** [dependencyMapFromLockfileVersion1(lockfile, packageJson, rootPath)] *)
Definition dependencyMapFromLockfileVersion1 (lockfile : Lockfile)
           (packageJson : PackageJson) (rootPath : string)
  : result (Dict (list Edge)) :=
  let nodeModulesPath := path_join rootPath "node_modules/" in
  packagePathsMap <- buildPackagePathsMapVersion1 lockfile nodeModulesPath ;;
  packages <- deref (lock_dependencies lockfile) ;;
  let rootEdges :=
    fold_left (fun l dependencyName =>
                 concatPaths l (lookupPaths packagePathsMap dependencyName))
              (pkg_dependencies packageJson) [] in
  let dependencyMap := Dict.set [] rootPath rootEdges in
  Ok (fold_left (fun m e =>
                   addDependencyToMap packagePathsMap nodeModulesPath
                                      (fst e) (snd e) m)
                packages dependencyMap).

(** The name of a package of a version 2 or 3 lock file: what follows
    the last [node_modules/] of its path. *)
Definition lastPathPart (packagePath : string) : string :=
  last (JsString.split "node_modules/" packagePath) EmptyString.

(** [buildPackagePathsMapVersion2or3(lockfile, rootPath)] *)
Definition buildPackagePathsMapVersion2or3 (lockfile : Lockfile)
           (rootPath : string) : result PathsMap :=
  packages <- deref (lock_packages lockfile) ;;
  forEach
    (fun relativePackagePath packagePathsMap =>
       let packagePath := path_join rootPath relativePackagePath in
       let packageName := lastPathPart packagePath in
       let packagePathsMap := ensurePaths packagePathsMap packageName in
       if negb (existsSync packagePath) then Ok packagePathsMap
       else pushPath packagePathsMap packageName packagePath)
    (Dict.keys packages) JsObject.empty.

(** [dependencyMapFromLockfileVersion2or3(lockfile, rootPath)] *)
Definition dependencyMapFromLockfileVersion2or3 (lockfile : Lockfile)
           (rootPath : string) : result (Dict (list Edge)) :=
  packagePathsMap <- buildPackagePathsMapVersion2or3 lockfile rootPath ;;
  packages <- deref (lock_packages lockfile) ;;
  forEach
    (fun (entry : string * LockEntryV2) dependencyMap =>
       let (relativePackagePath, package) := entry in
       let packagePath := path_join rootPath relativePackagePath in
       if negb (existsSync packagePath) then Ok dependencyMap
       else
         edges <-
           forEach
             (fun dependencyName l =>
                isOwn <- hasOwnProperty packagePathsMap dependencyName ;;
                Ok (if isOwn
                    then concatPaths l (lookupPaths packagePathsMap
                                                    dependencyName)
                    else l))
             (v2_dependencies package) [] ;;
         Ok (Dict.set dependencyMap packagePath edges))
    packages [].

(** [getDependencyMap(rootPath)], given the parsed manifest and the
    parsed lock file of the root. *)
Definition getDependencyMap (packageJson : PackageJson) (lockfile : Lockfile)
           (rootPath : string) : result (Dict (list Edge)) :=
  match lockfileVersion lockfile with
  | Some (JNum 1%N) =>
      dependencyMapFromLockfileVersion1 lockfile packageJson rootPath
  | Some (JNum 2%N) | Some (JNum 3%N) =>
      dependencyMapFromLockfileVersion2or3 lockfile rootPath
  | _ => Ok []
  end.

End DependencyMap.

(* ================================================================== *)
(** ** Coloured log lines (colorLog.js)                               *)
(* ================================================================== *)

Module ColorLog.

Local Open Scope string_scope.

(** [ANSI_START] and [ANSI_RESET] *)
Definition ANSI_START : string := String (ascii_of_nat 27) EmptyString.

Definition ANSI_RESET : string := ANSI_START ++ "[m".

Definition fgColorMap : Dict string :=
  [("black", "30"); ("red", "31"); ("green", "32"); ("yellow", "33");
   ("blue", "34"); ("magenta", "35"); ("cyan", "36"); ("white", "37");
   ("brightBlack", "90"); ("brightRed", "91"); ("brightGreen", "92");
   ("brightYellow", "93"); ("brightBlue", "94"); ("brightMagenta", "95");
   ("brightCyan", "96"); ("brightWhite", "97")].

Definition bgColorMap : Dict string :=
  [("black", "40"); ("red", "41"); ("green", "42"); ("yellow", "43");
   ("blue", "44"); ("magenta", "45"); ("cyan", "46"); ("white", "47");
   ("brightBlack", "100"); ("brightRed", "101"); ("brightGreen", "102");
   ("brightYellow", "103"); ("brightBlue", "104"); ("brightMagenta", "105");
   ("brightCyan", "106"); ("brightWhite", "107")].

(** [ansi_color(fgColor, bgColor)]; a name that is no key of a map prints
    as [undefined]. *)
Definition ansi_color (fgColor bgColor : string) : string :=
  ANSI_START ++ "[" ++ template_opt (Dict.get fgColorMap fgColor) ++ ";"
             ++ template_opt (Dict.get bgColorMap bgColor) ++ "m".

(** [log(message, fgColor)] with the default background: the line handed
    to [console.log]. *)
Definition log (message fgColor : string) : string :=
  ansi_color fgColor "black" ++ message ++ ANSI_RESET.

End ColorLog.

(* ================================================================== *)
(** ** Comparing policies (main.js)                                   *)
(* ================================================================== *)

(** The policies compared are parsed JSON: their properties are own
    properties, [__proto__] among them when the file has it.  For a name
    [k] of [objectPrototypeNames], [k in o] is true and [o[k]] is the
    inherited value (a function, or the prototype itself) unless [o] has a
    key [k] of its own; the inherited value has neither [modules] nor
    [globals]. *)

(** [array.includes(x)] on an array of primitives. *)
Definition arrayIncludes (l : list jsval) (x : jsval) : bool :=
  existsb (jsval_eqb x) l.

(** [const { modules: allowedModules, globals: allowedGlobals } =
    oldPolicy[packagePath] || {modules: [], globals: []}]; [None] is
    [undefined].  The entries of the old policy are as [savePolicy] writes
    them, with both arrays. *)
Definition allowedOf (oldPolicy : Dict Capabilities) (packagePath : string)
  : option (list jsval) * option (list jsval) :=
  match Dict.get oldPolicy packagePath with
  | Some entry => (Some (modules entry), Some (globals entry))
  | None =>
      if inherited packagePath then (None, None) else (Some [], Some [])
  end.

(** [if (!(packagePath in newUses)) newUses[packagePath] = {globals: [],
    modules: []}] *)
Definition ensureEntry (packagePath : string) (newUses : Dict Capabilities)
  : Dict Capabilities :=
  match Dict.get newUses packagePath with
  | Some _ => newUses
  | None =>
      if inherited packagePath then newUses
      else Dict.set newUses packagePath (mkCapabilities [] [])
  end.

(** [newUses[packagePath]['globals'].push(newGlobal)] after the test
    above; on an inherited value the array is [undefined]. *)
Definition pushGlobal (packagePath : string) (newGlobal : jsval)
           (newUses : Dict Capabilities) : result (Dict Capabilities) :=
  let newUses := ensureEntry packagePath newUses in
  entry <- deref (Dict.get newUses packagePath) ;;
  Ok (Dict.set newUses packagePath
        (mkCapabilities (modules entry) (globals entry ++ [newGlobal]))).

(** [newUses[packagePath]['modules'].push(newModule)] likewise. *)
Definition pushModule (packagePath : string) (newModule : jsval)
           (newUses : Dict Capabilities) : result (Dict Capabilities) :=
  let newUses := ensureEntry packagePath newUses in
  entry <- deref (Dict.get newUses packagePath) ;;
  Ok (Dict.set newUses packagePath
        (mkCapabilities (modules entry ++ [newModule]) (globals entry))).

(** One of the two inner loops of [policyDiff]. *)
Definition diffArray (allowed : option (list jsval))
           (push : jsval -> Dict Capabilities -> result (Dict Capabilities))
           (array : list jsval) (newUses : Dict Capabilities)
  : result (Dict Capabilities) :=
  forEach (fun x newUses =>
             allowed <- deref allowed ;;
             if arrayIncludes allowed x then Ok newUses else push x newUses)
          array newUses.

(** [policyDiff(oldPolicy, newPolicy)]; [oldPolicy] may be [undefined].
    The loop runs over the keys of [newPolicy] and reads the entry under
    each, that is over the entries in their order. *)
Definition policyDiff (oldPolicy : option (Dict Capabilities))
           (newPolicy : Dict Capabilities) : result (Dict Capabilities) :=
  let oldPolicy := match oldPolicy with Some o => o | None => [] end in
  forEach (fun (entry : string * Capabilities) newUses =>
             let (packagePath, new) := entry in
             let (allowedModules, allowedGlobals) :=
               allowedOf oldPolicy packagePath in
             newUses <- diffArray allowedGlobals (pushGlobal packagePath)
                                  (globals new) newUses ;;
             diffArray allowedModules (pushModule packagePath)
                       (modules new) newUses)
          newPolicy [].

(** The lines that [compareImportPolicies(oldPolicy, newPolicy)] logs. *)
Definition compareImportPolicies (oldPolicy : option (Dict Capabilities))
           (newPolicy : Dict Capabilities) : result (list string) :=
  newUses <- policyDiff oldPolicy newPolicy ;;
  if (0 <? List.length (Dict.keys newUses))%nat then
    Ok (flat_map
          (fun (use : string * Capabilities) =>
             let (pkg, entry) := use in
             map (fun module =>
                    ColorLog.log
                      ("Package " ++ pkg
                       ++ " now imports previously not imported module "
                       ++ toString module ++ ".") "brightRed")
                 (modules entry)
             ++ map (fun global =>
                       ColorLog.log
                         ("Package " ++ pkg
                          ++ " now uses previously unused global "
                          ++ toString global ++ ".") "brightRed")
                    (globals entry))
          newUses)
  else Ok [ColorLog.log "No new imports detected!" "brightGreen"].

(** The lines that [compareMemberAccessPolicies(oldPolicy, newPolicy)]
    logs. *)
Definition compareMemberAccessPolicies (oldPolicy : option (Dict Capabilities))
           (newPolicy : Dict Capabilities) : result (list string) :=
  newUses <- policyDiff oldPolicy newPolicy ;;
  if (0 <? List.length (Dict.keys newUses))%nat then
    Ok (flat_map
          (fun (use : string * Capabilities) =>
             let (pkg, entry) := use in
             map (fun moduleAccess =>
                    ColorLog.log
                      ("Package " ++ pkg
                       ++ " now accesses previously unaccessed module member "
                       ++ toString moduleAccess ++ ".") "brightRed")
                 (modules entry)
             ++ map (fun globalAccess =>
                       ColorLog.log
                         ("Package " ++ pkg
                          ++ " now accesses previously unaccessed global member "
                          ++ toString globalAccess ++ ".") "brightRed")
                    (globals entry))
          newUses)
  else Ok [ColorLog.log "No new member accesses detected!" "brightGreen"].

(* ================================================================== *)
(** ** Notions used to state the properties                           *)
(* ================================================================== *)

(** [Visited root n]: the traversal of [root] calls [c] on [n] under the
    type of [n]. *)
Inductive Visited (root : Ast.node) : Ast.node -> Prop :=
| Visited_root : Visited root root
| Visited_child n r child :
    Visited root n ->
    In (r, child) (Ast.children n) ->
    Ast.visited_as r child = true ->
    Visited root child.

(** A call or [new] of the identifier [require] whose first argument is a
    literal with value [v]. *)
Definition isRequireOfLiteral (n : Ast.node) (v : jsval) : Prop :=
  exists kind i j k arguments,
    n = Ast.Call kind i (Ast.Identifier j "require")
                 (Ast.Literal k v :: arguments).

(** What the parser guarantees for the source of an import or export
    declaration: it is a string literal. *)
Definition stringSource (n : Ast.node) : Prop :=
  match n with
  | Ast.ImportDeclaration _ _ source
  | Ast.ExportNamedDeclaration _ _ _ (Some source) =>
      exists i s, source = Ast.Literal i (JStr s)
  | _ => True
  end.

Definition sourcesAreStrings (ast : Ast.node) : Prop :=
  forall n, Visited ast n -> stringSource n.

(** The same as a test, run by a traversal that fails at the first
    declaration whose source is something else. *)
Definition stringSourceb (n : Ast.node) : bool :=
  match n with
  | Ast.ImportDeclaration _ _ source
  | Ast.ExportNamedDeclaration _ _ _ (Some source) =>
      isType NodeTypes.Literal source && typeofString (Ast.value source)
  | _ => true
  end.

Definition checkSources (ast : Ast.node) : bool :=
  match traverse (fun n _ (s : unit) =>
                    if stringSourceb n then Ok s else Throw "source")
                 (fun _ s => Ok s) ast [] tt with
  | Ok _ => true
  | Throw _ => false
  end.

(** The module annotation of a variable is [null] or a string that
    [extractImports] has found. *)
Definition moduleKnown (imports : JsSet.t) (m : jsval) : Prop :=
  m = JNull \/ exists s, m = JStr s /\ In (JStr s) imports.

Definition envKnown (imports : JsSet.t) (env : Env) : Prop :=
  forall e v, In e env -> In v (env_vars e) -> moduleKnown imports (var_module v).

(** A recorded member access is a string [m.p] for a module [m] that
    [extractImports] has found, or one of the [undefined.i] of the
    array-pattern branch. *)
Definition accessKnown (imports : JsSet.t) (x : jsval) : Prop :=
  exists s, x = JStr s /\
    ((exists m p, In (JStr m) imports /\ s = (m ++ "." ++ p)%string) \/
     (exists p, s = ("undefined." ++ p)%string)).

Definition accessesKnown (imports : JsSet.t) (memberAccesses : JsSet.t) : Prop :=
  forall x, In x memberAccesses -> accessKnown imports x.

(** [sep] occurs in [s]. *)
Fixpoint occurs (sep s : string) : bool :=
  match s with
  | EmptyString => false
  | String _ s' => String.prefix sep s || occurs sep s'
  end.

(** The entry of a package in a policy, the empty entry when there is
    none. *)
Definition entryOf (policy : Dict Capabilities) (packagePath : string)
  : Capabilities :=
  match Dict.get policy packagePath with
  | Some entry => entry
  | None => mkCapabilities [] []
  end.

(** What the entry [new] of a package has beyond the old policy: the
    modules and the globals, in their order, that the entry of the package
    in the old policy does not include; everything when the old policy has
    no entry for the package. *)
Definition newUsesOf (oldPolicy : Dict Capabilities) (packagePath : string)
           (new : Capabilities) : Capabilities :=
  let old := entryOf oldPolicy packagePath in
  mkCapabilities
    (List.filter (fun x => negb (arrayIncludes (modules old) x)) (modules new))
    (List.filter (fun x => negb (arrayIncludes (globals old) x)) (globals new)).

(** Capabilities without a module and without a global. *)
Definition noCapabilities (c : Capabilities) : bool :=
  match modules c, globals c with
  | [], [] => true
  | _, _ => false
  end.

(** The object [newUses] after the given modules and globals were pushed
    for a package, one by one. *)
Definition addUses (packagePath : string) (ms gs : list jsval)
           (newUses : Dict Capabilities) : Dict Capabilities :=
  if noCapabilities (mkCapabilities ms gs) then newUses
  else
    let entry := entryOf newUses packagePath in
    Dict.set newUses packagePath
             (mkCapabilities (modules entry ++ ms) (globals entry ++ gs)).

(** [p] is the path of a package of a version 2 or 3 lock file that is
    present on disk. *)
Definition installedPath (path_join : string -> string -> string)
           (existsSync : string -> bool) (rootPath : string)
           (packages : Dict LockEntryV2) (p : string) : Prop :=
  exists relativePackagePath,
    In relativePackagePath (Dict.keys packages) /\
    p = path_join rootPath relativePackagePath /\
    existsSync p = true.

(** [v] is the value of the literal that is the source of the import or
    export [n], or the first argument of the call or [new] of [require]
    [n]. *)
Definition importedAt (n : Ast.node) (v : jsval) : Prop :=
  isRequireOfLiteral n v \/
  exists k,
    match n with
    | Ast.ImportDeclaration _ _ source
    | Ast.ImportExpression _ source
    | Ast.ExportAllDeclaration _ _ source
    | Ast.ExportNamedDeclaration _ _ _ (Some source) =>
        source = Ast.Literal k v
    | _ => False
    end.

(** Every recorded global is one of the global names and every recorded
    global member is such a name, a dot and a member. *)
Definition globalsKnown (globalNames : list string) (st : GlobalState) : Prop :=
  let '(_, globals, globalMembers) := st in
  (forall g, In g globals -> In g globalNames) /\
  (forall x, In x globalMembers ->
             exists name member,
               x = JStr (name ++ "." ++ member) /\ In name globalNames).

(** The calls that the function [c] of a traversal from [root] receives
    for a node under the node's own type, in order: the node and the
    ancestors handed over with it, the node itself last.  These are the
    calls at which the analyses look at a node as what it is; a call under
    another type ([Pattern], [VariablePattern], ...) is none at which
    [trackGlobals], which tests the type handed over, records anything. *)
Definition calls (root : Ast.node) : list (Ast.node * list Ast.node) :=
  match traverse (fun node ancestors log => Ok (log ++ [(node, ancestors)]))
                 (fun _ log => Ok log) root [] [] with
  | Ok log => log
  | Throw _ => []
  end.



(* ================================================================== *)
(** ** A small package used in examples                               *)
(* ================================================================== *)

(** The tree of [const fs = require('fs'); fs.readFile;] *)
Definition example_ast : Ast.node :=
  Ast.Program 0
    [Ast.VariableDeclaration 1 "const"
       [Ast.VariableDeclarator 2 (Ast.Identifier 3 "fs")
          (Some (Ast.Call Ast.CallExpression 4 (Ast.Identifier 5 "require")
                          [Ast.Literal 6 (JStr "fs")]))];
     Ast.Other 7 "ExpressionStatement"
       [(Ast.Expression,
         Ast.MemberExpression 8 (Ast.Identifier 9 "fs")
                              (Ast.Identifier 10 "readFile"))]].

(** The tree of [const x = require(5);] *)
Definition example_require5 : Ast.node :=
  Ast.Call Ast.CallExpression 4 (Ast.Identifier 5 "require")
           [Ast.Literal 6 (JNum 5)].

Definition example_require5_declarator : Ast.node :=
  Ast.VariableDeclarator 2 (Ast.Identifier 3 "x") (Some example_require5).

Definition example_require5_ast : Ast.node :=
  Ast.Program 0 [Ast.VariableDeclaration 1 "const" [example_require5_declarator]].

(** The tree of [(process) => {};] and the ancestors of the parameter when
    the walk is at it. *)
Definition example_parameter : Ast.node := Ast.Identifier 3 "process".

Definition example_arrow : Ast.node :=
  Ast.Function Ast.ArrowFunctionExpression 2 None [example_parameter]
               (Ast.BlockStatement 4 []).

Definition example_arrow_statement : Ast.node :=
  Ast.Other 1 "ExpressionStatement" [(Ast.Expression, example_arrow)].

Definition example_arrow_ast : Ast.node := Ast.Program 0 [example_arrow_statement].

Definition example_parameter_ancestors : list Ast.node :=
  [example_arrow_ast; example_arrow_statement; example_arrow; example_parameter].

(** A lock file of version 4 for a package at [/app] with one dependency,
    and the manifest of the package. *)
Definition example_lockfile_v4 : Lockfile :=
  mkLockfile (Some (JNum 4)) None
             (Some [("", mkLockEntryV2 ["dep"]);
                    ("node_modules/dep", mkLockEntryV2 [])]).

Definition example_packageJson : PackageJson := mkPackageJson ["dep"].

(** An old policy that allows package [a] the module [fs], and a new policy
    in which [a] also uses [net] and [process]. *)
Definition example_oldPolicy : Dict Capabilities :=
  [("a", mkCapabilities [JStr "fs"] [])].

Definition example_newPolicy : Dict Capabilities :=
  [("a", mkCapabilities [JStr "fs"; JStr "net"] [JStr "process"]);
   ("b", mkCapabilities [] [])].

(** The same lock file marked as version 3, and its dependency map when
    both packages are on disk. *)
Definition example_lockfile_v3 : Lockfile :=
  mkLockfile (Some (JNum 3)) None
             (Some [("", mkLockEntryV2 ["dep"]);
                    ("node_modules/dep", mkLockEntryV2 [])]).

Definition example_dependencyMap_v3 : Dict (list Edge) :=
  [("/app", [EdgePath "/app/node_modules/dep"]);
   ("/app/node_modules/dep", [])].

(** Two installed packages with their coarse capabilities. *)
Definition example_package_a : string * Capabilities :=
  ("/app/node_modules/a", mkCapabilities [JStr "fs"] []).

Definition example_package_b : string * Capabilities :=
  ("/app/node_modules/b", mkCapabilities [JStr "path"] []).

(** A parser that knows one source text, and a package directory with one
    file holding it. *)
Definition example_buildTree (content : string) (locations : bool)
  : option Ast.node :=
  if String.eqb content "const fs = require('fs'); fs.readFile;"
  then Some example_ast else None.

Definition example_readFileSync (filePath : string) : string :=
  "const fs = require('fs'); fs.readFile;".

Definition example_readdirSync (dirPath : string) : list Dirent :=
  [FileEntry "index.js"; FileEntry "README.md"].

(** Two installed copies of a package named [__proto__], one hoisted and
    one nested, with their coarse capabilities. *)
Definition example_proto_capabilities : Dict Capabilities :=
  [("/app/node_modules/__proto__",
    mkCapabilities [JStr "fs"] [JStr "process"]);
   ("/app/node_modules/lib/node_modules/__proto__",
    mkCapabilities [JStr "child_process"] [JStr "Buffer"])].

(** A parser that knows the source text [const x = require(5);], and a
    package directory with one file holding it. *)
Definition example_require5_buildTree (content : string) (locations : bool)
  : option Ast.node :=
  if String.eqb content "const x = require(5);"
  then Some example_require5_ast else None.

Definition example_require5_readFileSync (filePath : string) : string :=
  "const x = require(5);".

(* ================================================================== *)
(** * Properties                                                      *)
(* ================================================================== *)

(** ** Strings and [MemberAccess] *)

Example fromString_fs_readFile :
  MemberAccess.fromString "fs.readFile" = MemberAccess.new "fs" (Some "readFile").
Proof. reflexivity. Qed.

Example fromString_two_dots :
  MemberAccess.fromString "a.b.c" = MemberAccess.new "a.b" (Some "c").
Proof. reflexivity. Qed.

Example fromString_no_dot :
  MemberAccess.toString (MemberAccess.fromString "fs") = ".fs".
Proof. reflexivity. Qed.

Section SplitDot.

Import JsString.

Local Abbreviation dot := ("."%char).

Lemma split_aux_dot_cons c s :
  split_aux "." 0 (String c s) =
  if Ascii.eqb c dot
  then (EmptyString, let (h, t) := split_aux "." 0 s in h :: t)
  else let (h, t) := split_aux "." 0 s in (String c h, t).
Proof.
  cbn [split_aux String.prefix String.length Nat.sub].
  destruct (ascii_dec dot c) as [<-|Hne].
  - rewrite Ascii.eqb_refl. destruct s; reflexivity.
  - destruct (Ascii.eqb_spec c dot) as [->|_]; [congruence|].
    destruct (ascii_dec dot c); [congruence|reflexivity].
Qed.

(** Joining the segments with the separator gives the string back. *)
Lemma join_split_dot s : join "." (split "." s) = s.
Proof.
  unfold split, join.
  induction s as [|c s IH]; [reflexivity|].
  rewrite split_aux_dot_cons.
  destruct (split_aux "." 0 s) as [h t].
  destruct (Ascii.eqb_spec c dot) as [->|_].
  - cbn [String.concat]. cbn in IH |- *. now rewrite IH.
  - destruct t; cbn in IH |- *; congruence.
Qed.

(** No segment contains the separator. *)
Lemma split_dot_segments s x :
  In x (split "." s) -> contains dot x = false.
Proof.
  unfold split. revert x.
  induction s as [|c s IH]; intros x.
  - cbn. intros [<-|[]]. reflexivity.
  - rewrite split_aux_dot_cons.
    destruct (split_aux "." 0 s) as [h t].
    destruct (Ascii.eqb_spec c dot) as [->|Hne].
    + intros [<-|Hin]; [reflexivity|]. now apply IH.
    + intros [<-|Hin].
      * cbn [contains]. rewrite (IH h (or_introl eq_refl)).
        rewrite Bool.orb_false_r.
        destruct (Ascii.eqb_spec dot c); congruence.
      * apply IH. now right.
Qed.

(** There are at least two segments exactly when a dot occurs. *)
Lemma split_dot_length s :
  contains dot s = true <-> (2 <= List.length (split "." s))%nat.
Proof.
  unfold split.
  induction s as [|c s IH].
  - cbn. split; [discriminate|lia].
  - rewrite split_aux_dot_cons. cbn [contains].
    destruct (split_aux "." 0 s) as [h t].
    destruct (Ascii.eqb_spec c dot) as [->|Hne].
    + rewrite Ascii.eqb_refl. cbn. split; [lia|reflexivity].
    + destruct (Ascii.eqb_spec dot c) as [E|_]; [congruence|].
      cbn [orb]. cbn [List.length] in IH |- *. exact IH.
Qed.

Lemma split_dot_nonempty s : split "." s <> [].
Proof.
  unfold split. cbn. destruct (split_aux "." 0 s). discriminate.
Qed.

End SplitDot.

Section ListEnds.

Context {A : Type}.

Lemma skipn_pred_length (l : list A) (d : A) :
  l <> [] -> skipn (List.length l - 1) l = [last l d].
Proof.
  induction l as [|a l IH]; [congruence|intros _].
  destruct l as [|b l]; [reflexivity|].
  replace (List.length (a :: b :: l) - 1)%nat
    with (S (List.length (b :: l) - 1)) by (cbn [List.length]; lia).
  change (last (a :: b :: l) d) with (last (b :: l) d).
  cbn [skipn]. apply IH. discriminate.
Qed.

Lemma firstn_pred_length (l : list A) :
  firstn (List.length l - 1) l = removelast l.
Proof.
  induction l as [|a l IH]; [reflexivity|].
  destruct l as [|b l]; [reflexivity|].
  replace (List.length (a :: b :: l) - 1)%nat
    with (S (List.length (b :: l) - 1)) by (cbn [List.length]; lia).
  change (removelast (a :: b :: l)) with (a :: removelast (b :: l)).
  cbn [firstn]. now rewrite IH.
Qed.

End ListEnds.

Lemma string_app_assoc (a b c : string) :
  ((a ++ b) ++ c = a ++ b ++ c)%string.
Proof. induction a; cbn; congruence. Qed.

Lemma string_app_nil_r (a : string) : (a ++ "" = a)%string.
Proof. induction a; cbn; congruence. Qed.

Lemma concat_removelast_last sep (l : list string) :
  (2 <= List.length l)%nat ->
  String.concat sep l =
  (String.concat sep (removelast l) ++ sep ++ last l EmptyString)%string.
Proof.
  induction l as [|a l IH]; cbn [List.length]; [lia|].
  destruct l as [|b l]; cbn [List.length]; [lia|intros _].
  destruct l as [|c l].
  - reflexivity.
  - change (removelast (a :: b :: c :: l)) with (a :: removelast (b :: c :: l)).
    change (last (a :: b :: c :: l) EmptyString) with (last (b :: c :: l) EmptyString).
    cbn [String.concat] in IH |- *.
    rewrite IH by (cbn; lia).
    destruct (removelast (b :: c :: l)) eqn:E.
    + discriminate E.
    + now rewrite !string_app_assoc.
Qed.

(** The parts of a member-access string with a dot: the member is the
    dot-free last segment, the module is the text before the dot in front
    of it, and printing the two gives the string back. *)
Lemma fromString_parts (s : string) :
  JsString.contains "." s = true ->
  MemberAccess.toString (MemberAccess.fromString s) = s /\
  exists member,
    MemberAccess.memberName (MemberAccess.fromString s) = Some member /\
    JsString.contains "." member = false /\
    s = (MemberAccess.module (MemberAccess.fromString s) ++ "." ++ member)%string.
Proof.
  intros Hdot.
  apply split_dot_length in Hdot.
  pose proof (split_dot_nonempty s) as Hne.
  pose proof (join_split_dot s) as Hjoin.
  pose proof (split_dot_segments s) as Hseg.
  unfold MemberAccess.fromString, MemberAccess.toString, JsString.join in *.
  cbn [MemberAccess.module MemberAccess.memberName].
  set (l := JsString.split "." s) in *.
  rewrite (skipn_pred_length l EmptyString Hne), firstn_pred_length.
  cbn [List.length Nat.sub nth_error template_opt].
  rewrite (concat_removelast_last "." l Hdot) in Hjoin.
  split; [exact Hjoin|].
  exists (last l EmptyString). repeat split.
  - apply Hseg. destruct l as [|a l']; [congruence|].
    apply (@exists_last _ (a :: l')) in Hne as (l0 & x & E).
    rewrite E, last_last. apply in_or_app. right. now left.
  - now symmetry.
Qed.

(** C9. For every string [s] that contains a dot,
    [MemberAccess.fromString(s).toString()] is [s] again, and the split is at
    the right-most dot: the member is the dot-free text after the last dot
    and the module is everything before that dot. *)
Theorem fromString_toString_roundtrip (s : string) :
  JsString.contains "." s = true ->
  MemberAccess.toString (MemberAccess.fromString s) = s /\
  exists member,
    MemberAccess.memberName (MemberAccess.fromString s) = Some member /\
    JsString.contains "." member = false /\
    s = (MemberAccess.module (MemberAccess.fromString s) ++ "." ++ member)%string.
Proof.
  intros Hdot.
  destruct (fromString_parts s Hdot) as (Hprint & member & Hname & Hfree & Hs).
  split; [exact Hprint|].
  exists member. split; [exact Hname|]. split; [exact Hfree|exact Hs].
Qed.

(** A string with a dot on which the round trip is checked. *)
Lemma fromString_toString_roundtrip_witness :
  JsString.contains "." "fs.promises.readFile" = true /\
  MemberAccess.toString (MemberAccess.fromString "fs.promises.readFile")
  = "fs.promises.readFile".
Proof.
  split; [reflexivity|].
  apply (fromString_toString_roundtrip "fs.promises.readFile"). reflexivity.
Defined.


(** ** Source enumeration *)

Section DirentInduction.

Variable P : Dirent -> Prop.
Hypothesis HFile : forall name, P (FileEntry name).
Hypothesis HOther : forall name, P (OtherEntry name).
Hypothesis HDir :
  forall name entries, Forall P entries -> P (DirectoryEntry name entries).

(** Induction over a directory tree, with the hypothesis available for
    every entry of a directory. *)
Lemma Dirent_tree_ind : forall e, P e.
Proof.
  fix IH 1. intros [name|name entries|name].
  - apply HFile.
  - apply HDir. induction entries as [|e entries IHl].
    + constructor.
    + constructor; [apply IH | exact IHl].
  - apply HOther.
Qed.

End DirentInduction.

Section SourceEnumerationFacts.

Variable path_join : string -> string -> string.

Lemma visitDirEntry_sound e :
  forall dirPath p,
    In p (visitDirEntry path_join dirPath e) ->
    JsFileUnder path_join dirPath [e] p.
Proof.
  induction e as [name|name|name entries IH] using Dirent_tree_ind;
    intros dirPath p Hin; cbn [visitDirEntry dirent_name] in Hin.
  - destruct (isJsFileName name) eqn:Hjs; [|contradiction].
    destruct Hin as [<-|[]].
    apply JsFileHere; [now left | exact Hjs].
  - contradiction.
  - destruct (String.eqb_spec (split_pop name) "node_modules") as [|Hnm];
      cbn [negb] in Hin; [contradiction|].
    apply in_flat_map in Hin as (e & He & Hp).
    rewrite Forall_forall in IH.
    specialize (IH e He _ _ Hp).
    apply JsFileBelow with (name := name) (sub := entries);
      [now left | exact Hnm |].
    clear -IH He.
    inversion IH as [? ? n Hi Hjs | ? ? n sub ? Hi Hnm Hsub]; subst.
    + destruct Hi as [->|[]]. now apply JsFileHere.
    + destruct Hi as [->|[]]. now apply JsFileBelow with (name := n) (sub := sub).
Qed.

Lemma visitDirEntry_file dirPath name :
  isJsFileName name = true ->
  In (path_join dirPath name) (visitDirEntry path_join dirPath (FileEntry name)).
Proof. intros H. cbn. rewrite H. now left. Qed.

Lemma recursiveGetJSFilePaths_complete dirPath entries p :
  JsFileUnder path_join dirPath entries p ->
  In p (recursiveGetJSFilePaths path_join dirPath entries).
Proof.
  induction 1 as [dirPath entries name Hin Hjs
                 |dirPath entries name sub p Hin Hnm _ IH];
    unfold recursiveGetJSFilePaths in *; apply in_flat_map.
  - exists (FileEntry name). split; [exact Hin|].
    now apply visitDirEntry_file.
  - exists (DirectoryEntry name sub). split; [exact Hin|].
    cbn [visitDirEntry dirent_name].
    destruct (String.eqb_spec (split_pop name) "node_modules");
      [contradiction | exact IH].
Qed.

Lemma JsFileUnder_weaken dirPath e entries p :
  In e entries ->
  JsFileUnder path_join dirPath [e] p ->
  JsFileUnder path_join dirPath entries p.
Proof.
  intros He H.
  inversion H as [? ? n Hi Hjs | ? ? n sub ? Hi Hnm Hsub]; subst;
    destruct Hi as [->|[]].
  - now apply JsFileHere.
  - now apply JsFileBelow with (name := n) (sub := sub).
Qed.

(** C5 (amended). [recursiveGetJSFilePaths] returns exactly the regular
    files with a [.js], [.mjs] or [.cjs] name that lie under the directory
    without a directory named [node_modules] on the way; every other
    directory is entered, hidden ones included. *)
Theorem recursiveGetJSFilePaths_exact dirPath entries p :
  In p (recursiveGetJSFilePaths path_join dirPath entries) <->
  JsFileUnder path_join dirPath entries p.
Proof.
  split; [|apply recursiveGetJSFilePaths_complete].
  unfold recursiveGetJSFilePaths. intros Hin.
  apply in_flat_map in Hin as (e & He & Hp).
  apply JsFileUnder_weaken with (e := e); [exact He|].
  now apply visitDirEntry_sound.
Qed.

(** No directory named [node_modules] is entered. *)
Lemma node_modules_not_entered dirPath entries :
  visitDirEntry path_join dirPath (DirectoryEntry "node_modules" entries) = [].
Proof. reflexivity. Qed.

End SourceEnumerationFacts.

(** C5 (as stated, refuted). A directory whose name begins with a dot is
    not skipped: the [.js] file inside [.cache] is returned. *)
Lemma hidden_directory_is_entered :
  JsString.startsWith ".cache" "." = true /\
  recursiveGetJSFilePaths simple_join "/pkg"
    [DirectoryEntry ".cache" [FileEntry "tool.js"]; FileEntry "index.js";
     DirectoryEntry "node_modules" [FileEntry "dep.js"]]
  = ["/pkg/.cache/tool.js"; "/pkg/index.js"].
Proof. split; reflexivity. Qed.

(** ** The order of [sort] *)

Section SortOrder.

Import OrderedTypeEx.

Lemma string_leb_iff (a b : string) :
  String.leb a b = true <-> a = b \/ String_as_OT.lt a b.
Proof.
  unfold String.leb.
  destruct (String.compare a b) eqn:E.
  - apply String_as_OT.cmp_eq in E. tauto.
  - apply String_as_OT.cmp_lt in E. tauto.
  - split; [discriminate|]. intros [->|Hlt].
    + assert (String_as_OT.cmp b b = Eq) as E' by now apply String_as_OT.cmp_eq.
      unfold String_as_OT.cmp in E'. congruence.
    + apply String_as_OT.cmp_lt in Hlt.
      unfold String_as_OT.cmp in Hlt. congruence.
Qed.

Lemma string_leb_trans (a b c : string) :
  String.leb a b = true -> String.leb b c = true -> String.leb a c = true.
Proof.
  rewrite !string_leb_iff.
  intros [->|H1] [->|H2]; auto.
  right. eapply String_as_OT.lt_trans; eassumption.
Qed.

End SortOrder.

Lemma sort_rel_trans x y z : sort_rel x y -> sort_rel y z -> sort_rel x z.
Proof. unfold sort_rel, sort_le. apply string_leb_trans. Qed.

Lemma sort_rel_total x y : sort_rel x y \/ sort_rel y x.
Proof. unfold sort_rel, sort_le. apply String.leb_total. Qed.

(** On strings the order of [sort] is antisymmetric; a number and the string
    of its digits, however, compare equal. *)
Lemma sort_rel_antisym x y :
  is_string x = true -> is_string y = true ->
  sort_rel x y -> sort_rel y x -> x = y.
Proof.
  unfold sort_rel, sort_le.
  destruct x, y; try discriminate. cbn. intros _ _ H1 H2.
  f_equal. now apply String.leb_antisym.
Qed.

Lemma sort_insert_perm x l : Permutation (sort_insert x l) (x :: l).
Proof.
  induction l as [|y l IH]; cbn; [reflexivity|].
  destruct (sort_le x y); [reflexivity|].
  rewrite IH. apply perm_swap.
Qed.

Lemma sort_perm l : Permutation (sort l) l.
Proof.
  induction l as [|x l IH]; cbn; [reflexivity|].
  rewrite sort_insert_perm. now constructor.
Qed.

Lemma sort_In l x : In x (sort l) <-> In x l.
Proof.
  split; apply Permutation_in;
    [apply sort_perm | apply Permutation_sym, sort_perm].
Qed.

Lemma sort_NoDup l : NoDup l -> NoDup (sort l).
Proof. apply Permutation_NoDup, Permutation_sym, sort_perm. Qed.

Lemma sort_insert_sorted x l :
  StronglySorted sort_rel l -> StronglySorted sort_rel (sort_insert x l).
Proof.
  induction 1 as [|y l Hs IH Hall]; cbn.
  - repeat constructor.
  - destruct (sort_le x y) eqn:E.
    + constructor; [now constructor|].
      constructor; [exact E|].
      eapply Forall_impl; [|exact Hall].
      intros z Hz. eapply sort_rel_trans; [exact E|exact Hz].
    + constructor; [exact IH|].
      assert (sort_rel y x) as Hyx
          by (destruct (sort_rel_total x y) as [H|H]; [unfold sort_rel in H; congruence|exact H]).
      rewrite Forall_forall in *. intros z Hz.
      apply (Permutation_in _ (sort_insert_perm x l)) in Hz.
      destruct Hz as [<-|Hz]; auto.
  Qed.

(** The result of [sort] is in ascending order. *)
Lemma sort_sorted l : StronglySorted sort_rel (sort l).
Proof.
  induction l as [|x l IH]; cbn; [constructor|].
  now apply sort_insert_sorted.
Qed.

(** Two ascending arrangements of the same strings coincide. *)
Lemma sorted_perm_unique l :
  forall l',
    Forall (fun x => is_string x = true) l ->
    StronglySorted sort_rel l -> StronglySorted sort_rel l' ->
    Permutation l l' -> l = l'.
Proof.
  induction l as [|a l IH]; intros l' Hstr Hs Hs' Hp.
  - apply Permutation_nil in Hp. now subst.
  - destruct l' as [|b l'].
    + apply Permutation_sym, Permutation_nil in Hp. discriminate.
    + apply StronglySorted_inv in Hs as [Hs Ha].
      apply StronglySorted_inv in Hs' as [Hs' Hb].
      inversion Hstr as [|? ? Hsa Hstr']; subst.
      rewrite Forall_forall in Ha, Hb.
      assert (a = b) as ->.
      { assert (In a (b :: l')) as Hin by (eapply Permutation_in; [exact Hp|now left]).
        assert (In b (a :: l)) as Hin'
            by (eapply Permutation_in; [apply Permutation_sym; exact Hp|now left]).
        destruct Hin as [->|Hin]; [reflexivity|].
        destruct Hin' as [->|Hin']; [reflexivity|].
        apply sort_rel_antisym; auto.
        rewrite Forall_forall in Hstr'. auto. }
      f_equal. apply IH; auto.
      eapply Permutation_cons_inv; exact Hp.
Qed.

(** [sort] does not depend on the order of an array of strings. *)
Lemma sort_perm_eq l l' :
  Forall (fun x => is_string x = true) l ->
  Permutation l l' -> sort l = sort l'.
Proof.
  intros Hstr Hp.
  apply sorted_perm_unique; try apply sort_sorted.
  - rewrite Forall_forall in *. intros x Hx. apply Hstr. now apply sort_In.
  - rewrite sort_perm, Hp. apply Permutation_sym, sort_perm.
Qed.

(** ** Sets *)

Lemma jsval_eqb_eq x y : jsval_eqb x y = true <-> x = y.
Proof. unfold jsval_eqb. destruct (jsval_eq_dec x y); split; congruence. Qed.

Lemma JsSet_has_In s x : JsSet.has s x = true <-> In x s.
Proof.
  unfold JsSet.has. rewrite existsb_exists. split.
  - intros (y & Hy & E). apply jsval_eqb_eq in E. now subst.
  - intros H. exists x. split; [exact H|]. now apply jsval_eqb_eq.
Qed.

Lemma JsSet_has_false s x : JsSet.has s x = false <-> ~ In x s.
Proof.
  rewrite <- JsSet_has_In. destruct (JsSet.has s x); split; congruence.
Qed.

Lemma JsSet_add_In s x y : In y (JsSet.add s x) <-> In y s \/ y = x.
Proof.
  unfold JsSet.add. destruct (JsSet.has s x) eqn:E.
  - apply JsSet_has_In in E. split; [tauto|]. intros [H| ->]; assumption.
  - rewrite in_app_iff. cbn. intuition (subst; auto).
Qed.

Lemma JsSet_add_NoDup s x : NoDup s -> NoDup (JsSet.add s x).
Proof.
  intros H. unfold JsSet.add. destruct (JsSet.has s x) eqn:E; [exact H|].
  apply JsSet_has_false in E.
  apply NoDup_app; [exact H | repeat constructor; intros [] |].
  intros y Hy [<-|[]]. contradiction.
Qed.

Lemma JsSet_addall_In l : forall s y,
  In y (fold_left JsSet.add l s) <-> In y s \/ In y l.
Proof.
  induction l as [|x l IH]; intros s y; cbn [fold_left].
  - cbn. tauto.
  - rewrite IH, JsSet_add_In. cbn. intuition (subst; auto).
Qed.

Lemma JsSet_addall_NoDup l : forall s,
  NoDup s -> NoDup (fold_left JsSet.add l s).
Proof.
  induction l as [|x l IH]; intros s H; cbn [fold_left]; [exact H|].
  now apply IH, JsSet_add_NoDup.
Qed.

Lemma JsSet_from_In l y : In y (JsSet.from l) <-> In y l.
Proof. unfold JsSet.from. rewrite JsSet_addall_In. cbn. tauto. Qed.

Lemma JsSet_union_In a b y : In y (JsSet.union a b) <-> In y a \/ In y b.
Proof.
  unfold JsSet.union. rewrite !JsSet_addall_In. cbn. tauto.
Qed.

Lemma JsSet_union_NoDup a b : NoDup (JsSet.union a b).
Proof.
  unfold JsSet.union. apply JsSet_addall_NoDup, JsSet_addall_NoDup. constructor.
Qed.

Lemma JsSet_intersection_In a b y :
  In y (JsSet.intersection a b) <-> In y a /\ In y b.
Proof.
  unfold JsSet.intersection.
  assert (forall s, In y (fold_left
            (fun s element => if JsSet.has b element then JsSet.add s element else s) a s)
          <-> In y s \/ (In y a /\ In y b)) as H.
  { induction a as [|x a IH]; intros s; cbn [fold_left].
    - cbn. tauto.
    - rewrite IH. destruct (JsSet.has b x) eqn:E;
        [apply JsSet_has_In in E; rewrite JsSet_add_In
        |apply JsSet_has_false in E];
        cbn; intuition (subst; tauto). }
  rewrite H. cbn. tauto.
Qed.

(** ** Dictionaries *)

Section DictFacts.

Context {V : Type}.

Lemma Dict_get_set (d : Dict V) k v k' :
  Dict.get (Dict.set d k v) k' =
  if String.eqb k' k then Some v else Dict.get d k'.
Proof.
  induction d as [|[k0 v0] d IH]; cbn.
  - reflexivity.
  - destruct (String.eqb_spec k k0) as [->|Hne]; cbn.
    + destruct (String.eqb_spec k' k0); reflexivity.
    + rewrite IH. destruct (String.eqb_spec k' k0) as [->|];
        [|reflexivity].
      destruct (String.eqb_spec k0 k); congruence.
Qed.

Lemma Dict_keys_get (d : Dict V) k :
  In k (Dict.keys d) <-> Dict.get d k <> None.
Proof.
  induction d as [|[k0 v0] d IH]; cbn.
  - tauto.
  - destruct (String.eqb_spec k k0) as [->|Hne].
    + split; [discriminate|auto].
    + rewrite <- IH. split; [intros [|]; congruence || assumption|auto].
Qed.

Lemma Dict_keys_set (d : Dict V) k v k' :
  In k' (Dict.keys (Dict.set d k v)) <-> In k' (Dict.keys d) \/ k' = k.
Proof.
  rewrite !Dict_keys_get, Dict_get_set.
  destruct (String.eqb_spec k' k) as [->|Hne].
  - split; [auto|discriminate].
  - tauto.
Qed.

Lemma Dict_set_NoDup (d : Dict V) k v :
  NoDup (Dict.keys d) -> NoDup (Dict.keys (Dict.set d k v)).
Proof.
  induction d as [|[k0 v0] d IH]; cbn; intros H.
  - repeat constructor. intros [].
  - inversion H as [|? ? Hnin Hnd]; subst.
    destruct (String.eqb_spec k k0) as [->|Hne]; cbn.
    + now constructor.
    + constructor; [|now apply IH].
      change (~ In k0 (Dict.keys (Dict.set d k v))).
      rewrite Dict_keys_set. unfold Dict.keys. intros [|]; congruence.
Qed.

Lemma Dict_set_In (d : Dict V) k v k' v' :
  In (k', v') (Dict.set d k v) -> In (k', v') d \/ v' = v.
Proof.
  induction d as [|[k0 v0] d IH]; cbn.
  - intros [E|[]]. right. congruence.
  - destruct (String.eqb_spec k k0) as [->|Hne]; cbn.
    + intros [E|H]; [right; congruence|auto].
    + intros [E|H]; [auto|]. destruct (IH H); auto.
Qed.

Lemma Dict_get_In (d : Dict V) k v :
  Dict.get d k = Some v -> In (k, v) d.
Proof.
  induction d as [|[k0 v0] d IH]; cbn; [discriminate|].
  destruct (String.eqb_spec k k0) as [->|Hne].
  - intros [= ->]. now left.
  - auto.
Qed.

Lemma includes_keys (d : Dict V) k :
  includes (Dict.keys d) (Some k) = true <-> In k (Dict.keys d).
Proof.
  cbn. rewrite existsb_exists. split.
  - intros (x & Hx & E). apply String.eqb_eq in E. now subst.
  - intros H. exists k. split; [exact H|apply String.eqb_refl].
Qed.

End DictFacts.

(** ** Objects filled by assignment *)

Section JsObjectFacts.

Context {V : Type}.

Lemma JsObject_has_In (d : Dict V) k :
  JsObject.has d k = true <-> In k (Dict.keys d).
Proof.
  unfold JsObject.has. rewrite existsb_exists. split.
  - intros (x & Hx & E). apply String.eqb_eq in E. now subst.
  - intros H. exists k. split; [exact H|apply String.eqb_refl].
Qed.

Lemma JsObject_has_get (d : Dict V) k :
  JsObject.has d k = false <-> Dict.get d k = None.
Proof.
  rewrite <- Bool.not_true_iff_false, JsObject_has_In, Dict_keys_get.
  destruct (Dict.get d k); split; try congruence.
  intros H. exfalso. apply H. discriminate.
Qed.

Lemma JsObject_get_insert (d : Dict V) k v k' :
  ~ In k (Dict.keys d) ->
  Dict.get (JsObject.insert d k v) k' =
  if String.eqb k' k then Some v else Dict.get d k'.
Proof.
  induction d as [|[k0 v0] d IH]; cbn [JsObject.insert Dict.get]; intros Hk.
  - reflexivity.
  - destruct (JsObject.before k k0); cbn [Dict.get]; [reflexivity|].
    rewrite IH by (intros H; apply Hk; now right).
    destruct (String.eqb_spec k' k) as [E|]; [|reflexivity].
    destruct (String.eqb_spec k' k0) as [E0|]; [|reflexivity].
    exfalso. apply Hk. left. cbn. congruence.
Qed.

Lemma JsObject_get_define (d : Dict V) k v k' :
  Dict.get (JsObject.define d k v) k' =
  if String.eqb k' k then Some v else Dict.get d k'.
Proof.
  unfold JsObject.define. destruct (JsObject.has d k) eqn:E.
  - apply Dict_get_set.
  - apply JsObject_get_insert. rewrite <- JsObject_has_In. congruence.
Qed.

Lemma JsObject_keys_define (d : Dict V) k v k' :
  In k' (Dict.keys (JsObject.define d k v)) <-> In k' (Dict.keys d) \/ k' = k.
Proof.
  rewrite !Dict_keys_get, JsObject_get_define.
  destruct (String.eqb_spec k' k) as [->|Hne].
  - split; [auto|discriminate].
  - tauto.
Qed.

Lemma JsObject_insert_In (d : Dict V) k v e :
  In e (JsObject.insert d k v) <-> e = (k, v) \/ In e d.
Proof.
  induction d as [|[k0 v0] d IH]; cbn [JsObject.insert].
  - cbn. intuition congruence.
  - destruct (JsObject.before k k0).
    + cbn. intuition congruence.
    + cbn [In]. rewrite IH. intuition congruence.
Qed.

Lemma JsObject_insert_NoDup (d : Dict V) k v :
  ~ In k (Dict.keys d) -> NoDup (Dict.keys d) ->
  NoDup (Dict.keys (JsObject.insert d k v)).
Proof.
  induction d as [|[k0 v0] d IH]; cbn [JsObject.insert]; intros Hk Hd.
  - repeat constructor. intros [].
  - destruct (JsObject.before k k0).
    + now constructor.
    + inversion Hd as [|? ? Hnin Hnd]; subst.
      cbn. constructor.
      * intros H. apply in_map_iff in H as ([k1 v1] & E & H). cbn in E.
        subst k1. apply JsObject_insert_In in H as [[= -> ->]|H].
        -- apply Hk. now left.
        -- apply Hnin. apply in_map_iff. now exists (k0, v1).
      * apply IH; [|exact Hnd]. intros H. apply Hk. now right.
Qed.

Lemma JsObject_define_NoDup (d : Dict V) k v :
  NoDup (Dict.keys d) -> NoDup (Dict.keys (JsObject.define d k v)).
Proof.
  intros H. unfold JsObject.define. destruct (JsObject.has d k) eqn:E.
  - now apply Dict_set_NoDup.
  - apply JsObject_insert_NoDup; [|exact H].
    rewrite <- JsObject_has_In. congruence.
Qed.

Lemma JsObject_define_In (d : Dict V) k v k' v' :
  In (k', v') (JsObject.define d k v) -> In (k', v') d \/ v' = v.
Proof.
  unfold JsObject.define. destruct (JsObject.has d k).
  - apply Dict_set_In.
  - rewrite JsObject_insert_In. intros [[= -> ->]|H]; auto.
Qed.

(** An assignment leaves the other own properties as they are. *)
Lemma JsObject_get_assign_other (o : JsObject.t V) k v k' :
  k' <> k ->
  Dict.get (JsObject.own (JsObject.assign o k v)) k' =
  Dict.get (JsObject.own o) k'.
Proof.
  intros Hne. unfold JsObject.assign.
  destruct (_ && _); cbn [JsObject.own]; [reflexivity|].
  rewrite JsObject_get_define.
  destruct (String.eqb_spec k' k); congruence.
Qed.

(** An assignment to a key other than [__proto__], or to an own property,
    gives the own property its value. *)
Lemma JsObject_get_assign (o : JsObject.t V) k v :
  k <> "__proto__" \/ In k (JsObject.keys o) ->
  Dict.get (JsObject.own (JsObject.assign o k v)) k = Some v.
Proof.
  intros Hk. unfold JsObject.assign.
  destruct (String.eqb k "__proto__" && negb (JsObject.has (JsObject.own o) k))
    eqn:E; cbn [JsObject.own].
  - apply Bool.andb_true_iff in E as [E1 E2].
    apply String.eqb_eq in E1. apply Bool.negb_true_iff in E2.
    destruct Hk as [Hk|Hk]; [congruence|].
    apply JsObject_has_In in Hk. unfold JsObject.keys in *. congruence.
  - now rewrite JsObject_get_define, String.eqb_refl.
Qed.

(** An assignment to [__proto__], when that is no own property, leaves
    the own properties as they are. *)
Lemma JsObject_assign_proto (o : JsObject.t V) v :
  ~ In "__proto__" (JsObject.keys o) ->
  JsObject.assign o "__proto__" v = JsObject.mk (JsObject.own o) (Some v).
Proof.
  intros Hk. unfold JsObject.assign.
  replace (JsObject.has (JsObject.own o) "__proto__") with false;
    [reflexivity|].
  symmetry. apply Bool.not_true_iff_false. now rewrite JsObject_has_In.
Qed.

Lemma JsObject_keys_assign (o : JsObject.t V) k v k' :
  In k' (JsObject.keys (JsObject.assign o k v)) ->
  In k' (JsObject.keys o) \/ k' = k.
Proof.
  unfold JsObject.assign, JsObject.keys.
  destruct (_ && _); cbn [JsObject.own]; [auto|].
  apply JsObject_keys_define.
Qed.

Lemma JsObject_keys_assign_grows (o : JsObject.t V) k v k' :
  In k' (JsObject.keys o) -> In k' (JsObject.keys (JsObject.assign o k v)).
Proof.
  unfold JsObject.assign, JsObject.keys.
  destruct (_ && _); cbn [JsObject.own]; [auto|].
  intros H. apply JsObject_keys_define. now left.
Qed.

Lemma JsObject_assign_NoDup (o : JsObject.t V) k v :
  NoDup (JsObject.keys o) -> NoDup (JsObject.keys (JsObject.assign o k v)).
Proof.
  unfold JsObject.assign, JsObject.keys.
  destruct (_ && _); cbn [JsObject.own]; [auto|].
  apply JsObject_define_NoDup.
Qed.

Lemma JsObject_assign_In (o : JsObject.t V) k v k' v' :
  In (k', v') (JsObject.own (JsObject.assign o k v)) ->
  In (k', v') (JsObject.own o) \/ v' = v.
Proof.
  unfold JsObject.assign.
  destruct (_ && _); cbn [JsObject.own]; [auto|].
  apply JsObject_define_In.
Qed.

(** No assignment makes [__proto__] an own property. *)
Lemma JsObject_assign_no_proto (o : JsObject.t V) k v :
  ~ In "__proto__" (JsObject.keys o) ->
  ~ In "__proto__" (JsObject.keys (JsObject.assign o k v)).
Proof.
  intros Ho H. unfold JsObject.assign, JsObject.keys in *.
  destruct (String.eqb_spec k "__proto__") as [->|Hne]; cbn [andb] in H.
  - replace (JsObject.has (JsObject.own o) "__proto__") with false in H;
      [exact (Ho H)|].
    symmetry. apply Bool.not_true_iff_false. now rewrite JsObject_has_In.
  - cbn [JsObject.own] in H. apply JsObject_keys_define in H as [H|H];
      [exact (Ho H)|congruence].
Qed.

End JsObjectFacts.

(** ** Policy creation *)

Section PolicyFacts.

Variable rootPath : string.
Variable rootPackageName : option string.

Local Abbreviation nameOf := (packageNameOf rootPath rootPackageName).
Local Abbreviation keyOf := (fun p => template_opt (nameOf p)).
Local Abbreviation step := (addToPolicy rootPath rootPackageName).
Local Abbreviation granular := (createGranularPolicy rootPath rootPackageName).
Local Abbreviation entryAt policy k := (Dict.get (JsObject.own policy) k).

(** The branch of [addToPolicy] that finds the name among the keys always
    finds its entry. *)
Lemma includes_get (policy : JsObject.t Capabilities) name :
  includes (JsObject.keys policy) name = true ->
  exists old, entryAt policy (template_opt name) = Some old.
Proof.
  destruct name as [k|]; [|discriminate].
  unfold JsObject.keys. rewrite includes_keys, Dict_keys_get. cbn.
  destruct (Dict.get (JsObject.own policy) k); [eauto|congruence].
Qed.

Lemma addToPolicy_other policy p c n :
  keyOf p <> n -> entryAt (step policy (p, c)) n = entryAt policy n.
Proof.
  intros Hne. unfold addToPolicy.
  destruct (includes (JsObject.keys policy) (nameOf p)) eqn:E.
  - destruct (includes_get _ _ E) as [old ->].
    apply JsObject_get_assign_other. congruence.
  - apply JsObject_get_assign_other. congruence.
Qed.

Lemma addToPolicy_keys policy p c n :
  In n (JsObject.keys (step policy (p, c))) ->
  In n (JsObject.keys policy) \/ n = keyOf p.
Proof.
  unfold addToPolicy.
  destruct (includes (JsObject.keys policy) (nameOf p)) eqn:E.
  - destruct (includes_get _ _ E) as [old ->].
    apply JsObject_keys_assign.
  - apply JsObject_keys_assign.
Qed.

Lemma addToPolicy_NoDup policy e :
  NoDup (JsObject.keys policy) -> NoDup (JsObject.keys (step policy e)).
Proof.
  destruct e as [p c]. intros H. unfold addToPolicy.
  destruct (includes (JsObject.keys policy) (nameOf p)) eqn:E.
  - destruct (includes_get _ _ E) as [old ->]. now apply JsObject_assign_NoDup.
  - now apply JsObject_assign_NoDup.
Qed.

Lemma fold_addToPolicy_NoDup l : forall policy,
  NoDup (JsObject.keys policy) ->
  NoDup (JsObject.keys (fold_left step l policy)).
Proof.
  induction l as [|e l IH]; intros policy H; cbn [fold_left]; [exact H|].
  now apply IH, addToPolicy_NoDup.
Qed.

(** The policy object never has [__proto__] among its keys. *)
Lemma addToPolicy_no_proto policy e :
  ~ In "__proto__" (JsObject.keys policy) ->
  ~ In "__proto__" (JsObject.keys (step policy e)).
Proof.
  destruct e as [p c]. intros H. unfold addToPolicy.
  destruct (includes (JsObject.keys policy) (nameOf p)) eqn:E.
  - destruct (includes_get _ _ E) as [old ->].
    now apply JsObject_assign_no_proto.
  - now apply JsObject_assign_no_proto.
Qed.

Lemma fold_addToPolicy_no_proto l : forall policy,
  ~ In "__proto__" (JsObject.keys policy) ->
  ~ In "__proto__" (JsObject.keys (fold_left step l policy)).
Proof.
  induction l as [|e l IH]; intros policy H; cbn [fold_left]; [exact H|].
  now apply IH, addToPolicy_no_proto.
Qed.

Lemma createGranularPolicy_no_proto caps :
  ~ In "__proto__" (JsObject.keys (granular caps)).
Proof. apply fold_addToPolicy_no_proto. intros []. Qed.

Lemma fold_addToPolicy_other l n : forall policy,
  (forall p c, In (p, c) l -> keyOf p <> n) ->
  entryAt (fold_left step l policy) n = entryAt policy n.
Proof.
  induction l as [|[p c] l IH]; intros policy H; cbn [fold_left]; [reflexivity|].
  rewrite IH by (intros p' c' Hin; apply (H p' c'); now right).
  apply addToPolicy_other. apply (H p c). now left.
Qed.

(** The first path of a name other than [__proto__] enters its sets,
    sorted. *)
Lemma addToPolicy_first policy p c n :
  nameOf p = Some n -> n <> "__proto__" -> entryAt policy n = None ->
  entryAt (step policy (p, c)) n =
  Some (mkCapabilities (sort (modules c)) (sort (globals c))).
Proof.
  intros Hn Hproto Hget. unfold addToPolicy. rewrite Hn.
  destruct (includes (JsObject.keys policy) (Some n)) eqn:E.
  - apply includes_keys, Dict_keys_get in E. congruence.
  - cbn [template_opt]. apply JsObject_get_assign. now left.
Qed.

(** A further path of the same name is united with the entry. *)
Lemma addToPolicy_again policy p c n old :
  nameOf p = Some n -> entryAt policy n = Some old ->
  entryAt (step policy (p, c)) n =
  Some (mkCapabilities
          (sort (JsSet.union (JsSet.from (modules old)) (modules c)))
          (sort (JsSet.union (JsSet.from (globals old)) (globals c)))).
Proof.
  intros Hn Hget. unfold addToPolicy. rewrite Hn.
  assert (In n (JsObject.keys policy)) as Hin
      by (apply Dict_keys_get; congruence).
  destruct (includes (JsObject.keys policy) (Some n)) eqn:E.
  - cbn [template_opt]. rewrite Hget. apply JsObject_get_assign. now right.
  - apply includes_keys in Hin. unfold JsObject.keys in E. congruence.
Qed.

(** A path named [__proto__] leaves the own properties of the policy as
    they are: its arrays become the prototype of the policy object. *)
Lemma addToPolicy_proto policy p c :
  nameOf p = Some "__proto__" ->
  ~ In "__proto__" (JsObject.keys policy) ->
  step policy (p, c) =
  JsObject.mk (JsObject.own policy)
              (Some (mkCapabilities (sort (modules c)) (sort (globals c)))).
Proof.
  intros Hn Hproto. unfold addToPolicy. rewrite Hn.
  destruct (includes (JsObject.keys policy) (Some "__proto__")) eqn:E.
  - apply includes_keys in E. contradiction.
  - cbn [template_opt]. now apply JsObject_assign_proto.
Qed.

Lemma sorted_union_spec old c :
  sorted_set_of (sort (JsSet.union (JsSet.from (sort old)) c))
                (fun x => In x old \/ In x c).
Proof.
  repeat split.
  - apply sort_sorted.
  - apply sort_NoDup, JsSet_union_NoDup.
  - rewrite sort_In, JsSet_union_In, JsSet_from_In, sort_In. tauto.
  - rewrite sort_In, JsSet_union_In, JsSet_from_In, sort_In. tauto.
Qed.

(** When two distinct package paths of the capabilities carry the same
    package name, which is not [__proto__], and no other path does,
    [createGranularPolicy] has exactly one entry under that name, and its
    [modules] and [globals] arrays are the ascending, duplicate-free arrays
    of the union of the two paths' sets. *)
Lemma createGranularPolicy_two_copies
      (before between after : Dict Capabilities) p1 c1 p2 c2 n :
  p1 <> p2 ->
  n <> "__proto__" ->
  nameOf p1 = Some n ->
  nameOf p2 = Some n ->
  (forall p c, In (p, c) (before ++ between ++ after) -> keyOf p <> n) ->
  let policy := granular (before ++ (p1, c1) :: between ++ (p2, c2) :: after) in
  count_occ String.string_dec (JsObject.keys policy) n = 1%nat /\
  exists entry,
    entryAt policy n = Some entry /\
    sorted_set_of (modules entry)
                  (fun x => In x (modules c1) \/ In x (modules c2)) /\
    sorted_set_of (globals entry)
                  (fun x => In x (globals c1) \/ In x (globals c2)).
Proof.
  intros _ Hproto Hn1 Hn2 Hother policy.
  assert (exists entry, entryAt policy n = Some entry /\
            modules entry = sort (JsSet.union (JsSet.from (sort (modules c1))) (modules c2)) /\
            globals entry = sort (JsSet.union (JsSet.from (sort (globals c1))) (globals c2)))
    as (entry & Hget & Hm & Hg).
  { subst policy. unfold createGranularPolicy.
    rewrite fold_left_app. cbn [fold_left].
    rewrite fold_left_app. cbn [fold_left].
    rewrite fold_addToPolicy_other
      by (intros p c Hin; apply (Hother p c); rewrite !in_app_iff; auto).
    set (policy0 := fold_left step before JsObject.empty).
    assert (entryAt policy0 n = None) as H0.
    { subst policy0. rewrite fold_addToPolicy_other; [reflexivity|].
      intros p c Hin. apply (Hother p c). rewrite !in_app_iff; auto. }
    pose proof (addToPolicy_first policy0 p1 c1 n Hn1 Hproto H0) as H1.
    set (policy1 := step policy0 (p1, c1)) in *.
    assert (entryAt (fold_left step between policy1) n = entryAt policy1 n)
      as H2.
    { apply fold_addToPolicy_other.
      intros p c Hin. apply (Hother p c). rewrite !in_app_iff; auto. }
    rewrite H1 in H2.
    rewrite (addToPolicy_again _ p2 c2 n _ Hn2 H2). cbn [modules globals].
    eexists. split; [reflexivity|]. split; reflexivity. }
  split.
  - apply NoDup_count_occ'.
    + subst policy. apply fold_addToPolicy_NoDup. constructor.
    + apply Dict_keys_get. congruence.
  - exists entry. split; [exact Hget|].
    rewrite Hm, Hg. split; apply sorted_union_spec.
Qed.

(** Two installed copies of a package named [__proto__]: after both, the
    policy object has no property at all; the arrays of the second copy
    alone are the prototype of the object. *)
Lemma createGranularPolicy_proto_twice p1 c1 p2 c2 :
  nameOf p1 = Some "__proto__" ->
  nameOf p2 = Some "__proto__" ->
  granular [(p1, c1); (p2, c2)] =
  JsObject.mk [] (Some (mkCapabilities (sort (modules c2))
                                       (sort (globals c2)))).
Proof.
  intros Hn1 Hn2. unfold createGranularPolicy. cbn [fold_left].
  rewrite (addToPolicy_proto _ p1 c1 Hn1) by (intros []).
  rewrite (addToPolicy_proto _ p2 c2 Hn2) by (intros []).
  reflexivity.
Qed.

End PolicyFacts.

(** Two installed copies of [dep], one hoisted and one nested. *)
Example createGranularPolicy_two_copies_value :
  createGranularPolicy "/app" (Some "app")
    [("/app", mkCapabilities [JStr "path"] []);
     ("/app/node_modules/dep", mkCapabilities [JStr "fs"] [JStr "process"]);
     ("/app/node_modules/lib/node_modules/dep",
      mkCapabilities [JStr "child_process"; JStr "fs"] [JStr "Buffer"])]
  = JsObject.mk
      [("app", mkCapabilities [JStr "path"] []);
       ("dep", mkCapabilities [JStr "child_process"; JStr "fs"]
                              [JStr "Buffer"; JStr "process"])]
      None.
Proof. reflexivity. Qed.

(** A package whose name is an array index is enumerated first, whatever
    the order of the packages. *)
Example createGranularPolicy_index_name :
  JsObject.keys
    (createGranularPolicy "/app" (Some "app")
       [("/app", mkCapabilities [] []);
        ("/app/node_modules/dep", mkCapabilities [] []);
        ("/app/node_modules/7", mkCapabilities [] [])])
  = ["7"; "app"; "dep"].
Proof. reflexivity. Qed.

(** C7. Two installed copies of a package named [__proto__], one hoisted
    and one nested: [createGranularPolicy] produces no entry under that
    name, and none at all.  The assignment [policy[packageName] = ...]
    makes the arrays of the copy the prototype of the policy object, the
    name never is among [Object.keys(policy)], and so the second copy takes
    the branch of a first copy again; the policy is written as [{}]. *)
Theorem createGranularPolicy_proto_copies :
  map (fun entry => packageNameOf "/app" (Some "app") (fst entry))
      example_proto_capabilities
  = [Some "__proto__"; Some "__proto__"] /\
  JsObject.keys
    (createGranularPolicy "/app" (Some "app") example_proto_capabilities)
  = [] /\
  JsObject.prototype
    (createGranularPolicy "/app" (Some "app") example_proto_capabilities)
  = Some (mkCapabilities [JStr "child_process"] [JStr "Buffer"]) /\
  JSON.stringify
    (createPolicy "/app" (Some "app") example_proto_capabilities [] None)
  = String.concat (String JSON.quote_char EmptyString)
      ["{"; "memberAccessTracing"; ":false,"; "policyCoarse"; ":{},";
       "policyFine"; ":{}}"].
Proof. repeat split. Qed.

(** ** Order independence of the policy *)


Lemma JsSet_union_perm a b b' :
  Permutation b b' -> Permutation (JsSet.union a b) (JsSet.union a b').
Proof.
  intros Hp. apply NoDup_Permutation; try apply JsSet_union_NoDup.
  intros x. rewrite !JsSet_union_In.
  split; (intros [H|H]; [now left|right]);
    [eapply Permutation_in; [exact Hp|exact H]
    |eapply Permutation_in; [apply Permutation_sym; exact Hp|exact H]].
Qed.

Lemma Forall_strings_perm l l' :
  Permutation l l' ->
  Forall (fun x => is_string x = true) l ->
  Forall (fun x => is_string x = true) l'.
Proof.
  intros Hp. rewrite !Forall_forall. intros H x Hx. apply H.
  eapply Permutation_in; [apply Permutation_sym; exact Hp|exact Hx].
Qed.

Lemma Forall_strings_sort l :
  Forall (fun x => is_string x = true) l ->
  Forall (fun x => is_string x = true) (sort l).
Proof. apply Forall_strings_perm, Permutation_sym, sort_perm. Qed.

Lemma Forall_strings_union a b :
  Forall (fun x => is_string x = true) a ->
  Forall (fun x => is_string x = true) b ->
  Forall (fun x => is_string x = true) (JsSet.union (JsSet.from a) b).
Proof.
  rewrite !Forall_forall. intros Ha Hb x.
  rewrite JsSet_union_In, JsSet_from_In. intros [|]; auto.
Qed.

Section OrderIndependence.

Variable rootPath : string.
Variable rootPackageName : option string.

Local Abbreviation step := (addToPolicy rootPath rootPackageName).

Lemma addToPolicy_strings policy e :
  policy_strings policy -> all_strings (snd e) ->
  policy_strings (step policy e).
Proof.
  destruct e as [p c]. intros Hpol [Hm Hg]. cbn [snd] in *.
  unfold addToPolicy.
  destruct (includes _ _) eqn:E.
  - destruct (includes_get _ _ E) as [old Hold]. rewrite Hold.
    destruct (Hpol _ _ (Dict_get_In _ _ _ Hold)) as [Hom Hog].
    intros k e Hin. apply JsObject_assign_In in Hin as [Hin| ->]; [eauto|].
    split; cbn; now apply Forall_strings_sort, Forall_strings_union.
  - intros k e Hin. apply JsObject_assign_In in Hin as [Hin| ->]; [eauto|].
    split; cbn; now apply Forall_strings_sort.
Qed.

Lemma addToPolicy_same_sets policy e e' :
  policy_strings policy -> all_strings (snd e) -> same_sets e e' ->
  step policy e = step policy e'.
Proof.
  destruct e as [p c], e' as [p' c'].
  intros Hpol [Hm Hg] (Hp & Hpm & Hpg). cbn [fst snd] in *. subst p'.
  unfold addToPolicy.
  destruct (includes _ _) eqn:E.
  - destruct (includes_get _ _ E) as [old Hold]. rewrite Hold.
    destruct (Hpol _ _ (Dict_get_In _ _ _ Hold)) as [Hom Hog].
    f_equal. f_equal; apply sort_perm_eq;
      auto using Forall_strings_union, JsSet_union_perm.
  - f_equal. f_equal; now apply sort_perm_eq.
Qed.

Lemma fold_addToPolicy_same_sets caps caps' :
  Forall2 same_sets caps caps' ->
  Forall (fun e => all_strings (snd e)) caps ->
  forall policy,
    policy_strings policy ->
    fold_left step caps policy = fold_left step caps' policy.
Proof.
  induction 1 as [|e e' caps caps' He _ IH]; intros Hall policy Hpol;
    cbn [fold_left]; [reflexivity|].
  inversion Hall as [|? ? He_str Hall']; subst.
  rewrite <- (addToPolicy_same_sets policy e e' Hpol He_str He).
  apply IH; [exact Hall'|]. now apply addToPolicy_strings.
Qed.

Lemma createGranularPolicy_same_sets caps caps' :
  Forall2 same_sets caps caps' ->
  Forall (fun e => all_strings (snd e)) caps ->
  createGranularPolicy rootPath rootPackageName caps =
  createGranularPolicy rootPath rootPackageName caps'.
Proof.
  intros H Hall. apply fold_addToPolicy_same_sets; auto.
  intros k e [].
Qed.

(** C8 (amended). For a fixed sequence of per-package capability sets
    that hold strings, the policy of [createPolicy] is invariant under any
    permutation of the order in which the elements entered each package's
    sets, which is all that the order of enumerating the files of a package
    changes: with the packages taken in the same order, the two policies
    serialize to identical JSON. *)
Theorem createPolicy_insertion_order_invariant
        (coarse coarse' fine fine' : Dict Capabilities) tracing :
  Forall (fun e => all_strings (snd e)) coarse ->
  Forall (fun e => all_strings (snd e)) fine ->
  Forall2 same_sets coarse coarse' ->
  Forall2 same_sets fine fine' ->
  JSON.stringify (createPolicy rootPath rootPackageName coarse fine tracing) =
  JSON.stringify (createPolicy rootPath rootPackageName coarse' fine' tracing).
Proof.
  intros Hc Hf Hcc Hff. unfold createPolicy.
  rewrite (createGranularPolicy_same_sets coarse coarse' Hcc Hc).
  rewrite (createGranularPolicy_same_sets fine fine' Hff Hf).
  reflexivity.
Qed.

End OrderIndependence.

(** The files of the root package enumerated in two orders. *)
Lemma createPolicy_insertion_order_invariant_witness :
  JSON.stringify
    (createPolicy "/app" (Some "app")
       [("/app", mkCapabilities [JStr "fs"; JStr "path"] [JStr "process"])]
       [("/app", mkCapabilities [JStr "fs.readFile"; JStr "path.join"] [])]
       (Some true)) =
  JSON.stringify
    (createPolicy "/app" (Some "app")
       [("/app", mkCapabilities [JStr "path"; JStr "fs"] [JStr "process"])]
       [("/app", mkCapabilities [JStr "path.join"; JStr "fs.readFile"] [])]
       (Some true)).
Proof.
  apply createPolicy_insertion_order_invariant.
  - repeat constructor.
  - repeat constructor.
  - repeat constructor.
  - repeat constructor.
Defined.

(** C8 (as stated, refuted). The same capability sets with the two packages
    taken in the other order give another JSON text: the keys [a] and [b]
    of the policy object come in the order in which the two packages were
    taken. *)
Lemma createPolicy_depends_on_package_order :
  Permutation [example_package_a; example_package_b]
              [example_package_b; example_package_a] /\
  JSON.stringify (createPolicy "/app" (Some "app")
                    [example_package_a; example_package_b] [] None) <>
  JSON.stringify (createPolicy "/app" (Some "app")
                    [example_package_b; example_package_a] [] None).
Proof.
  split; [apply perm_swap|]. vm_compute. discriminate.
Qed.

Example createPolicy_json :
  JSON.stringify
    (createPolicy "/app" (Some "app")
       [("/app/node_modules/a", mkCapabilities [JStr "fs"] [JStr "process"])] []
       None)
  = String.concat (String JSON.quote_char EmptyString)
      ["{"; "memberAccessTracing"; ":false,"; "policyCoarse"; ":{"; "a"; ":{";
       "modules"; ":["; "fs"; "],"; "globals"; ":["; "process"; "]}},";
       "policyFine"; ":{}}"].
Proof. reflexivity. Qed.

(** Without the restriction to strings the insertion order shows: [sort]
    is stable and cannot tell the number [5] from the string of its digit. *)
Example sort_number_and_string :
  sort [JNum 5; JStr "5"] = [JNum 5; JStr "5"] /\
  sort [JStr "5"; JNum 5] = [JStr "5"; JNum 5].
Proof. split; reflexivity. Qed.

(** ** The traversal driver *)

Lemma bind_Ok {A B} (c : result A) (k : A -> result B) b :
  bind c k = Ok b <-> exists a, c = Ok a /\ k a = Ok b.
Proof.
  destruct c as [a|e]; cbn.
  - split; [eauto|]. now intros (a' & [= ->] & H).
  - split; [discriminate|]. now intros (a' & [=] & _).
Qed.

Lemma bind_assoc {A B C} (c : result A) (k : A -> result B) (h : B -> result C) :
  bind (bind c k) h = bind c (fun a => bind (k a) h).
Proof. destruct c; reflexivity. Qed.

Section ForEachFacts.

Context {A S : Type}.

Lemma forEach_app (f : A -> S -> result S) l1 l2 s :
  forEach f (l1 ++ l2) s = bind (forEach f l1 s) (forEach f l2).
Proof.
  revert s. induction l1 as [|x l1 IH]; intros s; cbn; [reflexivity|].
  destruct (f x s); cbn; auto.
Qed.

Lemma forEach_map {B} (f : A -> S -> result S) (g : B -> A) l s :
  forEach f (map g l) s = forEach (fun x => f (g x)) l s.
Proof.
  revert s. induction l as [|x l IH]; intros s; cbn; [reflexivity|].
  destruct (f (g x) s); cbn; auto.
Qed.

Lemma forEach_ext (f g : A -> S -> result S) l s :
  (forall x s, In x l -> f x s = g x s) -> forEach f l s = forEach g l s.
Proof.
  revert s. induction l as [|x l IH]; intros s H; cbn; [reflexivity|].
  rewrite (H x s (or_introl eq_refl)).
  destruct (g x s); cbn; [|reflexivity].
  apply IH. intros y s' Hy. apply H. now right.
Qed.

Lemma forEach_flat_map {B} (f : A -> S -> result S) (g : B -> list A) l s :
  forEach f (flat_map g l) s = forEach (fun x => forEach f (g x)) l s.
Proof.
  revert s. induction l as [|x l IH]; intros s; cbn; [reflexivity|].
  rewrite forEach_app. destruct (forEach f (g x) s); cbn; auto.
Qed.

(** A property kept by every step of a loop is kept by the loop. *)
Lemma forEach_invariant (P : S -> Prop) (f : A -> S -> result S) l :
  (forall x s s', In x l -> P s -> f x s = Ok s' -> P s') ->
  forall s s', P s -> forEach f l s = Ok s' -> P s'.
Proof.
  induction l as [|x l IH]; intros H s s' Hs; cbn.
  - now intros [= <-].
  - intros Hrun. apply bind_Ok in Hrun as (s1 & H1 & H2).
    eapply IH; [|eapply (H x); [now left|exact Hs|exact H1]|exact H2].
    intros y t t' Hy. apply H. now right.
Qed.

End ForEachFacts.

Section TraverseFacts.

Context {S : Type}.
Variable enter : Ast.node -> list Ast.node -> S -> result S.
Variable leave : Ast.node -> S -> result S.

Local Abbreviation walk := (traverse enter leave).
Local Abbreviation child := (walkChild enter leave).

(** The traversal of a node, read off the table of children. *)
Lemma traverse_children n ancestors s :
  walk n ancestors s =
  (s <- enter n (ancestors ++ [n]) s ;;
   s <- forEach (child (ancestors ++ [n])) (Ast.children n) s ;;
   leave n s).
Proof.
  destruct n; cbn [traverse Ast.children];
    destruct (enter _ _ s) as [s1|]; cbn [bind]; try reflexivity;
    f_equal; unfold walkChild;
    repeat match goal with o : option Ast.node |- _ => destruct o end;
    repeat first
      [ reflexivity
      | progress (rewrite ?forEach_app, ?forEach_map, ?forEach_flat_map;
                  cbn [forEach bind fst snd Ast.optional app])
      | match goal with
        | |- bind ?c _ = _ => destruct c
        | |- _ = bind ?c _ => destruct c
        | |- forEach _ ?l ?s = forEach _ ?l ?s =>
            apply forEach_ext; intros [?|] ? _
        end ].
Qed.

End TraverseFacts.

(** Induction over the tree along the walker's table: a property holds of
    every node when it holds of a node whenever it holds of the node's
    children. *)
Lemma node_children_ind (P : Ast.node -> Prop) :
  (forall n, (forall r c, In (r, c) (Ast.children n) -> P c) -> P n) ->
  forall n, P n.
Proof.
  intros H. fix IH 1. intros n. apply H.
  destruct n; cbn [Ast.children];
    repeat match goal with
      | x : Ast.node |- _ =>
          lazymatch goal with
          | _ : P x |- _ => fail
          | _ => assert (P x) by apply IH
          end
      | o : option Ast.node |- _ =>
          lazymatch goal with
          | _ : forall x, o = Some x -> P x |- _ => fail
          | _ => assert (forall x, o = Some x -> P x)
                by (destruct o; intros ? [= <-]; apply IH)
          end
      | l : list Ast.node |- _ =>
          lazymatch goal with
          | _ : Forall P l |- _ => fail
          | _ => assert (Forall P l)
                by (induction l; constructor; [apply IH|assumption])
          end
      | l : list (option Ast.node) |- _ =>
          lazymatch goal with
          | _ : Forall (fun o => forall x, o = Some x -> P x) l |- _ => fail
          | _ => assert (Forall (fun o => forall x, o = Some x -> P x) l)
                by (induction l as [|[?|] ? ?]; constructor;
                    try assumption; intros ? [= <-]; apply IH)
          end
      | l : list (Ast.role * Ast.node) |- _ =>
          lazymatch goal with
          | _ : Forall (fun rc => P (snd rc)) l |- _ => fail
          | _ => assert (Forall (fun rc => P (snd rc)) l)
                by (induction l as [|[? ?] ? ?]; constructor;
                    [apply IH|assumption])
          end
      end;
    clear IH; intros r c Hin;
    repeat match goal with
      | Hf : Forall _ _ |- _ => rewrite Forall_forall in Hf
      end;
    repeat match goal with
      | Hi : In _ (_ ++ _) |- _ => apply in_app_iff in Hi as [Hi|Hi]
      | Hi : In _ (map _ _) |- _ => apply in_map_iff in Hi as (? & [= <- <-] & Hi)
      | Hi : In _ (flat_map _ _) |- _ => apply in_flat_map in Hi as (? & ? & Hi)
      | Hi : In _ (_ :: _) |- _ => destruct Hi as [[= <- <-]|Hi]
      | Hi : In _ [] |- _ => destruct Hi
      | Hi : In _ (Ast.optional _ ?o) |- _ => destruct o; cbn [Ast.optional] in Hi
      end;
    eauto.
  - match goal with Hf : forall x, In x _ -> _, Hi : In (r, c) _ |- _ =>
      exact (Hf _ Hi) end.
Qed.

Lemma Visited_trans root n m : Visited root n -> Visited n m -> Visited root m.
Proof.
  intros Hn Hm. induction Hm as [|k r c Hk IH Hin Hv]; [exact Hn|].
  eapply Visited_child; eauto.
Qed.

Lemma Visited_inv root m :
  Visited root m ->
  m = root \/
  exists r c, In (r, c) (Ast.children root) /\ Ast.visited_as r c = true /\
              Visited c m.
Proof.
  induction 1 as [|k r c Hk IH Hin Hv]; [now left|right].
  destruct IH as [->|(r' & c' & Hin' & Hv' & Hc')].
  - exists r, c. repeat split; auto. constructor.
  - exists r', c'. repeat split; auto. eapply Visited_child; eauto.
Qed.

Section ForEachMore.

Context {A S : Type}.
Variable f : A -> S -> result S.

Lemma forEach_total l :
  (forall x s, In x l -> exists s', f x s = Ok s') ->
  forall s, exists s', forEach f l s = Ok s'.
Proof.
  induction l as [|x l IH]; intros H s; cbn; [eauto|].
  destruct (H x s (or_introl eq_refl)) as [s1 ->]. cbn.
  apply IH. intros y t Hy. apply H. now right.
Qed.

(** What one step of a loop establishes and every step keeps holds at
    the end. *)
Lemma forEach_establish (Q : S -> Prop) l x0 :
  In x0 l ->
  (forall x s s', In x l -> f x s = Ok s' -> Q s -> Q s') ->
  (forall s s', f x0 s = Ok s' -> Q s') ->
  forall s s', forEach f l s = Ok s' -> Q s'.
Proof.
  induction l as [|x l IH]; intros Hin Hkeep Hest s s'; [destruct Hin|].
  cbn. intros Hrun. apply bind_Ok in Hrun as (s1 & H1 & H2).
  destruct Hin as [->|Hin].
  - eapply (forEach_invariant Q f l); [|eapply Hest; exact H1|exact H2].
    intros y t t' Hy Ht Hf. eapply Hkeep; eauto. now right.
  - eapply IH; eauto. intros y t t' Hy. apply Hkeep. now right.
Qed.

End ForEachMore.

Section TraverseInvariant.

Context {S : Type}.
Variable enter : Ast.node -> list Ast.node -> S -> result S.
Variable leave : Ast.node -> S -> result S.
Variable Inv : S -> Prop.
Variable root : Ast.node.

Hypothesis enter_keeps :
  forall n ancestors s s',
    Visited root n -> Inv s -> enter n ancestors s = Ok s' -> Inv s'.
Hypothesis leave_keeps :
  forall n s s', Visited root n -> Inv s -> leave n s = Ok s' -> Inv s'.

(** What the analyses keep at every visited node, the traversal keeps. *)
Lemma traverse_invariant n :
  Visited root n ->
  forall ancestors s s',
    Inv s -> traverse enter leave n ancestors s = Ok s' -> Inv s'.
Proof.
  induction n as [n IH] using node_children_ind.
  intros Hv ancestors s s' Hs Hrun.
  rewrite traverse_children in Hrun.
  apply bind_Ok in Hrun as (s1 & H1 & Hrun).
  apply bind_Ok in Hrun as (s2 & H2 & H3).
  eapply leave_keeps; [exact Hv| |exact H3].
  eapply (forEach_invariant Inv); [|eapply enter_keeps; eauto|exact H2].
  intros [r c] t t' Hin Ht. unfold walkChild. cbn [fst snd].
  destruct (Ast.visited_as r c) eqn:E; [|now intros [= <-]].
  apply (IH r c Hin); [|exact Ht].
  eapply Visited_child; eauto.
Qed.

End TraverseInvariant.

(** ** Imports *)

Lemma addSource_grows source imports x :
  In x imports -> In x (addSource source imports).
Proof.
  unfold addSource. destruct (isType _ _); [|auto].
  destruct (Ast.value source); [|auto].
  intros H. apply JsSet_add_In. now left.
Qed.

Lemma addSource_from_empty source imports v :
  In v (addSource source []) -> In v (addSource source imports).
Proof.
  unfold addSource. destruct (isType _ _); [|intros []].
  destruct (Ast.value source); [|intros []].
  rewrite !JsSet_add_In. intros [[]| ->]. now right.
Qed.

Lemma importsVisitor_grows n imports x :
  In x imports -> In x (importsVisitor n imports).
Proof.
  intros H. destruct n; cbn [importsVisitor]; auto using addSource_grows.
  - destruct (_ && _); [|exact H].
    destruct arguments; auto using addSource_grows.
  - destruct source; auto using addSource_grows.
Qed.

Lemma importsVisitor_from_empty n imports v :
  In v (importsVisitor n []) -> In v (importsVisitor n imports).
Proof.
  destruct n; cbn [importsVisitor]; try (intros []);
    auto using addSource_from_empty.
  - destruct (_ && _); [|intros []].
    destruct arguments; [intros []|apply addSource_from_empty].
  - destruct source; [apply addSource_from_empty|intros []].
Qed.

Section WalkImports.

Local Abbreviation enterI := (fun (_ : Ast.node) (_ : list Ast.node) (imports : JsSet.t) => Ok imports).
Local Abbreviation leaveI := (fun node (imports : JsSet.t) => Ok (importsVisitor node imports)).

(** The walk of [extractImportsFromAST] throws nowhere. *)
Lemma walkImports_total n :
  forall ancestors imports,
  exists imports', traverse enterI leaveI n ancestors imports = Ok imports'.
Proof.
  induction n as [n IH] using node_children_ind. intros ancestors imports.
  rewrite traverse_children. cbn [bind].
  destruct (forEach_total (walkChild enterI leaveI (ancestors ++ [n]))
              (Ast.children n)) with (s := imports) as [s' ->].
  - intros [r c] s Hin. unfold walkChild. cbn [fst snd].
    destruct (Ast.visited_as r c); [apply (IH r c Hin)|eauto].
  - cbn. eauto.
Qed.

Lemma walkImports_grows n ancestors imports imports' x :
  traverse enterI leaveI n ancestors imports = Ok imports' ->
  In x imports -> In x imports'.
Proof.
  intros Hrun Hx.
  eapply (traverse_invariant enterI leaveI (fun s => In x s) n);
    [| |constructor|exact Hx|exact Hrun].
  - intros ? ? ? ? _ H [= <-]. exact H.
  - intros ? ? ? _ H [= <-]. now apply importsVisitor_grows.
Qed.

(** Whatever the visitors add at a visited node is in the result. *)
Lemma walkImports_visits n :
  forall ancestors imports imports' m v,
    traverse enterI leaveI n ancestors imports = Ok imports' ->
    Visited n m -> In v (importsVisitor m []) -> In v imports'.
Proof.
  induction n as [n IH] using node_children_ind.
  intros ancestors imports imports' m v Hrun Hm Hv.
  rewrite traverse_children in Hrun. cbn [bind] in Hrun.
  apply bind_Ok in Hrun as (s2 & H2 & [= <-]).
  apply Visited_inv in Hm as [->|(r & c & Hin & Hvis & Hc)].
  - now apply importsVisitor_from_empty.
  - apply importsVisitor_grows.
    eapply (forEach_establish _ (fun s => In v s) _ (r, c) Hin); [| |exact H2].
    + intros [r' c'] s s' Hin' Hstep Hs. unfold walkChild in Hstep.
      cbn [fst snd] in Hstep.
      destruct (Ast.visited_as r' c'); [|now injection Hstep as <-].
      eapply walkImports_grows; eauto.
    + intros s s' Hstep. unfold walkChild in Hstep. cbn [fst snd] in Hstep.
      rewrite Hvis in Hstep. eapply (IH r c Hin); eauto.
Qed.

End WalkImports.

Lemma extractImports_visits ast m v :
  Visited ast m -> In v (importsVisitor m []) -> In v (extractImports ast).
Proof.
  intros Hm Hv. unfold extractImports, walkImports.
  destruct (walkImports_total ast [] JsSet.empty) as [imports' E].
  rewrite E. eapply walkImports_visits; eauto.
Qed.

(** [extractImports] adds the value of the first argument of every call
    or [new] of [require] that the walk reaches when that argument is a
    literal, whatever the type of the value; [validRequireCall] accepts
    such a call as initialiser only when the value is a string. *)
Lemma extractImports_adds_any_literal ast n v :
  Visited ast n ->
  isRequireOfLiteral n v ->
  In v (extractImports ast) /\
  forall i id,
    validRequireCall (Ast.VariableDeclarator i id (Some n)) = true ->
    is_string v = true.
Proof.
  intros Hn (kind & i & j & k & arguments & ->). split.
  - eapply extractImports_visits; [exact Hn|].
    cbn. now left.
  - intros d id. cbn. rewrite !Bool.andb_true_iff. tauto.
Qed.

(** [const x = require(5);] *)
Example extractImports_require_5 :
  extractImports example_require5_ast = [JNum 5] /\
  validRequireCall example_require5_declarator = false.
Proof. split; reflexivity. Qed.

(** ** Member accesses off a direct [require] call *)

(** The test "member access directly to a require call" asks for a string
    [name] on the first argument, which no literal has: the branch never
    adds anything. *)
Lemma directRequireAccess_of_literal kind i callee k v arguments :
  directRequireAccess (Ast.Call kind i callee (Ast.Literal k v :: arguments))
  = None.
Proof.
  cbn. now rewrite !Bool.andb_false_r.
Qed.

Lemma trackMemberAccess_direct_require kind i j callee k v arguments property
      env memberAccesses :
  trackMemberAccess
    (Ast.MemberExpression j
       (Ast.Call kind i callee (Ast.Literal k v :: arguments)) property)
    env memberAccesses
  = Ok memberAccesses.
Proof.
  unfold trackMemberAccess.
  replace (isType NodeTypes.Identifier (Ast.Call kind i callee _)) with false
    by (destruct kind; reflexivity).
  rewrite Bool.andb_false_r, directRequireAccess_of_literal.
  now destruct (isLiteralOrIdentifier property).
Qed.

(** C1 (the code at the failing input). For [require('m').x;] the set that
    [extractMemberAccesses] returns is empty; the member access [m.x] is not
    recorded. *)
Theorem extractMemberAccesses_direct_require :
  extractMemberAccesses
    (Ast.Program 0
       [Ast.Other 1 "ExpressionStatement"
          [(Ast.Expression,
            Ast.MemberExpression 2
              (Ast.Call Ast.CallExpression 3 (Ast.Identifier 4 "require")
                        [Ast.Literal 5 (JStr "m")])
              (Ast.Identifier 6 "x"))]])
  = Ok [].
Proof. reflexivity. Qed.

(** The same access through a binding is recorded:
    [const v = require('m'); v.x;] *)
Example extractMemberAccesses_through_binding :
  extractMemberAccesses
    (Ast.Program 0
       [Ast.VariableDeclaration 1 "const"
          [Ast.VariableDeclarator 2 (Ast.Identifier 3 "v")
             (Some (Ast.Call Ast.CallExpression 4 (Ast.Identifier 5 "require")
                             [Ast.Literal 6 (JStr "m")]))];
        Ast.Other 7 "ExpressionStatement"
          [(Ast.Expression,
            Ast.MemberExpression 8 (Ast.Identifier 9 "v") (Ast.Identifier 10 "x"))]])
  = Ok [JStr "m.x"].
Proof. reflexivity. Qed.

(** ** Destructuring a [require] call *)

(** [const { x, y } = require('m');] records [m.x] and [m.y]. *)
Example extractMemberAccesses_object_pattern :
  extractMemberAccesses
    (Ast.Program 0
       [Ast.VariableDeclaration 1 "const"
          [Ast.VariableDeclarator 2
             (Ast.ObjectPattern 3
                [Ast.Property 4 (Ast.Identifier 5 "x") (Ast.Identifier 6 "x");
                 Ast.Property 7 (Ast.Identifier 8 "y") (Ast.Identifier 9 "y")])
             (Some (Ast.Call Ast.CallExpression 10 (Ast.Identifier 11 "require")
                             [Ast.Literal 12 (JStr "m")]))]])
  = Ok [JStr "m.x"; JStr "m.y"].
Proof. reflexivity. Qed.

(** The array-pattern branch prints [declarator.init.name], and a call has
    no [name]. *)
Lemma trackDeclaratorAccess_array_from_require env i j elements init module
      memberAccesses :
  patternFromRequire (Some init) = Some module ->
  trackDeclaratorAccess env
    (Ast.VariableDeclarator i (Ast.ArrayPattern j elements) (Some init))
    memberAccesses
  = Ok (addIndices "undefined" (List.length elements) memberAccesses).
Proof.
  intros H. unfold trackDeclaratorAccess. cbn [Ast.id Ast.init deref bind].
  rewrite H.
  destruct init; try discriminate H. reflexivity.
Qed.

(** C3 (the code at the failing input). For [const [a, b] = require('m');]
    [extractMemberAccesses] returns [undefined.0] and [undefined.1], not
    [m.0] and [m.1]. *)
Theorem extractMemberAccesses_array_pattern :
  extractMemberAccesses
    (Ast.Program 0
       [Ast.VariableDeclaration 1 "const"
          [Ast.VariableDeclarator 2
             (Ast.ArrayPattern 3
                [Some (Ast.Identifier 4 "a"); Some (Ast.Identifier 5 "b")])
             (Some (Ast.Call Ast.CallExpression 6 (Ast.Identifier 7 "require")
                             [Ast.Literal 8 (JStr "m")]))]])
  = Ok [JStr "undefined.0"; JStr "undefined.1"].
Proof. reflexivity. Qed.

(** The sibling branch for a module-referencing binding does it:
    [const v = require('m'); const [a, b] = v;] *)
Example extractMemberAccesses_array_pattern_binding :
  extractMemberAccesses
    (Ast.Program 0
       [Ast.VariableDeclaration 1 "const"
          [Ast.VariableDeclarator 2 (Ast.Identifier 3 "v")
             (Some (Ast.Call Ast.CallExpression 4 (Ast.Identifier 5 "require")
                             [Ast.Literal 6 (JStr "m")]))];
        Ast.VariableDeclaration 7 "const"
          [Ast.VariableDeclarator 8
             (Ast.ArrayPattern 9
                [Some (Ast.Identifier 10 "a"); Some (Ast.Identifier 11 "b")])
             (Some (Ast.Identifier 12 "v"))]])
  = Ok [JStr "m.0"; JStr "m.1"].
Proof. reflexivity. Qed.

(** ** Parameters and [inGlobalNamespace] *)

(** A parameter of a function expression or function declaration is not a
    referring use. *)
Lemma inGlobalNamespace_parameter kind i id params body node ancestors :
  kind <> Ast.ArrowFunctionExpression ->
  Ast.includes params node = true ->
  inGlobalNamespace node
    (ancestors ++ [Ast.Function kind i id params body; node]) = false.
Proof.
  intros Hk Hin. unfold inGlobalNamespace, fromEnd.
  rewrite length_app. cbn [List.length].
  replace (2 <=? List.length ancestors + 2)%nat with true
    by (symmetry; apply Nat.leb_le; lia).
  replace (List.length ancestors + 2 - 2)%nat with (List.length ancestors) by lia.
  rewrite nth_error_app2 by lia. rewrite Nat.sub_diag. cbn [nth_error].
  cbn [isPropertyOfMember].
  unfold isParameter. cbn [Ast.params]. rewrite Hin.
  destruct kind; [reflexivity|reflexivity|congruence].
Qed.

(** The test "Argument to a function / method" of [inGlobalNamespace]
    does not list [ArrowFunctionExpression]: asked about the parameter of
    the arrow function in [(process) => {};], with the ancestors that lead
    to it, the function would answer true.  No traversal asks (see
    [called_identifier_is_no_parameter]). *)
Example inGlobalNamespace_arrow_parameter :
  isParameter example_arrow example_parameter = false /\
  inGlobalNamespace example_parameter example_parameter_ancestors = true /\
  isGlobal ["process"] example_parameter
           [mkEnvironment EnvironmentTypes.Program []]
           example_parameter_ancestors
  = Ok true.
Proof. repeat split. Qed.

(** With [function (process) {}] in place of the arrow function the answer
    is false. *)
Example inGlobalNamespace_function_parameter :
  let param := Ast.Identifier 3 "process" in
  let fn := Ast.Function Ast.FunctionExpression 2 None [param]
                         (Ast.BlockStatement 4 []) in
  let statement := Ast.Other 1 "ExpressionStatement" [(Ast.Expression, fn)] in
  let program := Ast.Program 0 [statement] in
  inGlobalNamespace param [program; statement; fn; param] = false.
Proof. reflexivity. Qed.

(** In a traversal the walker hands parameters over as patterns, so
    [trackGlobals] is not asked about them; a reference in an arrow function
    without a block is, and there no function environment binds the
    parameter: [(process) => process;] *)
Example extractGlobals_arrow_expression_body :
  extractGlobals ["process"]
    (Ast.Program 0
       [Ast.Other 1 "ExpressionStatement"
          [(Ast.Expression,
            Ast.Function Ast.ArrowFunctionExpression 2 None
                         [Ast.Identifier 3 "process"]
                         (Ast.Identifier 4 "process"))]])
  = Ok ([JStr "process"], []).
Proof. reflexivity. Qed.

Example extractGlobals_arrow_block_body :
  extractGlobals ["process"]
    (Ast.Program 0
       [Ast.Other 1 "ExpressionStatement"
          [(Ast.Expression,
            Ast.Function Ast.ArrowFunctionExpression 2 None
                         [Ast.Identifier 3 "process"]
                         (Ast.BlockStatement 4 []))]])
  = Ok ([], []).
Proof. reflexivity. Qed.

(** *** Parameters are not handed to the analyses *)

Section CallsFacts.

Local Abbreviation Log := (list (Ast.node * list Ast.node)).
Local Abbreviation logEnter :=
  (fun (node : Ast.node) (ancestors : list Ast.node) (log : Log) =>
     Ok (log ++ [(node, ancestors)])).
Local Abbreviation logLeave := (fun (_ : Ast.node) (log : Log) => Ok log).


Lemma traverse_log_grows m ancestors (log log' : Log) call :
  traverse logEnter logLeave m ancestors log = Ok log' ->
  In call log -> In call log'.
Proof.
  intros Hrun Hcall.
  eapply (traverse_invariant logEnter logLeave (fun l => In call l) m);
    [| |constructor|exact Hcall|exact Hrun].
  - intros ? ? ? ? _ H [= <-]. apply in_or_app. now left.
  - intros ? ? ? _ H [= <-]. exact H.
Qed.

Lemma forEach_log_grows ancestors children (log log' : Log) call :
  forEach (walkChild logEnter logLeave ancestors) children log = Ok log' ->
  In call log -> In call log'.
Proof.
  intros Hrun Hcall. revert Hrun.
  apply (forEach_invariant (fun l : Log => In call l)); [|exact Hcall].
  intros [r c] l l' _ Hl Hstep. unfold walkChild in Hstep.
  cbn [fst snd] in Hstep.
  destruct (Ast.visited_as r c); [|now injection Hstep as <-].
  eapply traverse_log_grows; eauto.
Qed.

Context {S : Type}.
Variable enter enter' : Ast.node -> list Ast.node -> S -> result S.
Variable leave : Ast.node -> S -> result S.

(** The calls are all the calls: two analyses that agree at the calls of
    a traversal give the same result. *)
Lemma traverse_agree m :
  forall ancestors (log log' : Log),
    traverse logEnter logLeave m ancestors log = Ok log' ->
    (forall node ancestors',
        In (node, ancestors') log' ->
        forall s, enter node ancestors' s = enter' node ancestors' s) ->
    forall s,
      traverse enter leave m ancestors s = traverse enter' leave m ancestors s.
Proof.
  induction m as [m IH] using node_children_ind.
  intros ancestors log log' Hrun Hagree s.
  rewrite !traverse_children.
  rewrite traverse_children in Hrun. cbn [bind] in Hrun.
  apply bind_Ok in Hrun as (log2 & H2 & [= <-]).
  rewrite <- (Hagree m (ancestors ++ [m])).
  2:{ eapply forEach_log_grows; [exact H2|]. apply in_or_app. right. now left. }
  destruct (enter m (ancestors ++ [m]) s) as [s1|]; [|reflexivity].
  cbn [bind]. f_equal.
  clear s. revert s1.
  generalize dependent (log ++ [(m, ancestors ++ [m])]).
  induction (Ast.children m) as [|[r c] children IHc]; intros l Hl s;
    [reflexivity|].
  cbn [forEach] in Hl |- *.
  apply bind_Ok in Hl as (l1 & Hstep & Hrest).
  assert (walkChild enter leave (ancestors ++ [m]) (r, c) s
          = walkChild enter' leave (ancestors ++ [m]) (r, c) s) as ->.
  { unfold walkChild in *. cbn [fst snd] in *.
    destruct (Ast.visited_as r c); [|reflexivity].
    apply (IH r c (or_introl eq_refl) _ _ _ Hstep).
    intros node ancestors' Hin. apply Hagree.
    eapply forEach_log_grows; eauto. }
  destruct (walkChild enter' leave (ancestors ++ [m]) (r, c) s) as [s'|];
    [|reflexivity].
  cbn [bind]. apply (IHc (fun r' c' Hin => IH r' c' (or_intror Hin)) l1 Hrest).
Qed.

End CallsFacts.

(** The function [c] of a traversal is called on no node that the walker
    hands over under another type: what an analysis would do at a call
    that is none of [calls] has no influence on the result. *)
Lemma calls_complete {S} (enter enter' : Ast.node -> list Ast.node -> S -> result S)
      leave root s :
  (forall node ancestors,
      In (node, ancestors) (calls root) ->
      forall s, enter node ancestors s = enter' node ancestors s) ->
  traverse enter leave root [] s = traverse enter' leave root [] s.
Proof.
  unfold calls. intros Hagree.
  destruct (traverse _ _ root [] []) as [log|] eqn:Hlog.
  - eapply traverse_agree; eauto.
  - exfalso. revert Hlog.
    assert (forall m ancestors (log : list (Ast.node * list Ast.node)),
               exists log',
                 traverse (fun node ancestors log =>
                             Ok (log ++ [(node, ancestors)]))
                          (fun _ log => Ok log) m ancestors log = Ok log')
      as Htotal.
    { induction m as [m IH] using node_children_ind. intros ancestors log.
      rewrite traverse_children. cbn [bind].
      match goal with
      | |- context [forEach ?f ?l ?s0] =>
          destruct (forEach_total f l) with (s := s0) as [s' ->]
      end.
      - intros [r c] t Hin. unfold walkChild. cbn [fst snd].
        destruct (Ast.visited_as r c); [apply (IH r c Hin)|eauto].
      - cbn. eauto. }
    destruct (Htotal root [] []) as [log' ->]. discriminate.
Qed.





(** The calls of the traversal of [(process) => {};]: the parameter is
    not among them. *)
Example calls_arrow_block_body :
  map (fun call => Ast.nid (fst call)) (calls example_arrow_ast) = [0; 1; 2; 4]
  /\ Ast.nid example_parameter = 3.
Proof. split; reflexivity. Qed.

(** [console.log('hi');] *)
Example extractGlobals_console_log :
  extractGlobals ["console"; "process"]
    (Ast.Program 0
       [Ast.Other 1 "ExpressionStatement"
          [(Ast.Expression,
            Ast.Call Ast.CallExpression 2
              (Ast.MemberExpression 3 (Ast.Identifier 4 "console")
                                    (Ast.Identifier 5 "log"))
              [Ast.Literal 6 (JStr "hi")])]])
  = Ok ([JStr "console"], [JStr "console.log"]).
Proof. reflexivity. Qed.

(** ** Lock files of an unknown version *)

Section UnknownLockfileVersion.

Variable builtinModules globalNames : list string.
Variable buildTree : string -> bool -> option Ast.node.
Variable readFileSync : string -> string.
Variable readdirSync : string -> list Dirent.
Variable path_join : string -> string -> string.
Variable existsSync : string -> bool.

(** C2 (amended). When [lockfileVersion] is none of 1, 2 and 3,
    [getDependencyMap] returns the empty mapping, and
    [getCapabilitiesFromDependencyMap] then extracts capabilities for no
    package at all: both capability maps are empty. *)
Theorem unknown_lockfileVersion_analyses_nothing
        packageJson lockfile rootPath tracing customModules locations :
  lockfileVersion lockfile <> Some (JNum 1) ->
  lockfileVersion lockfile <> Some (JNum 2) ->
  lockfileVersion lockfile <> Some (JNum 3) ->
  getDependencyMap path_join existsSync packageJson lockfile rootPath = Ok [] /\
  (dependencyMap <-
     getDependencyMap path_join existsSync packageJson lockfile rootPath ;;
   getCapabilitiesFromDependencyMap builtinModules globalNames buildTree
     readFileSync readdirSync path_join dependencyMap
     tracing customModules locations)
  = Ok ([], []).
Proof.
  intros H1 H2 H3.
  assert (getDependencyMap path_join existsSync packageJson lockfile rootPath
          = Ok []) as E.
  { unfold getDependencyMap.
    destruct (lockfileVersion lockfile) as [[| |n|]|]; try reflexivity.
    destruct n as [|[[|[]|]|[|[]|]|]]; try reflexivity; congruence. }
  split; [exact E|]. rewrite E. reflexivity.
Qed.

End UnknownLockfileVersion.

(** A lock file of version 4 for the package at [/app]. *)
Lemma unknown_lockfileVersion_analyses_nothing_witness :
  getDependencyMap simple_join (fun _ => true) example_packageJson
                   example_lockfile_v4 "/app"
  = Ok [].
Proof.
  apply (unknown_lockfileVersion_analyses_nothing
           ["fs"; "path"] ["console"] example_buildTree example_readFileSync
           example_readdirSync simple_join (fun _ => true) example_packageJson
           example_lockfile_v4 "/app" (Some true) false false);
    discriminate.
Defined.

(** C2 (as stated, refuted). With a lock file of version 4 the packages for
    which capabilities are extracted are not "exactly the root package":
    both capability maps come out empty, the root [/app] is no key of
    them. *)
Lemma unknown_lockfileVersion_root_not_analysed :
  (dependencyMap <-
     getDependencyMap simple_join (fun _ => true) example_packageJson
                      example_lockfile_v4 "/app" ;;
   capabilities <-
     getCapabilitiesFromDependencyMap ["fs"; "path"] ["console"]
       example_buildTree example_readFileSync example_readdirSync simple_join
       dependencyMap (Some true) false false ;;
   Ok (Dict.keys (fst capabilities), Dict.keys (snd capabilities)))
  = Ok ([], []) /\
  ([] : list string) <> ["/app"].
Proof. split; [reflexivity|discriminate]. Qed.

(** Had the root been a key of the dependency map, it would have been
    analysed. *)
Example root_in_dependencyMap_is_analysed :
  getCapabilitiesFromDependencyMap ["fs"; "path"] ["console"]
    example_buildTree example_readFileSync example_readdirSync simple_join
    [("/app", [EdgePath "/app/node_modules/dep"])] (Some true) false false
  = Ok ([("/app", mkCapabilities [JStr "fs"] [])],
        [("/app", mkCapabilities [JStr "fs.readFile"] [])]).
Proof. reflexivity. Qed.

(** The same lock file marked as version 3 has the root analysed. *)
Example lockfileVersion_3_dependencyMap :
  getDependencyMap simple_join (fun _ => true) (mkPackageJson ["dep"])
    (mkLockfile (Some (JNum 3)) None
                (Some [("", mkLockEntryV2 ["dep"]);
                       ("node_modules/dep", mkLockEntryV2 [])]))
    "/app"
  = Ok [("/app", [EdgePath "/app/node_modules/dep"]);
        ("/app/node_modules/dep", [])].
Proof. reflexivity. Qed.

(** A version 1 lock file with a nested second copy of [dep]. *)
Example lockfileVersion_1_dependencyMap :
  getDependencyMap simple_join (fun _ => true) (mkPackageJson ["lib"])
    (mkLockfile (Some (JNum 1))
       (Some [("dep", mkLockEntryV1 None [] None);
              ("lib", mkLockEntryV1 None ["dep"]
                        (Some [("dep", mkLockEntryV1 None [] None)]))])
       None)
    "/app"
  = Ok [("/app", [EdgePath "/app/node_modules/lib"]);
        ("/app/node_modules/dep", []);
        ("/app/node_modules/lib",
         [EdgePath "/app/node_modules/dep";
          EdgePath "/app/node_modules/lib/node_modules/dep"]);
        ("/app/node_modules/lib/node_modules/dep", [])].
Proof. reflexivity. Qed.

(** A version 1 lock file: a dependency that the lock file does not list
    is read as [undefined], one named as a method of [Object.prototype] is
    read as that method, and either is appended as an element. *)
Example lockfileVersion_1_unguarded_read :
  getDependencyMap simple_join (fun _ => true)
    (mkPackageJson ["missing"; "toString"; "dep"])
    (mkLockfile (Some (JNum 1))
       (Some [("dep", mkLockEntryV1 None [] None)]) None)
    "/app"
  = Ok [("/app", [EdgeUndefined; EdgeInherited "toString";
                  EdgePath "/app/node_modules/dep"]);
        ("/app/node_modules/dep", [])].
Proof. reflexivity. Qed.

(** A version 1 lock file with a package named [__proto__]: its array of
    paths becomes the prototype of [packagePathsMap], through which the
    names [length] and [0] are then found. *)
Example lockfileVersion_1_proto_package :
  getDependencyMap simple_join (fun _ => true)
    (mkPackageJson ["__proto__"; "length"; "0"; "push"])
    (mkLockfile (Some (JNum 1))
       (Some [("__proto__", mkLockEntryV1 None [] None)]) None)
    "/app"
  = Ok [("/app", [EdgePath "/app/node_modules/__proto__"; EdgeLength 1;
                  EdgePath "/app/node_modules/__proto__";
                  EdgeArrayPrototype "push"]);
        ("/app/node_modules/__proto__", [])].
Proof. reflexivity. Qed.

(** A version 3 lock file with a package named [hasOwnProperty]: the
    array of its paths hides the method, and the test of the first
    dependency throws. *)
Example lockfileVersion_3_hasOwnProperty_package :
  getDependencyMap simple_join (fun _ => true) (mkPackageJson ["dep"])
    (mkLockfile (Some (JNum 3)) None
                (Some [("", mkLockEntryV2 ["dep"]);
                       ("node_modules/dep", mkLockEntryV2 []);
                       ("node_modules/hasOwnProperty", mkLockEntryV2 [])]))
    "/app"
  = Throw "TypeError".
Proof. reflexivity. Qed.

(** A version 3 lock file with a package named [__proto__]: the name is
    no own property of [packagePathsMap], and a dependency on it gets no
    edge. *)
Example lockfileVersion_3_proto_package :
  getDependencyMap simple_join (fun _ => true) (mkPackageJson ["__proto__"])
    (mkLockfile (Some (JNum 3)) None
                (Some [("", mkLockEntryV2 ["__proto__"]);
                       ("node_modules/__proto__", mkLockEntryV2 [])]))
    "/app"
  = Ok [("/app", []); ("/app/node_modules/__proto__", [])].
Proof. reflexivity. Qed.


(** ** Environments hold modules that were imported *)

Section EnvKnown.

Variable imports : JsSet.t.

Local Abbreviation known := (envKnown imports).

Lemma moduleKnown_null : moduleKnown imports JNull.
Proof. now left. Qed.

Lemma envKnown_nil : known [].
Proof. intros e v []. Qed.

Lemma envKnown_cons e env :
  (forall v, In v (env_vars e) -> moduleKnown imports (var_module v)) ->
  known env -> known (e :: env).
Proof.
  intros He Henv e' v [<-|Hin] Hv; [now apply He|]. eapply Henv; eauto.
Qed.

Lemma envKnown_inv e env :
  known (e :: env) ->
  (forall v, In v (env_vars e) -> moduleKnown imports (var_module v)) /\
  known env.
Proof.
  intros H. split.
  - intros v Hv. apply (H e v); [now left|exact Hv].
  - intros e' v Hin Hv. apply (H e' v); [now right|exact Hv].
Qed.

Lemma envKnown_tl env : known env -> known (tl env).
Proof.
  destruct env as [|e env]; [auto|]. intros H. now apply envKnown_inv in H.
Qed.

Lemma envKnown_push v e env :
  moduleKnown imports (var_module v) ->
  known (e :: env) -> known (Env.push v e :: env).
Proof.
  intros Hv H. apply envKnown_inv in H as [He Henv].
  apply envKnown_cons; [|exact Henv].
  cbn. intros w Hw. apply in_app_iff in Hw as [Hw|[<-|[]]]; auto.
Qed.

Lemma addVar_known env v env' :
  moduleKnown imports (var_module v) ->
  known env -> Env.addVar env v = Ok env' -> known env'.
Proof.
  intros Hv H. destruct env as [|e env]; cbn; [discriminate|].
  intros [= <-]. now apply envKnown_push.
Qed.

Lemma addVarToFunctionScope_from_known v :
  moduleKnown imports (var_module v) ->
  forall parent e,
    known (e :: parent) -> known (Env.addVarToFunctionScope_from e parent v).
Proof.
  intros Hv. induction parent as [|e' parent IH]; intros e H.
  - cbn. destruct (env_type e); now apply envKnown_push.
  - cbn [Env.addVarToFunctionScope_from].
    destruct (env_type e); try now apply envKnown_push.
    + apply envKnown_inv in H as [He Hp].
      apply envKnown_cons; [exact He|]. now apply IH.
    + apply envKnown_inv in H as [He Hp].
      apply envKnown_cons; [exact He|]. now apply IH.
Qed.

Lemma addVarToFunctionScope_known env v env' :
  moduleKnown imports (var_module v) ->
  known env -> Env.addVarToFunctionScope env v = Ok env' -> known env'.
Proof.
  intros Hv H. destruct env as [|e env]; cbn; [discriminate|].
  intros [= <-]. now apply addVarToFunctionScope_from_known.
Qed.

Lemma lookup_known env name v :
  known env -> Env.lookup env name = Some v ->
  moduleKnown imports (var_module v).
Proof.
  induction env as [|e env IH]; cbn; [discriminate|]. intros H.
  apply envKnown_inv in H as [He Henv].
  destruct (find (Env.named name) (env_vars e)) as [w|] eqn:E.
  - intros [= <-]. apply find_some in E as [Hin _]. auto.
  - auto.
Qed.

(** A module-referencing variable refers to an imported module, by a
    string. *)
Lemma getModRefVarNamed_known env name v :
  known env -> Env.getModRefVarNamed env name = Ok (Some v) ->
  exists s, var_module v = JStr s /\ In (JStr s) imports.
Proof.
  intros H. unfold Env.getModRefVarNamed, Env.getVarNamed.
  destruct env as [|e env]; [discriminate|]. cbn [bind].
  destruct (Env.lookup (e :: env) name) as [w|] eqn:E; [|discriminate].
  unfold jsval_eqb. destruct (jsval_eq_dec (var_module w) JNull) as [|Hne];
    [discriminate|].
  intros [= <-].
  destruct (lookup_known _ _ _ H E) as [|Hs]; [contradiction|exact Hs].
Qed.

Lemma setModule_vars_known vars name m vars' :
  moduleKnown imports m ->
  (forall v, In v vars -> moduleKnown imports (var_module v)) ->
  Env.setModule_vars vars name m = Some vars' ->
  forall v, In v vars' -> moduleKnown imports (var_module v).
Proof.
  intros Hm. revert vars'.
  induction vars as [|w vars IH]; intros vars' H; cbn; [discriminate|].
  destruct (Env.named name w).
  - intros [= <-] v [<-|Hv]; [exact Hm|]. apply H. now right.
  - destruct (Env.setModule_vars vars name m) as [vs|] eqn:E; [|discriminate].
    cbn. intros [= <-] v [<-|Hv].
    + apply H. now left.
    + eapply IH; eauto. intros u Hu. apply H. now right.
Qed.

Lemma setModule_chain_known env name m :
  moduleKnown imports m ->
  forall env', known env -> Env.setModule_chain env name m = Some env' ->
               known env'.
Proof.
  intros Hm. induction env as [|e env IH]; intros env' H; cbn; [discriminate|].
  apply envKnown_inv in H as [He Henv].
  destruct (Env.setModule_vars (env_vars e) name m) as [vars|] eqn:E.
  - intros [= <-]. apply envKnown_cons; [|exact Henv].
    cbn. eapply setModule_vars_known; eauto.
  - destruct (Env.setModule_chain env name m) as [env1|]; [|discriminate].
    cbn. intros [= <-]. apply envKnown_cons; auto.
Qed.

Lemma setModuleOfVarNamed_known env name m env' :
  moduleKnown imports m ->
  known env -> Env.setModuleOfVarNamed env name m = Ok env' -> known env'.
Proof.
  intros Hm H. unfold Env.setModuleOfVarNamed.
  destruct env as [|e env]; [discriminate|].
  destruct (Env.setModule_chain (e :: env) name m) as [env1|] eqn:E;
    [|discriminate].
  cbn. intros [= <-]. eapply setModule_chain_known; eauto.
Qed.

Lemma newVariables_known (names : list string) v :
  In v (map newVariable names) -> moduleKnown imports (var_module v).
Proof.
  intros Hin. apply in_map_iff in Hin as (n & <- & _). apply moduleKnown_null.
Qed.

Lemma trackScope_known node ancestors env env' :
  known env -> trackScope node ancestors env = Ok env' -> known env'.
Proof.
  intros H. unfold trackScope.
  destruct (Ast.type node); try (now intros [= <-]).
  - intros Hrun. apply bind_Ok in Hrun as ([t vars] & Hvars & Hrun).
    destruct env as [|e env]; [discriminate|]. injection Hrun as <-.
    apply envKnown_cons; [|exact H]. cbn.
    assert (forall r, (v <- initialVarsForFunction ancestors ;; Ok (r, v))
                      = Ok (t, vars) ->
                      forall v, In v vars -> moduleKnown imports (var_module v))
      as Hinit.
    { intros r Hr. apply bind_Ok in Hr as (vs & Hvs & [= _ <-]).
      unfold initialVarsForFunction in Hvs.
      apply bind_Ok in Hvs as (fn & _ & Hvs).
      apply bind_Ok in Hvs as (ps & _ & Hvs).
      apply bind_Ok in Hvs as (ids & _ & [= <-]).
      intros v Hv. apply in_map_iff in Hv as (i & <- & _).
      apply moduleKnown_null. }
    destruct (isFunction ancestors); [eapply Hinit; eauto|].
    destruct (isMethod ancestors); [eapply Hinit; eauto|].
    injection Hvars as _ <-. intros v [].
  - intros [= <-]. apply envKnown_cons; [intros v []|apply envKnown_nil].
Qed.

Lemma exitScope_known node env : known env -> known (exitScope node env).
Proof.
  intros H. unfold exitScope. destruct (Ast.type node); auto using envKnown_tl.
Qed.

Lemma trackVars_known node env env' :
  known env -> trackVars node env = Ok env' -> known env'.
Proof.
  intros H. unfold trackVars. destruct node; try (now intros [= <-]).
  - intros Hrun. apply bind_Ok in Hrun as (ids & _ & Hrun).
    destruct (String.eqb kind "var");
      (eapply (forEach_invariant known); [|exact H|exact Hrun]);
      intros i s s' _ Hs Hstep; cbn beta in Hstep.
    + eapply addVarToFunctionScope_known in Hstep; auto. apply moduleKnown_null.
    + eapply addVar_known in Hstep; auto. apply moduleKnown_null.
  - intros Hrun. apply bind_Ok in Hrun as (names & _ & Hrun).
    eapply (forEach_invariant known); [|exact H|exact Hrun].
    intros i s s' _ Hs Hstep; cbn beta in Hstep.
    eapply addVar_known in Hstep; auto. apply moduleKnown_null.
Qed.

End EnvKnown.

(** ** What the recognisers accept *)

Lemma isType_Identifier_inv n :
  isType NodeTypes.Identifier n = true -> exists i s, n = Ast.Identifier i s.
Proof.
  destruct n; try discriminate; eauto;
    match goal with k : _ |- _ => destruct k; discriminate end.
Qed.

Lemma isType_Literal_inv n :
  isType NodeTypes.Literal n = true -> exists i v, n = Ast.Literal i v.
Proof.
  destruct n; try discriminate; eauto;
    match goal with k : _ |- _ => destruct k; discriminate end.
Qed.

Lemma isRequire_name_inv n :
  isRequire (Ast.name n) = true -> exists i, n = Ast.Identifier i "require".
Proof.
  destruct n; try discriminate. cbn. intros H.
  apply String.eqb_eq in H. subst. eauto.
Qed.

Lemma typeofString_inv o :
  typeofString o = true -> exists s, o = Some (JStr s).
Proof. destruct o as [[]|]; try discriminate. eauto. Qed.

Lemma patternFromRequire_inv init module :
  patternFromRequire (Some init) = Some module ->
  exists s, module = JStr s /\ isRequireOfLiteral init (JStr s).
Proof.
  unfold patternFromRequire.
  destruct init; try discriminate. cbn [asCall].
  destruct arguments as [|argument arguments]; [discriminate|].
  destruct (isRequire (Ast.name init)) eqn:Hr; [|discriminate].
  destruct (isType NodeTypes.Literal argument) eqn:Hl; [|discriminate].
  destruct (typeofString (Ast.value argument)) eqn:Hs; [|discriminate].
  cbn [andb]. intros Hv.
  apply isRequire_name_inv in Hr as [j ->].
  apply isType_Literal_inv in Hl as (k & v & ->).
  cbn in Hs, Hv. injection Hv as <-.
  destruct v; try discriminate.
  exists s. split; [reflexivity|]. unfold isRequireOfLiteral. repeat eexists.
Qed.

Lemma validRequireCall_inv d :
  validRequireCall d = true ->
  exists i id init s,
    d = Ast.VariableDeclarator i id (Some init) /\
    firstArgumentValue init = Some (JStr s) /\
    isRequireOfLiteral init (JStr s).
Proof.
  unfold validRequireCall.
  destruct d; cbn [Ast.init Ast.id]; try discriminate.
  destruct init as [init|]; [|discriminate].
  rewrite !Bool.andb_true_iff. intros [_ H].
  destruct init; try discriminate. cbn [asCall] in H.
  rewrite !Bool.andb_true_iff in H. destruct H as [[[Hi Hr] _] H].
  destruct arguments as [|argument arguments]; [discriminate|].
  rewrite !Bool.andb_true_iff in H. destruct H as [Hl Hs].
  apply isRequire_name_inv in Hr as [j ->].
  apply isType_Literal_inv in Hl as (k & v & ->).
  apply typeofString_inv in Hs as [s [= ->]].
  exists nid, d, (Ast.Call kind nid0 (Ast.Identifier j "require")
                           (Ast.Literal k (JStr s) :: arguments)), s.
  repeat split. unfold isRequireOfLiteral. repeat eexists.
Qed.

(** No literal has a [name]: the direct-require branch adds nothing. *)
Lemma directRequireAccess_none object : directRequireAccess object = None.
Proof.
  unfold directRequireAccess.
  destruct (asCall object) as [[callee [|argument arguments]]|]; try reflexivity.
  destruct (isType NodeTypes.Literal argument) eqn:Hl.
  - apply isType_Literal_inv in Hl as (k & v & ->). cbn.
    now rewrite Bool.andb_false_r.
  - now rewrite Bool.andb_false_r.
Qed.

Section VisitedFacts.

Variable root : Ast.node.

Lemma Visited_expression_child n child :
  Visited root n -> In (Ast.Expression, child) (Ast.children n) ->
  Visited root child.
Proof. intros Hn Hin. eapply Visited_child; eauto. Qed.

Lemma Visited_declarator i kind declarations d :
  Visited root (Ast.VariableDeclaration i kind declarations) ->
  In d declarations -> Visited root d.
Proof.
  intros Hn Hin. eapply Visited_expression_child; [exact Hn|].
  cbn. now apply in_map.
Qed.

Lemma Visited_init i kind declarations d init :
  Visited root (Ast.VariableDeclaration i kind declarations) ->
  In d declarations -> Ast.init d = Some init -> Visited root init.
Proof.
  intros Hn Hin Hinit.
  pose proof (Visited_declarator _ _ _ _ Hn Hin) as Hd.
  destruct d; try discriminate. cbn in Hinit. subst.
  eapply Visited_expression_child; [exact Hd|]. cbn. auto.
Qed.

Lemma require_of_literal_imported n v :
  Visited root n -> isRequireOfLiteral n v -> In v (extractImports root).
Proof.
  intros Hn (kind & i & j & k & arguments & ->).
  eapply extractImports_visits; [exact Hn|]. cbn. now left.
Qed.

Lemma import_source_imported i specifiers j s :
  Visited root (Ast.ImportDeclaration i specifiers (Ast.Literal j (JStr s))) ->
  In (JStr s) (extractImports root).
Proof.
  intros Hn. eapply extractImports_visits; [exact Hn|]. cbn. now left.
Qed.

Lemma export_source_imported i declaration specifiers j s :
  Visited root (Ast.ExportNamedDeclaration i declaration specifiers
                  (Some (Ast.Literal j (JStr s)))) ->
  In (JStr s) (extractImports root).
Proof.
  intros Hn. eapply extractImports_visits; [exact Hn|]. cbn. now left.
Qed.

End VisitedFacts.

(** ** Every recorded member access names an imported module *)

Lemma accessKnown_module imports m p :
  In (JStr m) imports -> accessKnown imports (JStr (m ++ "." ++ p)).
Proof. intros H. exists (m ++ "." ++ p)%string. split; [reflexivity|]. left. eauto. Qed.

Lemma accessKnown_undefined imports p :
  accessKnown imports (JStr ("undefined" ++ "." ++ p)).
Proof. exists ("undefined." ++ p)%string. split; [reflexivity|]. right. eauto. Qed.

Lemma accessesKnown_add imports memberAccesses x :
  accessesKnown imports memberAccesses -> accessKnown imports x ->
  accessesKnown imports (JsSet.add memberAccesses x).
Proof.
  intros H Hx y Hy. apply JsSet_add_In in Hy as [Hy| ->]; auto.
Qed.

Lemma fold_left_invariant {A B} (P : A -> Prop) (f : A -> B -> A) l :
  (forall a b, In b l -> P a -> P (f a b)) ->
  forall a, P a -> P (fold_left f l a).
Proof.
  induction l as [|b l IH]; intros H a Ha; cbn; [exact Ha|].
  apply IH; [intros a' b' Hb'; apply H; now right|].
  apply H; [now left|exact Ha].
Qed.

Lemma addProperties_known imports m properties memberAccesses memberAccesses' :
  In (JStr m) imports ->
  accessesKnown imports memberAccesses ->
  addProperties m properties memberAccesses = Ok memberAccesses' ->
  accessesKnown imports memberAccesses'.
Proof.
  intros Hm H Hrun. unfold addProperties in Hrun.
  eapply (forEach_invariant (accessesKnown imports)); [|exact H|exact Hrun].
  intros property s s' _ Hs Hstep. cbn beta in Hstep.
  destruct property; try discriminate; injection Hstep as <-; [|exact Hs].
  apply accessesKnown_add; [exact Hs|]. now apply accessKnown_module.
Qed.

Lemma addIndices_known imports m length memberAccesses :
  In (JStr m) imports \/ m = "undefined" ->
  accessesKnown imports memberAccesses ->
  accessesKnown imports (addIndices m length memberAccesses).
Proof.
  intros Hm H. unfold addIndices.
  apply (fold_left_invariant (accessesKnown imports)); [|exact H].
  intros s i _ Hs. apply accessesKnown_add; [exact Hs|].
  destruct Hm as [Hm| ->];
    [now apply accessKnown_module|apply accessKnown_undefined].
Qed.

Section MemberAccessesKnown.

Variable root : Ast.node.
Hypothesis root_sources : sourcesAreStrings root.

Local Abbreviation imports := (extractImports root).

Lemma trackDeclarator_known i kind declarations d env env' :
  Visited root (Ast.VariableDeclaration i kind declarations) ->
  In d declarations ->
  envKnown imports env -> trackDeclarator d env = Ok env' ->
  envKnown imports env'.
Proof.
  intros Hn Hd H. unfold trackDeclarator.
  destruct (validRequireCall d) eqn:Hv.
  - apply validRequireCall_inv in Hv as (j & id & init & s & -> & Hs & Hr).
    cbn [Ast.id Ast.init deref bind]. rewrite Hs. cbn [deref bind].
    apply setModuleOfVarNamed_known; [|exact H].
    right. exists s. split; [reflexivity|].
    eapply require_of_literal_imported; [|exact Hr].
    eapply Visited_init; eauto.
  - destruct (Ast.init d) as [init|]; [|now intros [= <-]].
    destruct (Ast.id d) as [id|]; [|now intros [= <-]].
    destruct (_ && _); [|now intros [= <-]].
    intros Hrun. apply bind_Ok in Hrun as ([v|] & Hget & Hrun);
      [|now injection Hrun as <-].
    destruct (getModRefVarNamed_known _ _ _ _ H Hget) as (s & Hs & Hin).
    eapply setModuleOfVarNamed_known; [|exact H|exact Hrun].
    right. exists s. split; assumption.
Qed.

Lemma trackModuleReferencingVars_known node env env' :
  Visited root node ->
  envKnown imports env -> trackModuleReferencingVars node env = Ok env' ->
  envKnown imports env'.
Proof.
  intros Hn H. unfold trackModuleReferencingVars.
  destruct node; try (now intros [= <-]).
  - intros Hrun.
    eapply (forEach_invariant (envKnown imports)); [|exact H|exact Hrun].
    intros d s s' Hd Hs Hstep. eapply trackDeclarator_known; eauto.
  - destruct (isType NodeTypes.Literal node) eqn:Hl; [|now intros [= <-]].
    intros Hrun.
    destruct (root_sources _ Hn) as (j & s & ->).
    eapply (forEach_invariant (envKnown imports)); [|exact H|exact Hrun].
    intros specifier t t' _ Ht Hstep. cbn beta in Hstep.
    destruct specifier; try (now injection Hstep as <-).
    cbn [Ast.value deref bind] in Hstep.
    eapply setModuleOfVarNamed_known; [|exact Ht|exact Hstep].
    right. exists s. split; [reflexivity|].
    eapply import_source_imported; eauto.
Qed.

Lemma trackDeclaratorAccess_known i kind declarations d env
      memberAccesses memberAccesses' :
  Visited root (Ast.VariableDeclaration i kind declarations) ->
  In d declarations ->
  envKnown imports env ->
  accessesKnown imports memberAccesses ->
  trackDeclaratorAccess env d memberAccesses = Ok memberAccesses' ->
  accessesKnown imports memberAccesses'.
Proof.
  intros Hn Hd Henv H Hrun. unfold trackDeclaratorAccess in Hrun.
  apply bind_Ok in Hrun as (id & _ & Hrun).
  assert (forall module,
             patternFromRequire (Ast.init d) = Some module ->
             exists s, module = JStr s /\ In (JStr s) imports) as Hreq.
  { intros module Hp. destruct (Ast.init d) as [init|] eqn:Hinit;
      [|discriminate].
    apply patternFromRequire_inv in Hp as (s & -> & Hr).
    exists s. split; [reflexivity|].
    eapply require_of_literal_imported; [|exact Hr]. eapply Visited_init; eauto. }
  destruct id; try (now injection Hrun as <-).
  - destruct (patternFromRequire (Ast.init d)) as [module|] eqn:Hp.
    + destruct (Hreq _ eq_refl) as (s & -> & Hin).
      eapply addProperties_known; eauto.
    + destruct (Ast.init d) as [[]|]; try (now injection Hrun as <-).
      apply bind_Ok in Hrun as ([v|] & Hget & Hrun);
        [|now injection Hrun as <-].
      destruct (getModRefVarNamed_known _ _ _ _ Henv Hget) as (s & Hs & Hin).
      rewrite Hs in Hrun. eapply addProperties_known; eauto.
  - destruct (patternFromRequire (Ast.init d)) as [module|] eqn:Hp.
    + injection Hrun as <-.
      destruct (Ast.init d) as [init|] eqn:Hinit; [|discriminate].
      apply patternFromRequire_inv in Hp as (s & _ & (? & ? & ? & ? & ? & ->)).
      apply addIndices_known; [now right|exact H].
    + destruct (Ast.init d) as [[]|]; try (now injection Hrun as <-).
      apply bind_Ok in Hrun as ([v|] & Hget & Hrun);
        [|now injection Hrun as <-].
      destruct (getModRefVarNamed_known _ _ _ _ Henv Hget) as (s & Hs & Hin).
      rewrite Hs in Hrun. injection Hrun as <-.
      apply addIndices_known; [now left|exact H].
Qed.

Lemma trackMemberAccess_known node env memberAccesses memberAccesses' :
  Visited root node ->
  envKnown imports env ->
  accessesKnown imports memberAccesses ->
  trackMemberAccess node env memberAccesses = Ok memberAccesses' ->
  accessesKnown imports memberAccesses'.
Proof.
  intros Hn Henv H. unfold trackMemberAccess.
  destruct node; try (now intros [= <-]).
  - (* member expression *)
    destruct (_ && _).
    + intros Hrun. apply bind_Ok in Hrun as ([v|] & Hget & Hrun);
        [|now injection Hrun as <-].
      destruct (getModRefVarNamed_known _ _ _ _ Henv Hget) as (s & Hs & Hin).
      rewrite Hs in Hrun. injection Hrun as <-.
      apply accessesKnown_add; [exact H|]. now apply accessKnown_module.
    + rewrite directRequireAccess_none.
      destruct (isLiteralOrIdentifier _); now intros [= <-].
  - (* variable declaration *)
    intros Hrun.
    eapply (forEach_invariant (accessesKnown imports)); [|exact H|exact Hrun].
    intros d s s' Hd Hs Hstep. eapply trackDeclaratorAccess_known; eauto.
  - (* import declaration *)
    destruct (isType NodeTypes.Literal node) eqn:Hl; [|now intros [= <-]].
    intros [= <-].
    destruct (root_sources _ Hn) as (j & s & ->).
    apply (fold_left_invariant (accessesKnown imports)); [|exact H].
    intros acc specifier _ Hacc.
    destruct specifier; try exact Hacc.
    apply accessesKnown_add; [exact Hacc|].
    apply accessKnown_module. eapply import_source_imported; eauto.
  - (* export declaration with a source *)
    destruct source as [source|]; [|now intros [= <-]].
    destruct (isType NodeTypes.Literal source) eqn:Hl; [|now intros [= <-]].
    intros [= <-].
    destruct (root_sources _ Hn) as (j & s & ->).
    apply (fold_left_invariant (accessesKnown imports)); [|exact H].
    intros acc specifier _ Hacc.
    destruct specifier; try exact Hacc.
    apply accessesKnown_add; [exact Hacc|].
    apply accessKnown_module. eapply export_source_imported; eauto.
Qed.

(** What [extractMemberAccesses] returns for a file names only modules
    that [extractImports] returns for the same file. *)
Lemma extractMemberAccesses_known memberAccesses :
  extractMemberAccesses root = Ok memberAccesses ->
  accessesKnown imports memberAccesses.
Proof.
  unfold extractMemberAccesses. intros Hrun.
  apply bind_Ok in Hrun as ([env acc] & Hrun & [= <-]).
  cut (envKnown imports (fst (env, acc)) /\
       accessesKnown imports (snd (env, acc))); [cbn; tauto|].
  eapply (traverse_invariant enterMember leaveMember
            (fun st => envKnown imports (fst st) /\ accessesKnown imports (snd st))
            root) with (n := root) (s := ([], JsSet.empty));
    [| |constructor| |exact Hrun].
  - intros n ancestors [env0 acc0] [env1 acc1] Hn [Henv Hacc] Henter.
    cbn [fst snd] in *. unfold enterMember in Henter.
    apply bind_Ok in Henter as (e1 & H1 & Henter).
    apply bind_Ok in Henter as (e2 & H2 & Henter).
    apply bind_Ok in Henter as (e3 & H3 & Henter).
    apply bind_Ok in Henter as (a1 & H4 & [= <- <-]).
    assert (envKnown imports e3) as He3.
    { eapply trackModuleReferencingVars_known; [exact Hn| |exact H3].
      eapply trackVars_known; [|exact H2].
      eapply trackScope_known; [exact Henv|exact H1]. }
    split; [exact He3|].
    eapply trackMemberAccess_known; [exact Hn|exact He3|exact Hacc|exact H4].
  - intros n [env0 acc0] [env1 acc1] _ [Henv Hacc] [= <- <-].
    split; [now apply exitScope_known|exact Hacc].
  - split; [apply envKnown_nil|intros x []].
Qed.

End MemberAccessesKnown.

(** ** The module of a recorded access *)

Lemma contains_app c a b :
  JsString.contains c (a ++ b) = JsString.contains c a || JsString.contains c b.
Proof.
  induction a as [|x a IH]; cbn; [reflexivity|].
  rewrite IH. now rewrite Bool.orb_assoc.
Qed.

Lemma contains_dot_app a b : JsString.contains "." (a ++ "." ++ b) = true.
Proof.
  rewrite contains_app. cbn. now rewrite Bool.orb_true_r.
Qed.

(** A text before a dot, when it has no dot itself, is determined by the
    whole string. *)
Lemma first_dot c :
  forall a b d,
    JsString.contains "." c = false ->
    (a ++ "." ++ b = c ++ "." ++ d)%string ->
    a = c \/ exists a', a = (c ++ "." ++ a')%string /\ d = (a' ++ "." ++ b)%string.
Proof.
  induction c as [|y c IH]; intros a b d Hc E.
  - destruct a as [|x a]; [now left|right].
    cbn in E. injection E as -> <-. exists a. split; reflexivity.
  - cbn in Hc. apply Bool.orb_false_iff in Hc as [Hy Hc].
    destruct a as [|x a].
    + cbn in E. injection E as <- _. discriminate.
    + cbn in E. injection E as -> E.
      destruct (IH a b d Hc E) as [->|(a' & -> & ->)]; [now left|right].
      exists a'. split; reflexivity.
Qed.

Lemma accessKnown_module_imported imports s :
  accessKnown imports (JStr s) ->
  JsString.contains "." (MemberAccess.module (MemberAccess.fromString s)) = false ->
  MemberAccess.module (MemberAccess.fromString s) <> "undefined" ->
  JsString.contains "." s = true /\
  In (JStr (MemberAccess.module (MemberAccess.fromString s))) imports.
Proof.
  intros (s' & [= <-] & Hs) Hc Hu.
  assert (JsString.contains "." s = true) as Hdot
      by (destruct Hs as [(m & p & _ & ->)|(p & ->)];
          [apply contains_dot_app|apply (contains_dot_app "undefined" p)]).
  split; [exact Hdot|].
  destruct (fromString_parts s Hdot) as (_ & member & _ & Hm & E).
  remember (MemberAccess.module (MemberAccess.fromString s)) as c eqn:Hcdef.
  clear Hcdef.
  destruct Hs as [(m & p & Hin & ->)|(p & ->)].
  - destruct (first_dot c m p member Hc E) as [->|(a' & _ & ->)];
      [exact Hin|].
    rewrite contains_dot_app in Hm. discriminate.
  - destruct (first_dot c "undefined" p member Hc E) as [<-|(a' & Ha & _)];
      [congruence|].
    apply (f_equal (JsString.contains ".")) in Ha.
    rewrite contains_dot_app in Ha. discriminate.
Qed.

(** ** The test for string sources *)

Lemma forEach_steps {A S} (f : A -> S -> result S) l :
  forall s s', forEach f l s = Ok s' ->
  forall x, In x l -> exists s1 s2, f x s1 = Ok s2.
Proof.
  induction l as [|y l IH]; intros s s' Hrun x Hx; [destruct Hx|].
  cbn in Hrun. apply bind_Ok in Hrun as (s1 & H1 & H2).
  destruct Hx as [<-|Hx]; eauto.
Qed.

(** A traversal that returns has entered every visited node without an
    exception. *)
Lemma traverse_entered {S} (enter : Ast.node -> list Ast.node -> S -> result S)
      (leave : Ast.node -> S -> result S) n :
  forall ancestors s s' m,
    traverse enter leave n ancestors s = Ok s' ->
    Visited n m ->
    exists ancestors1 s1 s2, enter m ancestors1 s1 = Ok s2.
Proof.
  induction n as [n IH] using node_children_ind.
  intros ancestors s s' m Hrun Hm.
  rewrite traverse_children in Hrun.
  apply bind_Ok in Hrun as (s1 & H1 & Hrun).
  apply bind_Ok in Hrun as (s2 & H2 & _).
  apply Visited_inv in Hm as [->|(r & c & Hin & Hvis & Hc)]; [eauto|].
  destruct (forEach_steps _ _ _ _ H2 _ Hin) as (t1 & t2 & Hstep).
  unfold walkChild in Hstep. cbn [fst snd] in Hstep. rewrite Hvis in Hstep.
  eapply (IH r c Hin); eauto.
Qed.

Lemma stringSourceb_sound n : stringSourceb n = true -> stringSource n.
Proof.
  assert (forall source,
             isType NodeTypes.Literal source && typeofString (Ast.value source)
             = true -> exists i s, source = Ast.Literal i (JStr s)) as H.
  { intros source Hs. apply Bool.andb_true_iff in Hs as [Hl Hs].
    apply isType_Literal_inv in Hl as (i & v & ->).
    apply typeofString_inv in Hs as [s [= ->]]. eauto. }
  destruct n; cbn; auto. destruct source; auto.
Qed.

Lemma checkSources_sound ast : checkSources ast = true -> sourcesAreStrings ast.
Proof.
  unfold checkSources. intros Hc n Hn.
  destruct (traverse _ _ ast [] tt) as [u|] eqn:Hrun; [|discriminate].
  destruct (traverse_entered _ _ _ _ _ _ _ Hrun Hn) as (a1 & s1 & s2 & He).
  cbn beta in He. apply stringSourceb_sound.
  destruct (stringSourceb n); [reflexivity|discriminate].
Qed.

(** ** Fine modules are coarse modules *)

Lemma JsSet_union_grows a b x : In x a -> In x (JsSet.union a b).
Proof. intros H. apply JsSet_union_In. now left. Qed.

Lemma NATIVE_MODULES_In builtinModules m :
  In (JStr m) (NATIVE_MODULES builtinModules) <-> In m builtinModules.
Proof.
  unfold NATIVE_MODULES. rewrite JsSet_from_In, in_map_iff. split.
  - intros (x & [= ->] & H). exact H.
  - intros H. eauto.
Qed.

Section FineWithinCoarse.

Variable builtinModules globalNames : list string.
Variable buildTree : string -> bool -> option Ast.node.
Variable readFileSync : string -> string.
Variable readdirSync : string -> list Dirent.
Variable path_join : string -> string -> string.

Local Abbreviation AST := (getASTFromPath buildTree readFileSync).
Local Abbreviation files := (jsFilePathsOf readdirSync path_join).
Local Abbreviation NATIVE := (NATIVE_MODULES builtinModules).

(** The modules of every parsed file of the package are among the coarse
    modules, those that are not built in only if custom modules are
    included. *)
Lemma getAccessesForPackage_complete packagePath includeCustomModules locations
      coarse filePath ast v :
  getAccessesForPackage builtinModules globalNames buildTree readFileSync
    readdirSync path_join packagePath includeCustomModules locations = Ok coarse ->
  In filePath (files packagePath) ->
  AST filePath locations = Some ast ->
  In v (extractImports ast) ->
  In v NATIVE \/ includeCustomModules = true ->
  In v (modules coarse).
Proof.
  unfold getAccessesForPackage. intros Hrun Hf Hast Hv Hnative.
  apply bind_Ok in Hrun as ([ms gs] & Hloop & [= <-]). cbn [modules].
  assert (In v ms) as Hms.
  { change (In v (fst (ms, gs))).
    eapply (forEach_establish _ (fun s => In v (fst s)) _ filePath Hf);
      [| |exact Hloop].
    - intros f [m g] [m' g'] _ Hstep Hm. cbn [fst] in *.
      destruct (AST f locations) as [a|]; [|now injection Hstep as <- _].
      apply bind_Ok in Hstep as ([fg gm] & _ & [= <- _]).
      now apply JsSet_union_grows.
    - intros [m g] [m' g'] Hstep. cbn [fst]. rewrite Hast in Hstep.
      apply bind_Ok in Hstep as ([fg gm] & _ & [= <- _]).
      apply JsSet_union_In. now right. }
  destruct includeCustomModules; cbn [negb].
  - exact Hms.
  - apply JsSet_intersection_In. split; [exact Hms|].
    destruct Hnative as [H|H]; [exact H|discriminate].
Qed.

(** The built-in module names are strings. *)
Lemma NATIVE_MODULES_strings v : In v NATIVE -> is_string v = true.
Proof.
  unfold NATIVE_MODULES. rewrite JsSet_from_In, in_map_iff.
  now intros (m & <- & _).
Qed.

(** Without custom modules only built-in modules are coarse modules. *)
Lemma getAccessesForPackage_native packagePath includeCustomModules locations
      coarse v :
  getAccessesForPackage builtinModules globalNames buildTree readFileSync
    readdirSync path_join packagePath includeCustomModules locations = Ok coarse ->
  In v (modules coarse) ->
  includeCustomModules = true \/ In v NATIVE.
Proof.
  unfold getAccessesForPackage. intros Hrun.
  apply bind_Ok in Hrun as ([ms gs] & _ & [= <-]). cbn [modules].
  destruct includeCustomModules; cbn [negb]; [auto|].
  intros H. apply JsSet_intersection_In in H as [_ H]. auto.
Qed.

(** C10 (amended). [extractImports] adds the value of the first argument
    of every call or [new] of [require] that the walk reaches when that
    argument is a literal, whatever the type of the value.  The value is
    among the coarse modules of the package exactly when custom modules are
    included or it is the name of a built-in module; a value that is no
    string, such as the [5] of [require(5)], is there exactly when custom
    modules are included.  [validRequireCall] accepts such a call as
    initialiser only when the value is a string. *)
Theorem require_literal_in_coarse_modules
        packagePath includeCustomModules locations coarse filePath ast n v :
  getAccessesForPackage builtinModules globalNames buildTree readFileSync
    readdirSync path_join packagePath includeCustomModules locations = Ok coarse ->
  In filePath (files packagePath) ->
  AST filePath locations = Some ast ->
  Visited ast n ->
  isRequireOfLiteral n v ->
  In v (extractImports ast) /\
  (In v (modules coarse) <-> includeCustomModules = true \/ In v NATIVE) /\
  (is_string v = false ->
   (In v (modules coarse) <-> includeCustomModules = true)) /\
  (forall i id,
      validRequireCall (Ast.VariableDeclarator i id (Some n)) = true ->
      is_string v = true).
Proof.
  intros Hrun Hfile Hast Hn Hv.
  destruct (extractImports_adds_any_literal ast n v Hn Hv) as [Himport Hvalid].
  assert (In v (modules coarse) <-> includeCustomModules = true \/ In v NATIVE)
    as Hcoarse.
  { split.
    - eapply getAccessesForPackage_native; eauto.
    - intros H. eapply getAccessesForPackage_complete; eauto. tauto. }
  split; [exact Himport|]. split; [exact Hcoarse|]. split; [|exact Hvalid].
  intros Hstring. rewrite Hcoarse. split; [|auto].
  intros [H|H]; [exact H|].
  apply NATIVE_MODULES_strings in H. congruence.
Qed.

Lemma filterNative_sound raw fine x :
  filterNative builtinModules raw = Ok fine -> In x fine ->
  exists s, In (JStr s) raw /\
            x = JStr (MemberAccess.toString (MemberAccess.fromString s)) /\
            In (MemberAccess.module (MemberAccess.fromString s)) builtinModules.
Proof.
  unfold filterNative. intros Hrun Hx.
  apply bind_Ok in Hrun as (parsed & Hparsed & [= <-]).
  apply JsSet_from_In, in_map_iff in Hx as (ma & <- & Hma).
  apply filter_In in Hma as [Hma Hnat].
  apply JsSet_has_In, NATIVE_MODULES_In in Hnat.
  assert (exists s, In (JStr s) raw /\ ma = MemberAccess.fromString s)
    as (s & Hs & ->).
  { cut (In ma [] \/ exists s, In (JStr s) raw /\ ma = MemberAccess.fromString s);
      [intros [[]|H]; exact H|].
    eapply (forEach_invariant
              (fun acc => forall ma, In ma acc ->
                 In ma [] \/ exists s, In (JStr s) raw /\
                                       ma = MemberAccess.fromString s));
      [| |exact Hparsed|exact Hma].
    - intros v acc acc' Hv Hacc Hstep ma' Hma'.
      apply bind_Ok in Hstep as (m & Hm & [= <-]).
      apply in_app_iff in Hma' as [Hma'|[<-|[]]]; [auto|].
      destruct v; try discriminate. injection Hm as <-. right. eauto.
    - intros ? []. }
  eauto.
Qed.

Lemma getMemberAccessesForPackage_sound packagePath locations fine x :
  getMemberAccessesForPackage builtinModules globalNames buildTree readFileSync
    readdirSync path_join packagePath locations = Ok fine ->
  In x (modules fine) ->
  exists s filePath ast memberAccesses,
    x = JStr (MemberAccess.toString (MemberAccess.fromString s)) /\
    In (MemberAccess.module (MemberAccess.fromString s)) builtinModules /\
    In filePath (files packagePath) /\
    AST filePath locations = Some ast /\
    extractMemberAccesses ast = Ok memberAccesses /\
    In (JStr s) memberAccesses.
Proof.
  unfold getMemberAccessesForPackage. intros Hrun Hx.
  apply bind_Ok in Hrun as ([mm gm] & Hloop & Hrun).
  apply bind_Ok in Hrun as (filtered & Hfilter & [= <-]). cbn [modules] in Hx.
  destruct (filterNative_sound _ _ _ Hfilter Hx) as (s & Hs & -> & Hnat).
  assert (exists filePath ast memberAccesses,
             In filePath (files packagePath) /\
             AST filePath locations = Some ast /\
             extractMemberAccesses ast = Ok memberAccesses /\
             In (JStr s) memberAccesses) as (f & ast & acc & H).
  { cut (In (JStr s) JsSet.empty \/
         exists filePath ast memberAccesses,
           In filePath (files packagePath) /\
           AST filePath locations = Some ast /\
           extractMemberAccesses ast = Ok memberAccesses /\
           In (JStr s) memberAccesses); [intros [[]|H]; exact H|].
    eapply (forEach_invariant
              (fun st : JsSet.t * JsSet.t =>
                 In (JStr s) (fst st) ->
                 In (JStr s) JsSet.empty \/
                 exists filePath ast memberAccesses,
                   In filePath (files packagePath) /\
                   AST filePath locations = Some ast /\
                   extractMemberAccesses ast = Ok memberAccesses /\
                   In (JStr s) memberAccesses));
      [| |exact Hloop|exact Hs].
    - intros f [m g] [m' g'] Hf Hst Hstep Hin. cbn [fst] in *.
      destruct (AST f locations) as [a|] eqn:Ha;
        [|injection Hstep as <- _; auto].
      apply bind_Ok in Hstep as (fm & Hfm & Hstep).
      apply bind_Ok in Hstep as ([fg fgm] & _ & [= <- _]).
      apply JsSet_union_In in Hin as [Hin|Hin]; [auto|].
      right. exists f, a, fm. auto.
    - cbn. auto. }
  exists s, f, ast, acc. tauto.
Qed.

(** The built-in module names have no dot and [undefined] is none of
    them, and the parser gives import and export declarations a string
    literal as source. *)
Hypothesis builtin_without_dot :
  forall m, In m builtinModules -> JsString.contains "." m = false.
Hypothesis undefined_not_builtin : ~ In "undefined" builtinModules.
Hypothesis parser_sources :
  forall content locations ast,
    buildTree content locations = Some ast -> sourcesAreStrings ast.

(** C6. For a package analysed with member tracing, every element of the
    fine module-member set is a string [m.x] whose module [m], the text
    before its last dot, is an element of the coarse module set computed
    over the same files, whether custom modules are included or not. *)
Theorem fine_modules_within_coarse
        packagePath includeCustomModules locations coarse fine x :
  getAccessesForPackage builtinModules globalNames buildTree readFileSync
    readdirSync path_join packagePath includeCustomModules locations = Ok coarse ->
  getMemberAccessesForPackage builtinModules globalNames buildTree readFileSync
    readdirSync path_join packagePath locations = Ok fine ->
  In x (modules fine) ->
  exists m member,
    x = JStr (m ++ "." ++ member) /\
    JsString.contains "." member = false /\
    In (JStr m) (modules coarse).
Proof.
  intros Hcoarse Hfine Hx.
  destruct (getMemberAccessesForPackage_sound _ _ _ _ Hfine Hx)
    as (s & f & ast & acc & -> & Hnat & Hf & Hast & Hacc & Hs).
  assert (sourcesAreStrings ast) as Hsrc.
  { unfold getASTFromPath in Hast. eapply parser_sources; exact Hast. }
  pose proof (extractMemberAccesses_known ast Hsrc acc Hacc _ Hs) as Hknown.
  destruct (accessKnown_module_imported _ _ Hknown (builtin_without_dot _ Hnat))
    as [Hdot Himp].
  { intros E. rewrite E in Hnat. contradiction. }
  destruct (fromString_parts s Hdot) as (Hrt & member & _ & Hm & E).
  exists (MemberAccess.module (MemberAccess.fromString s)), member.
  split; [now rewrite Hrt, <- E|]. split; [exact Hm|].
  eapply getAccessesForPackage_complete; eauto.
  left. now apply NATIVE_MODULES_In.
Qed.

End FineWithinCoarse.

(** A package at [/app] whose one file is [const x = require(5);],
    analysed with custom modules included. *)
Lemma require_literal_in_coarse_modules_witness :
  In (JNum 5) (extractImports example_require5_ast) /\
  (In (JNum 5) [JNum 5]
   <-> true = true \/ In (JNum 5) (NATIVE_MODULES ["fs"; "path"])).
Proof.
  destruct (require_literal_in_coarse_modules
              ["fs"; "path"] ["console"] example_require5_buildTree
              example_require5_readFileSync example_readdirSync simple_join
              "/app" true false (mkCapabilities [JNum 5] [])
              "/app/index.js" example_require5_ast example_require5 (JNum 5))
    as (Himport & Hcoarse & _).
  - reflexivity.
  - cbn. auto.
  - reflexivity.
  - apply Visited_child with (n := example_require5_declarator)
                             (r := Ast.Expression);
      [|cbn; auto|reflexivity].
    apply Visited_child
      with (n := Ast.VariableDeclaration 1 "const" [example_require5_declarator])
           (r := Ast.Expression); [|cbn; auto|reflexivity].
    apply Visited_child with (n := example_require5_ast) (r := Ast.Expression);
      [constructor|cbn; auto|reflexivity].
  - unfold isRequireOfLiteral, example_require5. repeat eexists.
  - split; [exact Himport|exact Hcoarse].
Defined.

(** C10 (as stated, refuted). The same package analysed as [main] does
    without the option for custom modules: [require(5)] puts [5] among the
    imports of the file, and the coarse module set of the package is
    empty. *)
Lemma require_5_not_in_coarse_modules :
  In (JNum 5) (extractImports example_require5_ast) /\
  getAccessesForPackage ["fs"; "path"] ["console"] example_require5_buildTree
    example_require5_readFileSync example_readdirSync simple_join
    "/app" false false
  = Ok (mkCapabilities [] []) /\
  ~ In (JNum 5) (modules (mkCapabilities [] [])).
Proof.
  split; [cbn; auto|]. split; [reflexivity|]. intros [].
Qed.

(** The package of the examples, with [fs] and [path] built in. *)
Lemma fine_modules_within_coarse_witness :
  getMemberAccessesForPackage ["fs"; "path"] ["console"] example_buildTree
    example_readFileSync example_readdirSync simple_join "/app" false
  = Ok (mkCapabilities [JStr "fs.readFile"] []) /\
  exists m member,
    JStr "fs.readFile" = JStr (m ++ "." ++ member) /\
    JsString.contains "." member = false /\
    In (JStr m) [JStr "fs"].
Proof.
  split; [reflexivity|].
  apply (fine_modules_within_coarse ["fs"; "path"] ["console"] example_buildTree
           example_readFileSync example_readdirSync simple_join)
    with (packagePath := "/app") (includeCustomModules := false)
         (locations := false) (coarse := mkCapabilities [JStr "fs"] [])
         (fine := mkCapabilities [JStr "fs.readFile"] []).
  - intros m [<-|[<-|[]]]; reflexivity.
  - intros [H|[H|[]]]; discriminate.
  - intros content locations ast. unfold example_buildTree.
    destruct (String.eqb content _); [|discriminate].
    intros [= <-]. apply checkSources_sound. reflexivity.
  - reflexivity.
  - reflexivity.
  - now left.
Defined.

(** Files with other source texts would not parse here; with custom modules
    included the coarse set is the same for this package. *)
Example example_package_coarse :
  getAccessesForPackage ["fs"; "path"] ["console"] example_buildTree
    example_readFileSync example_readdirSync simple_join "/app" true false
  = Ok (mkCapabilities [JStr "fs"] []).
Proof. reflexivity. Qed.

(** ** The entries of a policy do not depend on the order of the packages *)

Lemma sorted_set_of_unique l l' (P Q : jsval -> Prop) :
  sorted_set_of l P -> sorted_set_of l' Q ->
  (forall x, P x <-> Q x) ->
  (forall x, P x -> is_string x = true) ->
  l = l'.
Proof.
  intros (Hs & Hn & Hm) (Hs' & Hn' & Hm') HPQ Hstr.
  apply sorted_perm_unique; auto.
  - apply Forall_forall. intros x Hx. apply Hstr, Hm, Hx.
  - apply NoDup_Permutation; auto.
    intros x. rewrite Hm, Hm'. apply HPQ.
Qed.

Section PackageOrder.

Variable rootPath : string.
Variable rootPackageName : option string.

Local Abbreviation nameOf := (packageNameOf rootPath rootPackageName).
Local Abbreviation keyOf := (fun p => template_opt (nameOf p)).
Local Abbreviation granular := (createGranularPolicy rootPath rootPackageName).

Lemma sorted_set_of_ext l (P Q : jsval -> Prop) :
  (forall x, P x <-> Q x) -> sorted_set_of l P -> sorted_set_of l Q.
Proof.
  intros H (Hs & Hn & Hm). repeat split; auto; intros Hx.
  - apply H, Hm, Hx.
  - apply Hm, H, Hx.
Qed.

Lemma sort_sorted_set l :
  NoDup l -> sorted_set_of (sort l) (fun x => In x l).
Proof.
  intros H. repeat split; auto using sort_sorted, sort_NoDup;
    apply sort_In.
Qed.

Lemma union_sorted_set old c (P : jsval -> Prop) :
  sorted_set_of old P ->
  sorted_set_of (sort (JsSet.union (JsSet.from old) c))
                (fun x => P x \/ In x c).
Proof.
  intros (_ & _ & Hm). repeat split.
  - apply sort_sorted.
  - apply sort_NoDup, JsSet_union_NoDup.
  - rewrite sort_In, JsSet_union_In, JsSet_from_In, Hm. tauto.
  - rewrite sort_In, JsSet_union_In, JsSet_from_In, Hm. tauto.
Qed.

(** What [createGranularPolicy] holds under a key other than
    [__proto__]: nothing when no path has the key, and otherwise the
    ascending duplicate-free arrays of all modules and of all globals of
    the paths with the key. *)
Lemma createGranularPolicy_entries caps :
  (forall p c, In (p, c) caps -> nameOf p <> None) ->
  duplicateFree caps ->
  forall k,
    k <> "__proto__" ->
    match Dict.get (JsObject.own (granular caps)) k with
    | Some e =>
        sorted_set_of (modules e) (modulesUnder keyOf caps k) /\
        sorted_set_of (globals e) (globalsUnder keyOf caps k)
    | None => forall p c, In (p, c) caps -> keyOf p <> k
    end.
Proof.
  induction caps as [|[p c] caps IH] using rev_ind;
    intros Hnames Hdup k Hproto.
  - cbn. intros p c [].
  - unfold createGranularPolicy in *. rewrite fold_left_app. cbn [fold_left].
    assert (forall p c, In (p, c) caps -> nameOf p <> None) as Hnames'
        by (intros p' c' Hin; apply (Hnames p' c'), in_app_iff; auto).
    assert (duplicateFree caps) as Hdup'
        by (intros p' c' Hin; apply (Hdup p' c'), in_app_iff; auto).
    specialize (IH Hnames' Hdup' k Hproto).
    set (policy := fold_left (addToPolicy rootPath rootPackageName) caps
                             JsObject.empty) in *.
    destruct (Hdup p c) as [Hdm Hdg]; [apply in_app_iff; right; now left|].
    destruct (String.string_dec (keyOf p) k) as [Hk|Hk].
    + destruct (nameOf p) as [n|] eqn:Hn;
        [|exfalso; apply (Hnames p c); [apply in_app_iff; right; now left|exact Hn]].
      cbn [template_opt] in Hk. subst n.
      destruct (Dict.get (JsObject.own policy) k) as [old|] eqn:Hget.
      * rewrite (addToPolicy_again _ _ _ p c k old Hn Hget).
        destruct IH as [IHm IHg]. cbn [modules globals].
        split; (eapply sorted_set_of_ext; [|apply union_sorted_set; eassumption]);
          intros x; unfold modulesUnder, globalsUnder; split.
        -- intros [(p' & c' & Hin & Hk' & Hx)|Hx].
           ++ exists p', c'. rewrite in_app_iff. auto.
           ++ exists p, c. rewrite in_app_iff, Hn. cbn. auto.
        -- intros (p' & c' & Hin & Hk' & Hx).
           apply in_app_iff in Hin as [Hin|[[= <- <-]|[]]]; [left|right]; eauto.
        -- intros [(p' & c' & Hin & Hk' & Hx)|Hx].
           ++ exists p', c'. rewrite in_app_iff. auto.
           ++ exists p, c. rewrite in_app_iff, Hn. cbn. auto.
        -- intros (p' & c' & Hin & Hk' & Hx).
           apply in_app_iff in Hin as [Hin|[[= <- <-]|[]]]; [left|right]; eauto.
      * rewrite (addToPolicy_first _ _ _ p c k Hn Hproto Hget).
        cbn [modules globals].
        split; (eapply sorted_set_of_ext; [|apply sort_sorted_set; eassumption]);
          intros x; unfold modulesUnder, globalsUnder; split.
        -- intros Hx. exists p, c. rewrite in_app_iff, Hn. cbn. auto.
        -- intros (p' & c' & Hin & Hk' & Hx).
           apply in_app_iff in Hin as [Hin|[[= <- <-]|[]]]; [|exact Hx].
           exfalso. exact (IH p' c' Hin Hk').
        -- intros Hx. exists p, c. rewrite in_app_iff, Hn. cbn. auto.
        -- intros (p' & c' & Hin & Hk' & Hx).
           apply in_app_iff in Hin as [Hin|[[= <- <-]|[]]]; [|exact Hx].
           exfalso. exact (IH p' c' Hin Hk').
    + rewrite addToPolicy_other by exact Hk.
      destruct (Dict.get (JsObject.own policy) k) as [old|].
      * destruct IH as [IHm IHg].
        split; (eapply sorted_set_of_ext; [|eassumption]);
          intros x; unfold modulesUnder, globalsUnder; split.
        -- intros (p' & c' & Hin & Hk' & Hx). exists p', c'.
           rewrite in_app_iff. auto.
        -- intros (p' & c' & Hin & Hk' & Hx).
           apply in_app_iff in Hin as [Hin|[[= <- <-]|[]]]; [eauto|contradiction].
        -- intros (p' & c' & Hin & Hk' & Hx). exists p', c'.
           rewrite in_app_iff. auto.
        -- intros (p' & c' & Hin & Hk' & Hx).
           apply in_app_iff in Hin as [Hin|[[= <- <-]|[]]]; [eauto|contradiction].
      * intros p' c' Hin. apply in_app_iff in Hin as [Hin|[[= <- <-]|[]]];
          [eauto|exact Hk].
Qed.

Lemma fold_addToPolicy_keys caps k :
  forall policy,
    In k (JsObject.keys
            (fold_left (addToPolicy rootPath rootPackageName) caps policy)) ->
    In k (JsObject.keys policy) \/ exists p c, In (p, c) caps /\ keyOf p = k.
Proof.
  induction caps as [|[p c] caps IH]; intros policy; cbn [fold_left].
  - auto.
  - intros H. apply IH in H as [H|(p' & c' & Hin & Hk)].
    + apply addToPolicy_keys in H as [H|H]; [auto|].
      right. exists p, c. split; [now left|now symmetry].
    + right. exists p', c'. split; [now right|exact Hk].
Qed.

Lemma createGranularPolicy_keys caps k :
  In k (JsObject.keys (granular caps)) ->
  exists p c, In (p, c) caps /\ keyOf p = k.
Proof.
  unfold createGranularPolicy. intros H.
  apply fold_addToPolicy_keys in H as [[]|H]. exact H.
Qed.

Lemma createGranularPolicy_entry_order caps caps' :
  (forall p c, In (p, c) caps -> nameOf p <> None) ->
  duplicateFree caps ->
  Forall (fun e => all_strings (snd e)) caps ->
  Permutation caps caps' ->
  forall k, Dict.get (JsObject.own (granular caps)) k
            = Dict.get (JsObject.own (granular caps')) k.
Proof.
  intros Hnames Hdup Hstr Hperm k.
  destruct (String.string_dec k "__proto__") as [->|Hproto].
  { pose proof (createGranularPolicy_no_proto rootPath rootPackageName caps)
      as H1.
    pose proof (createGranularPolicy_no_proto rootPath rootPackageName caps')
      as H2.
    unfold JsObject.keys in H1, H2. rewrite Dict_keys_get in H1, H2.
    destruct (Dict.get (JsObject.own (granular caps)) "__proto__");
      [exfalso; apply H1; discriminate|].
    destruct (Dict.get (JsObject.own (granular caps')) "__proto__");
      [exfalso; apply H2; discriminate|reflexivity]. }
  assert (forall e, In e caps <-> In e caps') as Hin
      by (intros e; split; apply Permutation_in;
          [exact Hperm|apply Permutation_sym, Hperm]).
  assert (forall p c, In (p, c) caps' -> nameOf p <> None) as Hnames'
      by (intros p c H; apply (Hnames p c), Hin, H).
  assert (duplicateFree caps') as Hdup'
      by (intros p c H; apply (Hdup p c), Hin, H).
  pose proof (createGranularPolicy_entries caps Hnames Hdup k Hproto) as H1.
  pose proof (createGranularPolicy_entries caps' Hnames' Hdup' k Hproto) as H2.
  rewrite Forall_forall in Hstr.
  destruct (Dict.get (JsObject.own (granular caps)) k) as [e|] eqn:E1;
    destruct (Dict.get (JsObject.own (granular caps')) k) as [e'|] eqn:E2.
  - destruct H1 as [Hm Hg], H2 as [Hm' Hg'].
    destruct e as [m g], e' as [m' g']. cbn [modules globals] in *.
    f_equal. f_equal.
    + eapply sorted_set_of_unique; [exact Hm|exact Hm'| |].
      * intros x. unfold modulesUnder.
        split; intros (p & c & Hpc & Hk & Hx); exists p, c;
          (split; [apply Hin, Hpc|auto]).
      * intros x (p & c & Hpc & _ & Hx).
        destruct (Hstr _ Hpc) as [Hs _]. cbn in Hs.
        rewrite Forall_forall in Hs. auto.
    + eapply sorted_set_of_unique; [exact Hg|exact Hg'| |].
      * intros x. unfold globalsUnder.
        split; intros (p & c & Hpc & Hk & Hx); exists p, c;
          (split; [apply Hin, Hpc|auto]).
      * intros x (p & c & Hpc & _ & Hx).
        destruct (Hstr _ Hpc) as [_ Hs]. cbn in Hs.
        rewrite Forall_forall in Hs. auto.
  - exfalso.
    assert (In k (JsObject.keys (granular caps))) as Hkey
        by (apply Dict_keys_get; congruence).
    apply createGranularPolicy_keys in Hkey as (p & c & Hpc & Hk).
    apply (H2 p c); [apply Hin, Hpc|exact Hk].
  - exfalso.
    assert (In k (JsObject.keys (granular caps'))) as Hkey
        by (apply Dict_keys_get; congruence).
    apply createGranularPolicy_keys in Hkey as (p & c & Hpc & Hk).
    apply (H1 p c); [apply Hin, Hpc|exact Hk].
  - reflexivity.
Qed.

(** X28. Taking the packages in another order leaves the set of keys of
    the policy object and the entry under every key as they are. *)
Theorem createGranularPolicy_package_order caps caps' :
  (forall p c, In (p, c) caps -> nameOf p <> None) ->
  duplicateFree caps ->
  Forall (fun e => all_strings (snd e)) caps ->
  Permutation caps caps' ->
  Permutation (JsObject.keys (granular caps)) (JsObject.keys (granular caps'))
  /\
  forall k, Dict.get (JsObject.own (granular caps)) k
            = Dict.get (JsObject.own (granular caps')) k.
Proof.
  intros Hnames Hdup Hstr Hperm.
  pose proof (createGranularPolicy_entry_order caps caps'
                Hnames Hdup Hstr Hperm) as Hget.
  split; [|exact Hget].
  apply NoDup_Permutation.
  - apply fold_addToPolicy_NoDup. constructor.
  - apply fold_addToPolicy_NoDup. constructor.
  - intros k. unfold JsObject.keys. now rewrite !Dict_keys_get, Hget.
Qed.

End PackageOrder.

(** ** The environment chain during a traversal *)

(** The analyses add variables and set modules in the environments that
    exist; only [trackScope] creates one and only the end of a block drops
    one.  So the types along the chain are a stack: what a subtree leaves
    has the shape of what it found, and the tail that the end of a block
    keeps is the chain of the environments that were there before it. *)
Lemma addVar_shape env v env' :
  Env.addVar env v = Ok env' -> map env_type env' = map env_type env.
Proof. destruct env as [|e env]; cbn; [discriminate|]. now intros [= <-]. Qed.

Lemma addVarToFunctionScope_from_shape v parent :
  forall e,
    map env_type (Env.addVarToFunctionScope_from e parent v)
    = map env_type (e :: parent).
Proof.
  induction parent as [|e' parent IH]; intros e;
    cbn [Env.addVarToFunctionScope_from].
  - destruct (env_type e); reflexivity.
  - destruct (env_type e) eqn:E; try reflexivity;
      cbn [map]; rewrite IH; reflexivity.
Qed.

Lemma addVarToFunctionScope_shape env v env' :
  Env.addVarToFunctionScope env v = Ok env' ->
  map env_type env' = map env_type env.
Proof.
  destruct env as [|e env]; cbn; [discriminate|].
  intros [= <-]. apply addVarToFunctionScope_from_shape.
Qed.

Lemma setModule_chain_shape name m env :
  forall env', Env.setModule_chain env name m = Some env' ->
               map env_type env' = map env_type env.
Proof.
  induction env as [|e env IH]; intros env'; cbn; [discriminate|].
  destruct (Env.setModule_vars (env_vars e) name m).
  - now intros [= <-].
  - destruct (Env.setModule_chain env name m) as [chain|]; [|discriminate].
    cbn. intros [= <-]. cbn. f_equal. now apply IH.
Qed.

Lemma setModuleOfVarNamed_shape env name m env' :
  Env.setModuleOfVarNamed env name m = Ok env' ->
  map env_type env' = map env_type env.
Proof.
  unfold Env.setModuleOfVarNamed. destruct env as [|e env]; [discriminate|].
  destruct (Env.setModule_chain (e :: env) name m) eqn:E; [|discriminate].
  cbn [deref]. intros [= <-]. exact (setModule_chain_shape _ _ _ _ E).
Qed.

Lemma forEach_shape {A} (f : A -> Env -> result Env) l :
  (forall x env env', f x env = Ok env' ->
                      map env_type env' = map env_type env) ->
  forall env env', forEach f l env = Ok env' ->
                   map env_type env' = map env_type env.
Proof.
  intros Hf env env' Hrun.
  eapply (forEach_invariant (fun e => map env_type e = map env_type env));
    [|reflexivity|exact Hrun].
  intros x s s' _ Hs Hstep. cbn beta. rewrite <- Hs. eauto.
Qed.

Lemma trackVars_shape node env env' :
  trackVars node env = Ok env' -> map env_type env' = map env_type env.
Proof.
  unfold trackVars. destruct node; try (now intros [= <-]).
  - intros Hrun. apply bind_Ok in Hrun as (ids & _ & Hrun).
    destruct (String.eqb kind "var");
      (eapply forEach_shape; [|exact Hrun]); cbn beta;
      eauto using addVarToFunctionScope_shape, addVar_shape.
  - intros Hrun. apply bind_Ok in Hrun as (names & _ & Hrun).
    eapply forEach_shape; [|exact Hrun]; cbn beta; eauto using addVar_shape.
Qed.

Lemma trackDeclarator_shape d env env' :
  trackDeclarator d env = Ok env' -> map env_type env' = map env_type env.
Proof.
  unfold trackDeclarator. destruct (validRequireCall d).
  - intros Hrun.
    apply bind_Ok in Hrun as (id & _ & Hrun).
    apply bind_Ok in Hrun as (init & _ & Hrun).
    apply bind_Ok in Hrun as (module & _ & Hrun).
    eapply setModuleOfVarNamed_shape; eauto.
  - destruct (Ast.init d) as [init|]; [|now intros [= <-]].
    destruct (Ast.id d) as [id|]; [|now intros [= <-]].
    destruct (_ && _); [|now intros [= <-]].
    intros Hrun. apply bind_Ok in Hrun as ([v|] & _ & Hrun);
      [|now injection Hrun as <-].
    eapply setModuleOfVarNamed_shape; eauto.
Qed.

Lemma trackModuleReferencingVars_shape node env env' :
  trackModuleReferencingVars node env = Ok env' ->
  map env_type env' = map env_type env.
Proof.
  unfold trackModuleReferencingVars. destruct node; try (now intros [= <-]).
  - apply forEach_shape. apply trackDeclarator_shape.
  - destruct (isType NodeTypes.Literal node); [|now intros [= <-]].
    apply forEach_shape. intros specifier s s' Hstep.
    destruct specifier; try (now injection Hstep as <-).
    apply bind_Ok in Hstep as (module & _ & Hstep).
    eapply setModuleOfVarNamed_shape; eauto.
Qed.

(** Below the root, what [trackScope] puts on the chain is what the end of
    [c] takes off. *)
Lemma trackScope_exitScope node ancestors env env' :
  Ast.type node <> NodeTypes.Program ->
  trackScope node ancestors env = Ok env' -> exitScope node env' = env.
Proof.
  intros Hp. unfold trackScope, exitScope.
  destruct (Ast.type node); try congruence; try (now intros [= <-]).
  intros Hrun. apply bind_Ok in Hrun as ([t vars] & _ & Hrun).
  destruct env as [|e env]; [discriminate|]. now injection Hrun as <-.
Qed.

Lemma exitScope_shape node env1 env2 :
  map env_type env1 = map env_type env2 ->
  map env_type (exitScope node env1) = map env_type (exitScope node env2).
Proof.
  intros H. unfold exitScope. destruct (Ast.type node); auto.
  destruct env1, env2; cbn in *; congruence.
Qed.

Section EnvShape.

Context {S : Type}.
Variable envOf : S -> Env.
Variable enter : Ast.node -> list Ast.node -> S -> result S.
Variable leave : Ast.node -> S -> result S.

Hypothesis enter_shape :
  forall n ancestors s s',
    enter n ancestors s = Ok s' ->
    exists env, trackScope n ancestors (envOf s) = Ok env /\
                map env_type (envOf s') = map env_type env.
Hypothesis leave_env :
  forall n s s', leave n s = Ok s' -> envOf s' = exitScope n (envOf s).

(** A subtree without a [Program] node leaves the chain in the shape in
    which it found it. *)
Lemma traverse_shape n :
  (forall m, Visited n m -> Ast.type m <> NodeTypes.Program) ->
  forall ancestors s s',
    traverse enter leave n ancestors s = Ok s' ->
    map env_type (envOf s') = map env_type (envOf s).
Proof.
  induction n as [n IH] using node_children_ind.
  intros Hn ancestors s s' Hrun.
  rewrite traverse_children in Hrun.
  apply bind_Ok in Hrun as (s1 & H1 & Hrun).
  apply bind_Ok in Hrun as (s2 & H2 & H3).
  apply enter_shape in H1 as (env & Hscope & H1).
  apply trackScope_exitScope in Hscope; [|apply Hn, Visited_root].
  apply leave_env in H3. rewrite H3, <- Hscope.
  apply exitScope_shape. rewrite <- H1.
  eapply (forEach_invariant
            (fun t => map env_type (envOf t) = map env_type (envOf s1)));
    [|reflexivity|exact H2].
  intros [r c] t t' Hin Ht. unfold walkChild. cbn [fst snd].
  destruct (Ast.visited_as r c) eqn:E; [|now intros [= <-]].
  intros Hc. rewrite <- Ht. apply (IH r c Hin) in Hc; [exact Hc|].
  intros m Hm. apply Hn. eapply Visited_trans; [|exact Hm].
  eapply Visited_child; [apply Visited_root|exact Hin|exact E].
Qed.

End EnvShape.

(** X11. The environments of [extractMemberAccesses] are a stack:
    whatever a subtree without a [Program] node does, it leaves the chain
    of environments with the types it found, so the end of a block returns
    to the environment that was current before the block. *)
Lemma extractMemberAccesses_env_shape n ancestors st st' :
  (forall m, Visited n m -> Ast.type m <> NodeTypes.Program) ->
  traverse enterMember leaveMember n ancestors st = Ok st' ->
  map env_type (fst st') = map env_type (fst st).
Proof.
  intros Hn. apply (traverse_shape fst); [| |exact Hn].
  - intros k anc [env acc] s' Hrun. unfold enterMember in Hrun.
    apply bind_Ok in Hrun as (env1 & H1 & Hrun).
    apply bind_Ok in Hrun as (env2 & H2 & Hrun).
    apply bind_Ok in Hrun as (env3 & H3 & Hrun).
    apply bind_Ok in Hrun as (acc' & _ & [= <-]).
    exists env1. split; [exact H1|]. cbn [fst].
    apply trackModuleReferencingVars_shape in H3.
    apply trackVars_shape in H2. congruence.
  - now intros k s s' [= <-].
Qed.

(** The chain of [findGlobalsInAST]. *)
Lemma extractGlobals_env_shape globalNames n ancestors st st' :
  (forall m, Visited n m -> Ast.type m <> NodeTypes.Program) ->
  traverse (enterGlobal globalNames) leaveGlobal n ancestors st = Ok st' ->
  map env_type (fst (fst st')) = map env_type (fst (fst st)).
Proof.
  intros Hn. apply (traverse_shape (fun s => fst (fst s))); [| |exact Hn].
  - intros k anc [[env globals] members] s' Hrun. unfold enterGlobal in Hrun.
    apply bind_Ok in Hrun as (env1 & H1 & Hrun).
    apply bind_Ok in Hrun as (env2 & H2 & Hrun).
    apply bind_Ok in Hrun as (globals' & _ & Hrun).
    apply bind_Ok in Hrun as (members' & _ & [= <-]).
    exists env1. split; [exact H1|]. cbn [fst].
    now apply trackVars_shape in H2.
  - now intros k [[env globals] members] s' [= <-].
Qed.

(* ================================================================== *)
(** * Further properties of the code                                  *)
(* ================================================================== *)

(** ** The set methods of setUtils.js *)

Lemma JsSet_add_fresh s x : ~ In x s -> JsSet.add s x = s ++ [x].
Proof.
  intros H. unfold JsSet.add. now apply JsSet_has_false in H as ->.
Qed.

Lemma JsSet_add_old s x : In x s -> JsSet.add s x = s.
Proof.
  intros H. unfold JsSet.add. now apply JsSet_has_In in H as ->.
Qed.

Lemma JsSet_addall_fresh l : forall s,
  NoDup (s ++ l) -> fold_left JsSet.add l s = s ++ l.
Proof.
  induction l as [|x l IH]; intros s H; cbn.
  - now rewrite app_nil_r.
  - assert (~ In x s) as Hx.
    { apply NoDup_remove_2 in H. intros Hin. apply H, in_or_app. now left. }
    rewrite JsSet_add_fresh by exact Hx.
    rewrite IH; rewrite <- app_assoc; [reflexivity|exact H].
Qed.

Lemma JsSet_addall_prefix l : forall s,
  exists rest,
    fold_left JsSet.add l s = s ++ rest /\
    forall x, In x rest -> In x l /\ ~ In x s.
Proof.
  induction l as [|y l IH]; intros s; cbn.
  - exists []. split; [now rewrite app_nil_r|intros x []].
  - destruct (in_dec jsval_eq_dec y s) as [Hy|Hy].
    + rewrite JsSet_add_old by exact Hy.
      destruct (IH s) as (rest & E & H). exists rest. split; [exact E|].
      intros x Hx. destruct (H x Hx). auto.
    + rewrite JsSet_add_fresh by exact Hy.
      destruct (IH (s ++ [y])) as (rest & E & H). exists (y :: rest).
      split; [now rewrite E, <- app_assoc|].
      intros x [<-|Hx]; [auto|].
      destruct (H x Hx) as [H1 H2]. split; [now right|].
      intros Hin. apply H2, in_or_app. now left.
Qed.

(** X1. [setUnion]: the union of a set with any iterable has no element
    twice, holds exactly the elements of the two, and iterates first over
    the elements of [this], in their order, then over the elements that
    only [other] has. *)
Theorem setUnion_this_first this other :
  NoDup this ->
  NoDup (JsSet.union this other) /\
  (forall x, In x (JsSet.union this other) <-> In x this \/ In x other) /\
  exists rest,
    JsSet.union this other = this ++ rest /\
    forall x, In x rest -> In x other /\ ~ In x this.
Proof.
  intros Hthis. split; [apply JsSet_union_NoDup|].
  split; [intros x; apply JsSet_union_In|].
  unfold JsSet.union, JsSet.empty.
  rewrite (JsSet_addall_fresh this []) by exact Hthis. cbn [app].
  apply JsSet_addall_prefix.
Qed.

Lemma setUnion_this_first_witness :
  JsSet.union [JStr "fs"; JStr "path"] [JStr "path"; JStr "os"; JStr "fs"]
  = [JStr "fs"; JStr "path"; JStr "os"] /\
  exists rest,
    JsSet.union [JStr "fs"; JStr "path"] [JStr "path"; JStr "os"; JStr "fs"]
    = [JStr "fs"; JStr "path"] ++ rest /\
    forall x, In x rest ->
              In x [JStr "path"; JStr "os"; JStr "fs"] /\
              ~ In x [JStr "fs"; JStr "path"].
Proof.
  split; [reflexivity|].
  apply (setUnion_this_first [JStr "fs"; JStr "path"]
                             [JStr "path"; JStr "os"; JStr "fs"]).
  repeat constructor; cbn; intuition discriminate.
Defined.

Lemma JsSet_select_In (keep : jsval -> bool) l : forall s y,
  In y (fold_left (fun s element =>
                     if keep element then JsSet.add s element else s) l s)
  <-> In y s \/ (In y l /\ keep y = true).
Proof.
  induction l as [|x l IH]; intros s y; cbn [fold_left].
  - cbn. tauto.
  - rewrite IH. destruct (keep x) eqn:E.
    + rewrite JsSet_add_In. cbn. intuition (subst; auto).
    + cbn. intuition (subst; auto; congruence).
Qed.

Lemma JsSet_select_NoDup (keep : jsval -> bool) l : forall s,
  NoDup s ->
  NoDup (fold_left (fun s element =>
                      if keep element then JsSet.add s element else s) l s).
Proof.
  induction l as [|x l IH]; intros s H; cbn [fold_left]; [exact H|].
  apply IH. destruct (keep x); [now apply JsSet_add_NoDup|exact H].
Qed.

Lemma JsSet_difference_select this other :
  JsSet.difference this other =
  fold_left (fun s element =>
               if negb (JsSet.has other element) then JsSet.add s element
               else s) this JsSet.empty.
Proof.
  unfold JsSet.difference. generalize JsSet.empty.
  induction this as [|x this IH]; intros s; cbn [fold_left]; [reflexivity|].
  rewrite IH. now destruct (JsSet.has other x).
Qed.

(** X2. [setIntersection] and [setDifference] split a set in two: the
    intersection holds the elements that [other] has, the difference those
    that it has not; no element is in both and none is lost, and neither
    result has an element twice, whatever iterable [this] is. *)
Theorem setIntersection_setDifference_split this other :
  (forall x, In x (JsSet.intersection this other)
             <-> In x this /\ In x other) /\
  (forall x, In x (JsSet.difference this other)
             <-> In x this /\ ~ In x other) /\
  (forall x, In x this <->
             In x (JsSet.intersection this other) \/
             In x (JsSet.difference this other)) /\
  NoDup (JsSet.intersection this other) /\
  NoDup (JsSet.difference this other).
Proof.
  assert (forall x, In x (JsSet.intersection this other)
                    <-> In x this /\ In x other) as Hi.
  { intros x. unfold JsSet.intersection. rewrite JsSet_select_In.
    rewrite JsSet_has_In. cbn. tauto. }
  assert (forall x, In x (JsSet.difference this other)
                    <-> In x this /\ ~ In x other) as Hd.
  { intros x. rewrite JsSet_difference_select, JsSet_select_In.
    rewrite Bool.negb_true_iff, JsSet_has_false. cbn. tauto. }
  split; [exact Hi|]. split; [exact Hd|]. split; [|split].
  - intros x. rewrite Hi, Hd.
    destruct (in_dec jsval_eq_dec x other); tauto.
  - unfold JsSet.intersection. apply JsSet_select_NoDup. constructor.
  - rewrite JsSet_difference_select. apply JsSet_select_NoDup. constructor.
Qed.

Lemma JsSet_map_In (f : jsval -> jsval) l : forall s y,
  In y (fold_left (fun s element => JsSet.add s (f element)) l s)
  <-> In y s \/ exists x, In x l /\ y = f x.
Proof.
  induction l as [|x l IH]; intros s y; cbn [fold_left].
  - cbn. split; [auto|]. now intros [H|(x & [] & _)].
  - rewrite IH, JsSet_add_In. cbn. split.
    + intros [[H| ->]|(z & Hz & ->)]; eauto.
    + intros [H|(z & [<-|Hz] & ->)]; eauto.
Qed.

Lemma JsSet_add_length s x :
  (List.length (JsSet.add s x) <= S (List.length s))%nat.
Proof.
  unfold JsSet.add. destruct (JsSet.has s x); [lia|].
  rewrite length_app. cbn. lia.
Qed.

Lemma JsSet_map_length (f : jsval -> jsval) l : forall s,
  (List.length (fold_left (fun s element => JsSet.add s (f element)) l s)
   <= List.length s + List.length l)%nat.
Proof.
  induction l as [|x l IH]; intros s; cbn [fold_left List.length]; [lia|].
  specialize (IH (JsSet.add s (f x))).
  pose proof (JsSet_add_length s (f x)). lia.
Qed.

Lemma JsSet_map_NoDup (f : jsval -> jsval) l : forall s,
  NoDup s -> NoDup (fold_left (fun s element => JsSet.add s (f element)) l s).
Proof.
  induction l as [|x l IH]; intros s H; cbn [fold_left]; [exact H|].
  apply IH. now apply JsSet_add_NoDup.
Qed.

(** X3. [setMap]: the result holds exactly the images of the elements,
    each once, so it can be smaller than the set it comes from and is never
    larger. *)
Theorem setMap_images this f :
  (forall y, In y (JsSet.map this f) <-> exists x, In x this /\ y = f x) /\
  NoDup (JsSet.map this f) /\
  (List.length (JsSet.map this f) <= List.length this)%nat.
Proof.
  unfold JsSet.map, JsSet.empty. repeat split.
  - intros H. apply JsSet_map_In in H as [[]|H]. exact H.
  - intros H. apply JsSet_map_In. now right.
  - apply JsSet_map_NoDup. constructor.
  - apply (JsSet_map_length f this []).
Qed.

(** ** Environments (astUtils.js) *)

Lemma find_app_first {A} (f : A -> bool) l1 l2 :
  find f (l1 ++ l2) =
  match find f l1 with
  | Some x => Some x
  | None => find f l2
  end.
Proof.
  induction l1 as [|a l1 IH]; cbn; [reflexivity|].
  now destruct (f a).
Qed.

Lemma lookup_allVars_from name parent : forall e,
  Env.lookup (e :: parent) name
  = find (Env.named name) (Env.allVars_from e parent).
Proof.
  induction parent as [|e' parent IH]; intros e.
  - cbn. now destruct (find _ _).
  - cbn [Env.allVars_from]. rewrite find_app_first, <- IH.
    reflexivity.
Qed.

(** X4. [getVarNamed] and [allVars] agree: the variable found for a name
    is the first one of that name in the list of all variables, the
    innermost environment first; on a missing environment both throw. *)
Theorem getVarNamed_first_of_allVars env name :
  Env.getVarNamed env name =
  (vars <- Env.allVars env ;; Ok (find (Env.named name) vars)).
Proof.
  destruct env as [|e parent]; [reflexivity|].
  cbn [Env.getVarNamed Env.allVars bind].
  now rewrite lookup_allVars_from.
Qed.

Lemma named_eq name v : Env.named name v = true <-> var_name v = name.
Proof. unfold Env.named. apply String.eqb_eq. Qed.

Lemma named_other name v :
  var_name v <> name -> Env.named name v = false.
Proof.
  intros H. destruct (Env.named name v) eqn:E; [|reflexivity].
  now apply named_eq in E.
Qed.

(** X5. [addVar]: afterwards the name of the variable is bound and every
    other name resolves as before; a variable of that name that the
    innermost environment already had stays the one that is found, so a
    second declaration does not replace the first. *)
Theorem addVar_then_getVarNamed env v env' :
  Env.addVar env v = Ok env' ->
  Env.hasVarNamed env' (var_name v) = Ok true /\
  (forall name, name <> var_name v ->
                Env.getVarNamed env' name = Env.getVarNamed env name) /\
  (forall e parent w,
      env = e :: parent ->
      find (Env.named (var_name v)) (env_vars e) = Some w ->
      Env.getVarNamed env' (var_name v) = Ok (Some w)).
Proof.
  destruct env as [|e parent]; [discriminate|]. cbn [Env.addVar].
  intros [= <-].
  unfold Env.hasVarNamed, Env.getVarNamed, Env.push.
  cbn [bind Env.lookup env_vars env_type].
  assert (Env.named (var_name v) v = true) as Hv by now apply named_eq.
  repeat split.
  - rewrite find_app_first. destruct (find _ (env_vars e)); [reflexivity|].
    cbn [find]. now rewrite Hv.
  - intros name Hne. rewrite find_app_first.
    destruct (find _ (env_vars e)); [reflexivity|].
    cbn [find]. rewrite named_other by congruence. reflexivity.
  - intros e0 parent0 w [= <- <-] Hw. rewrite find_app_first, Hw. reflexivity.
Qed.

Lemma addVar_then_getVarNamed_witness :
  Env.hasVarNamed
    [mkEnvironment EnvironmentTypes.Block [newVariable "fs"];
     mkEnvironment EnvironmentTypes.Program []] "fs" = Ok true.
Proof.
  apply (addVar_then_getVarNamed
           [mkEnvironment EnvironmentTypes.Block [];
            mkEnvironment EnvironmentTypes.Program []]
           (newVariable "fs")).
  reflexivity.
Defined.

(** X6. [addVarToFunctionScope]: the variable goes to the nearest
    enclosing function or method environment and to nothing else; when no
    environment of the chain is one, it goes to the outermost
    environment. *)
Theorem addVarToFunctionScope_nearest blocks f rest v :
  Forall (fun e => env_type e = EnvironmentTypes.Block \/
                   env_type e = EnvironmentTypes.Program) blocks ->
  env_type f = EnvironmentTypes.Function \/
  env_type f = EnvironmentTypes.Method \/ rest = [] ->
  Env.addVarToFunctionScope (blocks ++ f :: rest) v
  = Ok (blocks ++ Env.push v f :: rest).
Proof.
  intros Hblocks Hf.
  assert (forall e l,
             Env.addVarToFunctionScope (e :: l) v
             = Ok (Env.addVarToFunctionScope_from e l v)) as Hstep
      by reflexivity.
  assert (Env.addVarToFunctionScope_from f rest v = Env.push v f :: rest)
    as Hhere.
  { destruct rest as [|e' rest]; cbn [Env.addVarToFunctionScope_from].
    - now destruct (env_type f).
    - destruct Hf as [->|[->|Hf]]; [reflexivity|reflexivity|discriminate]. }
  destruct blocks as [|b blocks]; cbn [app]; rewrite Hstep; f_equal;
    [exact Hhere|].
  revert b Hblocks.
  induction blocks as [|b' blocks IH]; intros b Hb;
    cbn [app Env.addVarToFunctionScope_from];
    inversion Hb as [|? ? Hb1 Hb2]; subst.
  - destruct Hb1 as [-> | ->]; now rewrite Hhere.
  - destruct Hb1 as [-> | ->]; f_equal; now apply IH.
Qed.

(** [{ { var x; } }] inside a function: the variable is still there when
    the blocks are left. *)
Lemma addVarToFunctionScope_nearest_witness :
  Env.addVarToFunctionScope
    [mkEnvironment EnvironmentTypes.Block [];
     mkEnvironment EnvironmentTypes.Block [];
     mkEnvironment EnvironmentTypes.Function [newVariable "a"];
     mkEnvironment EnvironmentTypes.Program []]
    (newVariable "x")
  = Ok [mkEnvironment EnvironmentTypes.Block [];
        mkEnvironment EnvironmentTypes.Block [];
        mkEnvironment EnvironmentTypes.Function [newVariable "a"; newVariable "x"];
        mkEnvironment EnvironmentTypes.Program []].
Proof.
  apply (addVarToFunctionScope_nearest
           [mkEnvironment EnvironmentTypes.Block [];
            mkEnvironment EnvironmentTypes.Block []]
           (mkEnvironment EnvironmentTypes.Function [newVariable "a"])
           [mkEnvironment EnvironmentTypes.Program []]
           (newVariable "x")).
  - repeat constructor.
  - now left.
Defined.

Lemma setModule_vars_find vars name m :
  match Env.setModule_vars vars name m with
  | Some vars' =>
      find (Env.named name) vars' = Some (mkVariable name m) /\
      forall name', name' <> name ->
                    find (Env.named name') vars' = find (Env.named name') vars
  | None => find (Env.named name) vars = None
  end.
Proof.
  induction vars as [|v vars IH]; cbn [Env.setModule_vars]; [reflexivity|].
  destruct (Env.named name v) eqn:E.
  - apply named_eq in E. split.
    + cbn [find]. unfold Env.named at 1. cbn [var_name].
      rewrite E, String.eqb_refl. reflexivity.
    + intros name' Hne. cbn [find]. unfold Env.named at 1 3. cbn [var_name].
      rewrite E. destruct (String.eqb_spec name name'); [congruence|reflexivity].
  - destruct (Env.setModule_vars vars name m) as [vars'|]; cbn [option_map].
    + destruct IH as [IH1 IH2]. split.
      * cbn [find]. now rewrite E.
      * intros name' Hne. cbn [find]. now rewrite IH2.
    + cbn [find]. now rewrite E.
Qed.

Lemma setModule_chain_lookup name m env :
  match Env.setModule_chain env name m with
  | Some env' =>
      Env.lookup env' name = Some (mkVariable name m) /\
      forall name', name' <> name -> Env.lookup env' name' = Env.lookup env name'
  | None => Env.lookup env name = None
  end.
Proof.
  induction env as [|e env IH]; cbn [Env.setModule_chain]; [reflexivity|].
  pose proof (setModule_vars_find (env_vars e) name m) as Hvars.
  destruct (Env.setModule_vars (env_vars e) name m) as [vars'|].
  - destruct Hvars as [H1 H2]. split.
    + cbn [Env.lookup env_vars]. now rewrite H1.
    + intros name' Hne. cbn [Env.lookup env_vars]. now rewrite H2.
  - destruct (Env.setModule_chain env name m) as [env'|]; cbn [option_map].
    + destruct IH as [IH1 IH2]. split.
      * cbn [Env.lookup]. now rewrite Hvars.
      * intros name' Hne. cbn [Env.lookup]. now rewrite IH2.
    + cbn [Env.lookup]. now rewrite Hvars.
Qed.

(** X7. Setting the module of the variable called [name] and asking for
    the module-referencing variable of that name is a round trip: the
    variable comes back with the module, and the variables of other names
    are as before.  When no variable of the chain has the name, the call
    is made on [null] and throws. *)
Theorem setModule_then_getModRefVarNamed env name m :
  match Env.setModuleOfVarNamed env name m with
  | Ok env' =>
      (m <> JNull ->
       Env.getModRefVarNamed env' name = Ok (Some (mkVariable name m))) /\
      (forall name', name' <> name ->
                     Env.getVarNamed env' name' = Env.getVarNamed env name')
  | Throw _ => env = [] \/ Env.getVarNamed env name = Ok None
  end.
Proof.
  destruct env as [|e env]; [now left|].
  unfold Env.setModuleOfVarNamed.
  pose proof (setModule_chain_lookup name m (e :: env)) as H.
  destruct (Env.setModule_chain (e :: env) name m) as [env'|]; cbn [deref].
  - destruct H as [H1 H2].
    assert (env' <> []) as Hne by (intros ->; discriminate H1).
    unfold Env.getModRefVarNamed, Env.getVarNamed.
    destruct env' as [|e' env']; [congruence|]. split.
    + intros Hm. rewrite H1. cbn [bind var_module].
      destruct (jsval_eqb m JNull) eqn:E; [|reflexivity].
      now apply jsval_eqb_eq in E.
    + intros name' Hn. now rewrite H2.
  - right. unfold Env.getVarNamed. now rewrite H.
Qed.

(** [fs] declared in a block of a program is given the module [fs]. *)
Lemma setModule_then_getModRefVarNamed_witness :
  Env.getModRefVarNamed
    [mkEnvironment EnvironmentTypes.Block [mkVariable "fs" (JStr "fs")];
     mkEnvironment EnvironmentTypes.Program []] "fs"
  = Ok (Some (mkVariable "fs" (JStr "fs"))).
Proof.
  apply (setModule_then_getModRefVarNamed
           [mkEnvironment EnvironmentTypes.Block [newVariable "fs"];
            mkEnvironment EnvironmentTypes.Program []] "fs" (JStr "fs")).
  discriminate.
Defined.


(** ** Binding targets and declarations (astUtils.js) *)

(** X8. [identifiersFromNode] returns identifier nodes only, whatever the
    nesting of the pattern; its callers read the [name] of each. *)
Theorem identifiersFromNode_identifiers node :
  forall ids,
    identifiersFromNode node = Ok ids ->
    Forall (fun identifier => exists i name,
                identifier = Ast.Identifier i name) ids.
Proof.
  induction node as [node IH] using node_children_ind.
  destruct node; cbn [identifiersFromNode]; intros ids Hrun;
    try discriminate.
  - injection Hrun as <-. repeat constructor. eauto.
  - eapply IH; [|exact Hrun]. cbn. eauto.
  - eapply (forEach_invariant
              (Forall (fun identifier => exists i name,
                           identifier = Ast.Identifier i name)));
      [|constructor|exact Hrun].
    intros prop acc acc' Hin Hacc Hstep. cbn beta in Hstep.
    apply bind_Ok in Hstep as (l & Hl & [= <-]).
    apply Forall_app. split; [exact Hacc|].
    eapply (IH Ast.Expression prop); [|exact Hl].
    cbn. now apply in_map.
  - eapply (forEach_invariant
              (Forall (fun identifier => exists i name,
                           identifier = Ast.Identifier i name)));
      [|constructor|exact Hrun].
    intros [element|] acc acc' Hin Hacc Hstep; cbn beta iota in Hstep;
      [|now injection Hstep as <-].
    apply bind_Ok in Hstep as (l & Hl & [= <-]).
    apply Forall_app. split; [exact Hacc|].
    eapply (IH Ast.Pattern element); [|exact Hl].
    cbn. apply in_flat_map. exists (Some element). cbn. auto.
  - eapply IH; [|exact Hrun]. cbn. eauto.
  - eapply IH; [|exact Hrun]. cbn. eauto.
  - eapply IH; [|exact Hrun]. cbn. eauto.
Qed.

(** The pattern [{a, b: [c, ...d]}] *)
Lemma identifiersFromNode_identifiers_witness :
  Forall (fun identifier => exists i name, identifier = Ast.Identifier i name)
         [Ast.Identifier 3 "a"; Ast.Identifier 7 "c"; Ast.Identifier 9 "d"].
Proof.
  apply (identifiersFromNode_identifiers
           (Ast.ObjectPattern 0
              [Ast.Property 1 (Ast.Identifier 2 "a") (Ast.Identifier 3 "a");
               Ast.Property 4 (Ast.Identifier 5 "b")
                 (Ast.ArrayPattern 6
                    [Some (Ast.Identifier 7 "c");
                     Some (Ast.RestElement 8 (Ast.Identifier 9 "d"))])])).
  reflexivity.
Defined.

(** A name is bound in a chain when some environment of the chain has a
    variable of that name. *)
Lemma find_named_None name vars :
  find (Env.named name) vars = None <->
  forall v, In v vars -> var_name v <> name.
Proof.
  induction vars as [|w vars IH]; cbn [find].
  - split; [intros _ v []|reflexivity].
  - destruct (Env.named name w) eqn:E.
    + apply named_eq in E. split; [discriminate|].
      intros H. now destruct (H w (or_introl eq_refl)).
    + rewrite IH. split.
      * intros H v [<-|Hv]; [|auto].
        intros Hn. apply named_eq in Hn. congruence.
      * intros H v Hv. apply H. now right.
Qed.

Lemma lookup_None env name :
  Env.lookup env name = None <->
  forall e v, In e env -> In v (env_vars e) -> var_name v <> name.
Proof.
  induction env as [|e env IH]; cbn [Env.lookup].
  - split; [intros _ e v []|reflexivity].
  - destruct (find (Env.named name) (env_vars e)) eqn:E.
    + split; [discriminate|]. intros H.
      assert (find (Env.named name) (env_vars e) = None) as E'
          by (apply find_named_None; intros v Hv; apply (H e v); cbn; auto).
      congruence.
    + rewrite IH. rewrite find_named_None in E. split.
      * intros H e' v [<-|He']; [apply E|now apply H].
      * intros H e' v He'. apply H. now right.
Qed.

Lemma hasVarNamed_true env name :
  Env.hasVarNamed env name = Ok true <->
  exists e v, In e env /\ In v (env_vars e) /\ var_name v = name.
Proof.
  unfold Env.hasVarNamed, Env.getVarNamed.
  destruct env as [|e0 env]; cbn [bind].
  - split; [discriminate|]. now intros (e & v & [] & _).
  - pose proof (lookup_None (e0 :: env) name) as H.
    destruct (Env.lookup (e0 :: env) name) as [w|].
    + split; [intros _|reflexivity].
      destruct (in_dec String.string_dec name
                  (map var_name (flat_map env_vars (e0 :: env))))
        as [Hin|Hout].
      * apply in_map_iff in Hin as (v & Hv & Hin).
        apply in_flat_map in Hin as (e & He & Hin). eauto.
      * assert (Some w = None) as [=]. apply H. intros e v He Hv Hn.
        apply Hout. apply in_map_iff. exists v. split; [exact Hn|].
        apply in_flat_map. eauto.
    + split; [discriminate|]. intros (e & v & He & Hv & Hn).
      exfalso. destruct H as [H _]. now apply (H eq_refl e v).
Qed.

Lemma addVar_bound env v env' name :
  Env.addVar env v = Ok env' ->
  (Env.hasVarNamed env' name = Ok true <->
   Env.hasVarNamed env name = Ok true \/ name = var_name v).
Proof.
  destruct env as [|e env]; [discriminate|]. cbn [Env.addVar].
  intros [= <-]. rewrite !hasVarNamed_true. split.
  - intros (e' & w & [<-|He] & Hw & Hn).
    + cbn [Env.push env_vars] in Hw. apply in_app_or in Hw as [Hw|[<-|[]]].
      * left. exists e, w. cbn. auto.
      * now right.
    + left. exists e', w. cbn. auto.
  - intros [(e' & w & [<-|He] & Hw & Hn)| ->].
    + exists (Env.push v e), w. cbn. split; [auto|]. split; [|exact Hn].
      apply in_or_app. now left.
    + exists e', w. cbn. auto.
    + exists (Env.push v e), v. cbn. split; [auto|]. split; [|reflexivity].
      apply in_or_app. cbn. auto.
Qed.

Lemma addVarToFunctionScope_from_bound v name parent : forall e,
  (exists e' w, In e' (Env.addVarToFunctionScope_from e parent v) /\
                In w (env_vars e') /\ var_name w = name) <->
  (exists e' w, In e' (e :: parent) /\ In w (env_vars e') /\ var_name w = name)
  \/ name = var_name v.
Proof.
  assert (forall e l,
             (exists e' w, In e' (Env.push v e :: l) /\
                           In w (env_vars e') /\ var_name w = name) <->
             (exists e' w, In e' (e :: l) /\ In w (env_vars e') /\
                           var_name w = name) \/ name = var_name v) as Hpush.
  { intros e l. split.
    - intros (e' & w & [<-|He] & Hw & Hn).
      + cbn [Env.push env_vars] in Hw.
        apply in_app_or in Hw as [Hw|[<-|[]]]; [|now right].
        left. exists e, w. cbn. auto.
      + left. exists e', w. cbn. auto.
    - intros [(e' & w & [<-|He] & Hw & Hn)| ->].
      + exists (Env.push v e), w. cbn. split; [auto|]. split; [|exact Hn].
        apply in_or_app. now left.
      + exists e', w. cbn. auto.
      + exists (Env.push v e), v. cbn. split; [auto|]. split; [|reflexivity].
        apply in_or_app. cbn. auto. }
  induction parent as [|p parent IH]; intros e;
    cbn [Env.addVarToFunctionScope_from].
  - destruct (env_type e); apply Hpush.
  - destruct (env_type e); try apply Hpush.
    + split.
      * intros (e' & w & [<-|He] & Hw & Hn).
        -- left. exists e, w. cbn. auto.
        -- destruct (proj1 (IH p)) as [(e2 & w2 & He2 & Hw2 & Hn2)|Hv];
             [eauto| |now right].
           left. exists e2, w2. split; [now right|auto].
      * intros [(e' & w & [<-|He] & Hw & Hn)|Hv].
        -- exists e, w. cbn. auto.
        -- destruct (proj2 (IH p)) as (e2 & w2 & He2 & Hw2 & Hn2);
             [left; eauto|].
           exists e2, w2. split; [now right|auto].
        -- destruct (proj2 (IH p)) as (e2 & w2 & He2 & Hw2 & Hn2);
             [now right|].
           exists e2, w2. split; [now right|auto].
    + split.
      * intros (e' & w & [<-|He] & Hw & Hn).
        -- left. exists e, w. cbn. auto.
        -- destruct (proj1 (IH p)) as [(e2 & w2 & He2 & Hw2 & Hn2)|Hv];
             [eauto| |now right].
           left. exists e2, w2. split; [now right|auto].
      * intros [(e' & w & [<-|He] & Hw & Hn)|Hv].
        -- exists e, w. cbn. auto.
        -- destruct (proj2 (IH p)) as (e2 & w2 & He2 & Hw2 & Hn2);
             [left; eauto|].
           exists e2, w2. split; [now right|auto].
        -- destruct (proj2 (IH p)) as (e2 & w2 & He2 & Hw2 & Hn2);
             [now right|].
           exists e2, w2. split; [now right|auto].
Qed.

Lemma addVarToFunctionScope_bound env v env' name :
  Env.addVarToFunctionScope env v = Ok env' ->
  (Env.hasVarNamed env' name = Ok true <->
   Env.hasVarNamed env name = Ok true \/ name = var_name v).
Proof.
  destruct env as [|e env]; [discriminate|]. cbn [Env.addVarToFunctionScope].
  intros [= <-]. rewrite !hasVarNamed_true.
  apply addVarToFunctionScope_from_bound.
Qed.

Lemma forEach_bound (add : Env -> EnvVariable -> result Env) names :
  (forall env v env' name,
      add env v = Ok env' ->
      (Env.hasVarNamed env' name = Ok true <->
       Env.hasVarNamed env name = Ok true \/ name = var_name v)) ->
  forall env env' name,
    forEach (fun x env => add env (newVariable x)) names env = Ok env' ->
    (Env.hasVarNamed env' name = Ok true <->
     Env.hasVarNamed env name = Ok true \/ In name names).
Proof.
  intros Hadd. induction names as [|x names IH]; intros env env' name; cbn.
  - intros [= <-]. tauto.
  - intros Hrun. apply bind_Ok in Hrun as (env1 & H1 & Hrun).
    rewrite (IH _ _ _ Hrun), (Hadd _ _ _ name H1). cbn. intuition auto.
Qed.

(** X9. [trackVars] on a variable declaration binds the identifiers of
    its declarators and leaves every other binding as it is, for [var] as
    for [let] and [const]: afterwards a name is bound exactly when it was
    bound before or is one of the declared identifiers. *)
Theorem trackVars_binds_declared i kind declarations env env' :
  trackVars (Ast.VariableDeclaration i kind declarations) env = Ok env' ->
  exists identifiers,
    identifiersFromVariableDeclaration declarations = Ok identifiers /\
    forall name,
      Env.hasVarNamed env' name = Ok true <->
      Env.hasVarNamed env name = Ok true \/
      In name (map identifierName identifiers).
Proof.
  cbn [trackVars]. intros Hrun.
  apply bind_Ok in Hrun as (identifiers & Hids & Hrun).
  exists identifiers. split; [exact Hids|]. intros name.
  destruct (String.eqb kind "var").
  - rewrite <- (forEach_map (fun x env =>
                               Env.addVarToFunctionScope env (newVariable x))
                            identifierName) in Hrun.
    apply (forEach_bound Env.addVarToFunctionScope _
                         addVarToFunctionScope_bound _ _ _ Hrun).
  - rewrite <- (forEach_map (fun x env => Env.addVar env (newVariable x))
                            identifierName) in Hrun.
    apply (forEach_bound Env.addVar _ addVar_bound _ _ _ Hrun).
Qed.

(** [var [a, b] = x;] inside a block of a program *)
Lemma trackVars_binds_declared_witness :
  exists identifiers,
    identifiersFromVariableDeclaration
      [Ast.VariableDeclarator 2
         (Ast.ArrayPattern 3 [Some (Ast.Identifier 4 "a");
                              Some (Ast.Identifier 5 "b")])
         (Some (Ast.Identifier 6 "x"))] = Ok identifiers /\
    forall name,
      Env.hasVarNamed
        [mkEnvironment EnvironmentTypes.Block [];
         mkEnvironment EnvironmentTypes.Program
                       [newVariable "a"; newVariable "b"]] name = Ok true <->
      Env.hasVarNamed
        [mkEnvironment EnvironmentTypes.Block [];
         mkEnvironment EnvironmentTypes.Program []] name = Ok true \/
      In name (map identifierName identifiers).
Proof.
  apply (trackVars_binds_declared 1 "var").
  reflexivity.
Defined.

Lemma fromEnd_two {A} (l : list A) a b : fromEnd (l ++ [a; b]) 2 = Some a.
Proof.
  unfold fromEnd. rewrite length_app. cbn [List.length].
  replace (2 <=? List.length l + 2)%nat with true
    by (symmetry; apply Nat.leb_le; lia).
  replace (List.length l + 2 - 2)%nat with (List.length l) by lia.
  rewrite nth_error_app2 by lia. now rewrite Nat.sub_diag.
Qed.

Lemma isFunction_body ancestors kind i id params body block :
  isFunction (ancestors ++ [Ast.Function kind i id params body; block]) = true.
Proof.
  unfold isFunction. rewrite fromEnd_two, length_app. cbn [List.length].
  replace (2 <=? List.length ancestors + 2)%nat with true
    by (symmetry; apply Nat.leb_le; lia).
  now destruct kind.
Qed.

Lemma forEach_collect {A B} (f : A -> result (list B)) l :
  forall acc all,
    forEach (fun x ids => found <- f x ;; Ok (ids ++ found)) l acc = Ok all ->
    incl acc all /\
    forall x found, In x l -> f x = Ok found -> incl found all.
Proof.
  induction l as [|y l IH]; intros acc all; cbn [forEach].
  - intros [= <-]. split; [apply incl_refl|intros x found []].
  - intros Hrun. apply bind_Ok in Hrun as (acc1 & H1 & Hrun).
    apply bind_Ok in H1 as (foundy & Hy & [= <-]).
    destruct (IH _ _ Hrun) as [Hacc Hl]. split.
    + intros z Hz. apply Hacc, in_or_app. now left.
    + intros x found [<-|Hx] Hf.
      * assert (found = foundy) as -> by congruence.
        intros z Hz. apply Hacc, in_or_app. now right.
      * eapply Hl; eauto.
Qed.

(** X10. The block that is the body of a function, whatever its form
    (declaration, expression or arrow), opens a function environment in
    which every identifier of every parameter pattern is bound; an
    identifier of such a name is then not a global, even when the name is
    one of the global names. *)
Theorem function_body_binds_parameters globalNames ancestors kind i id params
        body j statements env env' :
  trackScope (Ast.BlockStatement j statements)
             (ancestors ++ [Ast.Function kind i id params body;
                            Ast.BlockStatement j statements]) env = Ok env' ->
  option_map env_type (hd_error env') = Some EnvironmentTypes.Function /\
  tl env' = env /\
  forall param identifiers identifier,
    In param params ->
    identifiersFromNode param = Ok identifiers ->
    In identifier identifiers ->
    Env.hasVarNamed env' (identifierName identifier) = Ok true /\
    forall node ancestors',
      Ast.name node = Some (identifierName identifier) ->
      isGlobal globalNames node env' ancestors' = Ok false.
Proof.
  unfold trackScope. cbn [Ast.type]. rewrite isFunction_body.
  intros Hrun. apply bind_Ok in Hrun as ([t vars] & Hvars & Hrun).
  apply bind_Ok in Hvars as (vars' & Hvars & [= <- <-]).
  destruct env as [|e env]; [discriminate|]. injection Hrun as <-.
  split; [reflexivity|]. split; [reflexivity|].
  intros param identifiers identifier Hparam Hids Hid.
  unfold initialVarsForFunction in Hvars. rewrite fromEnd_two in Hvars.
  cbn [deref bind Ast.params] in Hvars.
  apply bind_Ok in Hvars as (all & Hall & [= <-]).
  apply forEach_collect in Hall as [_ Hall].
  assert (Env.hasVarNamed
            (mkEnvironment EnvironmentTypes.Function
               (map (fun identifier => newVariable (identifierName identifier))
                    all) :: e :: env)
            (identifierName identifier) = Ok true) as Hbound.
  { apply hasVarNamed_true.
    exists (mkEnvironment EnvironmentTypes.Function
              (map (fun identifier => newVariable (identifierName identifier))
                   all)),
           (newVariable (identifierName identifier)).
    split; [now left|]. split; [|reflexivity].
    cbn [env_vars]. apply in_map_iff. exists identifier.
    split; [reflexivity|]. eapply Hall; eauto. }
  split; [exact Hbound|].
  intros node ancestors' Hname. unfold isGlobal. rewrite Hname.
  destruct (_ && _); [|reflexivity].
  now rewrite Hbound.
Qed.

(** [(process) => { ... }] at the top level: inside the body an
    identifier [process] is the parameter. *)
Lemma function_body_binds_parameters_witness :
  Env.hasVarNamed
    [mkEnvironment EnvironmentTypes.Function [newVariable "process"];
     mkEnvironment EnvironmentTypes.Program []] "process" = Ok true /\
  forall node ancestors',
    Ast.name node = Some "process" ->
    isGlobal ["process"] node
      [mkEnvironment EnvironmentTypes.Function [newVariable "process"];
       mkEnvironment EnvironmentTypes.Program []] ancestors' = Ok false.
Proof.
  destruct (function_body_binds_parameters
              ["process"] [example_arrow_ast; example_arrow_statement]
              Ast.ArrowFunctionExpression 2 None [example_parameter]
              (Ast.BlockStatement 4 []) 4 []
              [mkEnvironment EnvironmentTypes.Program []]
              [mkEnvironment EnvironmentTypes.Function [newVariable "process"];
               mkEnvironment EnvironmentTypes.Program []]
              eq_refl) as (_ & _ & H).
  apply (H example_parameter [example_parameter] example_parameter);
    [now left|reflexivity|now left].
Defined.

(** The block [{ var x; }] below a program: the variable goes to the
    environment of the program and the chain is one environment long
    again. *)
Lemma extractMemberAccesses_env_shape_witness :
  map env_type
      (fst ([mkEnvironment EnvironmentTypes.Program [newVariable "x"]],
            @nil jsval))
  = map env_type
        (fst ([mkEnvironment EnvironmentTypes.Program []], @nil jsval)).
Proof.
  apply (extractMemberAccesses_env_shape
           (Ast.BlockStatement 1
              [Ast.VariableDeclaration 2 "var"
                 [Ast.VariableDeclarator 3 (Ast.Identifier 4 "x") None]])
           [Ast.Program 0 []]).
  - intros m Hm.
    repeat match goal with
           | H : Visited _ _ |- _ =>
               apply Visited_inv in H as [->|(? & ? & Hin & ? & H)];
               [discriminate|cbn in Hin; destruct Hin as [[= <- <-]|Hin];
                             [|try destruct Hin]]
           end; try discriminate.
  - reflexivity.
Defined.

(** ** Globals (extractGlobals.js) *)

Section GlobalsFacts.

Variable globalNames : list string.

Lemma isGlobal_true node env ancestors :
  isGlobal globalNames node env ancestors = Ok true ->
  exists name,
    Ast.name node = Some name /\ In name globalNames /\
    Env.hasVarNamed env name = Ok false /\
    inGlobalNamespace node ancestors = true.
Proof.
  unfold isGlobal. destruct (Ast.name node) as [name|]; [|discriminate].
  destruct (isType NodeTypes.Identifier node); [|discriminate].
  cbn [andb]. destruct (globalNames_has globalNames name) eqn:E;
    [|discriminate].
  intros Hrun. apply bind_Ok in Hrun as (bound & Hb & [= Hrun]).
  apply Bool.andb_true_iff in Hrun as [Hn Hns].
  apply Bool.negb_true_iff in Hn as ->.
  exists name. repeat split; auto.
  unfold globalNames_has in E. apply existsb_exists in E as (g & Hg & E).
  apply String.eqb_eq in E as ->. exact Hg.
Qed.

(** X13. A member expression on a global whose property is a literal or
    an identifier makes [trackGlobalMembers] throw exactly when the
    property is the literal [null] (or an identifier without a name, which
    no parser produces): [x.name || x.value.toString()] then calls
    [toString] on [null].  For every other literal the member is the
    literal's text. *)
Theorem trackGlobalMembers_null_property i object property env ancestors
        globalMembers :
  isGlobal globalNames object env (ancestors ++ [object]) = Ok true ->
  isType NodeTypes.Identifier property || isType NodeTypes.Literal property
  = true ->
  (trackGlobalMembers globalNames (Ast.MemberExpression i object property)
                      env ancestors globalMembers = Throw "TypeError"
   <-> (exists k, property = Ast.Literal k JNull) \/
       (exists k, property = Ast.Identifier k "")).
Proof.
  intros Hg Hp. cbn [trackGlobalMembers]. rewrite Hp, Hg. cbn [bind].
  destruct property; try discriminate Hp;
    try (match goal with k : _ |- _ => destruct k; discriminate Hp end);
    cbn [nameOrValueToString Ast.name Ast.value].
  - destruct name as [|c name]; cbn [bind].
    + split; [intros _; right; eauto|reflexivity].
    + split; [discriminate|].
      intros [(k & [=])|(k & [=])].
  - destruct value; cbn [bind];
      try (split; [discriminate|intros [(k & [=])|(k & [=])]]).
    split; [intros _; left; eauto|reflexivity].
Qed.


Lemma addProperties_members module properties globalMembers globalMembers' :
  addProperties module properties globalMembers = Ok globalMembers' ->
  forall x, In x globalMembers' ->
            In x globalMembers \/
            exists member, x = JStr (module ++ "." ++ member).
Proof.
  unfold addProperties.
  apply (forEach_invariant
           (fun s => forall x, In x s ->
                               In x globalMembers \/
                               exists member, x = JStr (module ++ "." ++ member)));
    [|intros x Hx; now left].
  intros property s s' _ Hs Hstep. cbn beta in Hstep.
  destruct property; try discriminate; injection Hstep as <-; [|exact Hs].
  intros x Hx. apply JsSet_add_In in Hx as [Hx| ->];
    [auto|right; eexists; reflexivity].
Qed.

Lemma addGlobalIndices_members global elements globalMembers :
  forall x, In x (addGlobalIndices global elements globalMembers) ->
            In x globalMembers \/
            exists member, x = JStr (global ++ "." ++ member).
Proof.
  unfold addGlobalIndices.
  apply (fold_left_invariant
           (fun s => forall x, In x s ->
                               In x globalMembers \/
                               exists member,
                                 x = JStr (global ++ "." ++ member)));
    [|intros x Hx; now left].
  intros s [i [e|]] _ Hs; cbn [snd fst]; [|exact Hs].
  intros x Hx. apply JsSet_add_In in Hx as [Hx| ->];
    [auto|right; eexists; reflexivity].
Qed.

Lemma enterGlobal_known node ancestors st st' :
  globalsKnown globalNames st ->
  enterGlobal globalNames node ancestors st = Ok st' ->
  globalsKnown globalNames st'.
Proof.
  destruct st as [[env globals] globalMembers]. intros [Hg Hm] Hrun.
  unfold enterGlobal in Hrun.
  apply bind_Ok in Hrun as (env1 & _ & Hrun).
  apply bind_Ok in Hrun as (env2 & _ & Hrun).
  apply bind_Ok in Hrun as (globals' & Hglobals & Hrun).
  apply bind_Ok in Hrun as (members' & Hmembers & [= <-]).
  split.
  - unfold trackGlobals in Hglobals.
    destruct (isType NodeTypes.Identifier node);
      [|now injection Hglobals as <-].
    apply bind_Ok in Hglobals as ([|] & Hglobal & [= <-]); [|exact Hg].
    apply isGlobal_true in Hglobal as (name & -> & Hname & _).
    intros g Hin. apply in_app_or in Hin as [Hin|[<-|[]]]; auto.
  - unfold trackGlobalMembers in Hmembers.
    destruct node; try (now injection Hmembers as <-).
    + destruct (_ || _); [|now injection Hmembers as <-].
      apply bind_Ok in Hmembers as ([|] & Hglobal & Hmembers);
        [|now injection Hmembers as <-].
      apply bind_Ok in Hmembers as (member & _ & [= <-]).
      apply isGlobal_true in Hglobal as (name & -> & Hname & _).
      intros x Hx. apply JsSet_add_In in Hx as [Hx| ->];
        [auto|do 2 eexists; split; [reflexivity|exact Hname]].
    + eapply (forEach_invariant
                (fun s => forall x, In x s ->
                   exists name member,
                     x = JStr (name ++ "." ++ member) /\ In name globalNames));
        [|exact Hm|exact Hmembers].
      intros d s s' _ Hs Hstep. unfold trackDeclaratorGlobal in Hstep.
      apply bind_Ok in Hstep as (id & _ & Hstep).
      destruct id; try (now injection Hstep as <-);
        (destruct (Ast.init d) as [init|]; [|now injection Hstep as <-]);
        apply bind_Ok in Hstep as ([|] & Hglobal & Hstep);
        try (now injection Hstep as <-);
        apply isGlobal_true in Hglobal as (name & Hn & Hname & _);
        rewrite Hn in Hstep; cbn [template_opt] in Hstep.
      * intros x Hx.
        destruct (addProperties_members _ _ _ _ Hstep x Hx) as [H|(m & ->)];
          [auto|do 2 eexists; split; [reflexivity|exact Hname]].
      * injection Hstep as <-. intros x Hx.
        destruct (addGlobalIndices_members _ _ _ x Hx) as [H|(m & ->)];
          [auto|do 2 eexists; split; [reflexivity|exact Hname]].
Qed.

(** X12. [extractGlobals] reports nothing but global names: every element
    of the set of globals is one of the names of globalNames.js, and every
    element of the set of global members is such a name followed by a dot
    and a member. *)
Theorem extractGlobals_only_global_names ast globals globalMembers :
  extractGlobals globalNames ast = Ok (globals, globalMembers) ->
  (forall x, In x globals -> exists name, x = JStr name /\ In name globalNames)
  /\
  (forall x, In x globalMembers ->
             exists name member,
               x = JStr (name ++ "." ++ member) /\ In name globalNames).
Proof.
  unfold extractGlobals. intros Hrun.
  apply bind_Ok in Hrun as ([[env gs] ms] & Hrun & [= <- <-]).
  assert (globalsKnown globalNames (env, gs, ms)) as [Hg Hm].
  { eapply (traverse_invariant (enterGlobal globalNames) leaveGlobal
                               (globalsKnown globalNames) ast);
      [| |apply Visited_root| |exact Hrun].
    - intros n anc s s' _. apply enterGlobal_known.
    - intros n [[e g] m] s' _ H [= <-]. exact H.
    - split; [intros g []|intros x []]. }
  split; [|exact Hm].
  intros x Hx. apply JsSet_from_In, in_map_iff in Hx as (g & <- & Hg').
  eauto.
Qed.

End GlobalsFacts.

(** [process[null];] with [process] a global name *)
Lemma trackGlobalMembers_null_property_witness :
  trackGlobalMembers ["process"]
    (Ast.MemberExpression 2 (Ast.Identifier 3 "process") (Ast.Literal 4 JNull))
    [mkEnvironment EnvironmentTypes.Program []]
    [Ast.Program 0 []; Ast.Other 1 "ExpressionStatement" []]
    JsSet.empty = Throw "TypeError"
  <-> (exists k, Ast.Literal 4 JNull = Ast.Literal k JNull) \/
      (exists k, Ast.Literal 4 JNull = Ast.Identifier k "").
Proof.
  apply (trackGlobalMembers_null_property ["process"] 2
                                          (Ast.Identifier 3 "process")
                                          (Ast.Literal 4 JNull));
    reflexivity.
Defined.

(** [console.log('hi');] *)
Lemma extractGlobals_only_global_names_witness :
  (forall x, In x [JStr "console"] ->
             exists name, x = JStr name /\ In name ["console"; "process"]) /\
  (forall x, In x [JStr "console.log"] ->
             exists name member,
               x = JStr (name ++ "." ++ member) /\
               In name ["console"; "process"]).
Proof.
  apply (extractGlobals_only_global_names
           ["console"; "process"]
           (Ast.Program 0
              [Ast.Other 1 "ExpressionStatement"
                 [(Ast.Expression,
                   Ast.Call Ast.CallExpression 2
                     (Ast.MemberExpression 3 (Ast.Identifier 4 "console")
                                           (Ast.Identifier 5 "log"))
                     [Ast.Literal 6 (JStr "hi")])]])).
  reflexivity.
Defined.

(** ** Imports and member accesses (extractModules.js) *)

Lemma addSource_inv source imports v :
  In v (addSource source imports) ->
  In v imports \/ exists k, source = Ast.Literal k v.
Proof.
  unfold addSource. destruct (isType NodeTypes.Literal source) eqn:E; [|auto].
  apply isType_Literal_inv in E as (k & w & ->). cbn [Ast.value].
  intros H. apply JsSet_add_In in H as [H| ->]; eauto.
Qed.

Lemma importsVisitor_inv n imports v :
  In v (importsVisitor n imports) -> In v imports \/ importedAt n v.
Proof.
  unfold importsVisitor, importedAt.
  destruct n; auto;
    try (intros H; apply addSource_inv in H as [H|(k & ->)]; eauto).
  - destruct (isType NodeTypes.Identifier n) eqn:E1; [|auto].
    apply isType_Identifier_inv in E1 as (j & s & ->). cbn [andb Ast.name].
    destruct (isRequire (Some s)) eqn:E2; [|auto].
    apply String.eqb_eq in E2 as ->.
    destruct arguments as [|argument arguments]; [auto|].
    intros H. apply addSource_inv in H as [H|(k & ->)]; [auto|].
    right. left. unfold isRequireOfLiteral. repeat eexists.
  - destruct source as [source|]; [|auto].
    intros H. apply addSource_inv in H as [H|(k & ->)]; eauto.
Qed.

(** X14. [extractImports] adds nothing but literal values: every element
    of the result is the value of the literal that is the first argument of
    a visited call or [new] of [require], or the source of a visited import
    or export.  A [require] whose argument is computed contributes
    nothing. *)
Theorem extractImports_only_literals ast v :
  In v (extractImports ast) ->
  exists n, Visited ast n /\ importedAt n v.
Proof.
  unfold extractImports, walkImports.
  destruct (walkImports_total ast [] JsSet.empty) as [imports E].
  rewrite E. revert v.
  eapply (traverse_invariant
            (fun _ _ imports => Ok imports)
            (fun node imports => Ok (importsVisitor node imports))
            (fun imports => forall v, In v imports ->
                                      exists n, Visited ast n /\ importedAt n v)
            ast); [| |apply Visited_root| |exact E].
  - intros n ancestors s s' _ H [= <-]. exact H.
  - intros n s s' Hn H [= <-] v Hv.
    apply importsVisitor_inv in Hv as [Hv|Hv]; eauto.
  - intros v [].
Qed.

(** [const x = require(5);] *)
Lemma extractImports_only_literals_witness :
  exists n, Visited example_require5_ast n /\ importedAt n (JNum 5).
Proof.
  apply (extractImports_only_literals example_require5_ast (JNum 5)).
  cbn. now left.
Defined.

Lemma hasVarNamed_lookup env name :
  Env.hasVarNamed env name = Ok true -> Env.lookup env name <> None.
Proof.
  unfold Env.hasVarNamed, Env.getVarNamed.
  destruct env as [|e env]; [discriminate|]. cbn [bind].
  now destruct (Env.lookup (e :: env) name).
Qed.

(** X15. Declaring a variable with a [require] of a string literal makes
    it a module-referencing variable: after [trackVars] on the declaration
    [trackModuleReferencingVars] does not throw, and
    [getModRefVarNamed] returns the variable with the module, for [var],
    [let] and [const] alike. *)
Theorem require_declaration_binds_module i kind j k name init m env env1 :
  isRequireOfLiteral init (JStr m) ->
  trackVars
    (Ast.VariableDeclaration i kind
       [Ast.VariableDeclarator j (Ast.Identifier k name) (Some init)])
    env = Ok env1 ->
  exists env2,
    trackModuleReferencingVars
      (Ast.VariableDeclaration i kind
         [Ast.VariableDeclarator j (Ast.Identifier k name) (Some init)])
      env1 = Ok env2 /\
    Env.getModRefVarNamed env2 name = Ok (Some (mkVariable name (JStr m))).
Proof.
  intros (ck & ci & cj & lk & arguments & ->) Hvars.
  assert (Env.hasVarNamed env1 name = Ok true) as Hbound.
  { cbn in Hvars. destruct (String.eqb kind "var");
      apply bind_Ok in Hvars as (env' & Hadd & [= <-]).
    - apply (addVarToFunctionScope_bound _ _ _ name) in Hadd.
      apply Hadd. now right.
    - apply (addVar_bound _ _ _ name) in Hadd. apply Hadd. now right. }
  apply hasVarNamed_lookup in Hbound.
  pose proof (setModule_chain_lookup name (JStr m) env1) as Hset.
  cbn [trackModuleReferencingVars forEach trackDeclarator validRequireCall
       Ast.init Ast.id asCall isType Ast.type Ast.name isRequire Ast.value
       typeofString List.length firstArgumentValue deref bind template_opt].
  cbn. unfold Env.setModuleOfVarNamed.
  destruct env1 as [|e env1]; [now cbn in Hbound|].
  destruct (Env.setModule_chain (e :: env1) name (JStr m)) as [env2|];
    [|congruence].
  destruct Hset as [Hset _]. cbn [deref bind]. exists env2.
  split; [reflexivity|].
  unfold Env.getModRefVarNamed, Env.getVarNamed.
  destruct env2 as [|e2 env2]; [discriminate|].
  rewrite Hset. reflexivity.
Qed.

(** [const fs = require('fs');] at the top of a program *)
Lemma require_declaration_binds_module_witness :
  exists env2,
    trackModuleReferencingVars
      (Ast.VariableDeclaration 1 "const"
         [Ast.VariableDeclarator 2 (Ast.Identifier 3 "fs")
            (Some (Ast.Call Ast.CallExpression 4 (Ast.Identifier 5 "require")
                            [Ast.Literal 6 (JStr "fs")]))])
      [mkEnvironment EnvironmentTypes.Program [newVariable "fs"]] = Ok env2 /\
    Env.getModRefVarNamed env2 "fs" = Ok (Some (mkVariable "fs" (JStr "fs"))).
Proof.
  apply (require_declaration_binds_module
           1 "const" 2 3 "fs"
           (Ast.Call Ast.CallExpression 4 (Ast.Identifier 5 "require")
                     [Ast.Literal 6 (JStr "fs")])
           "fs" [mkEnvironment EnvironmentTypes.Program []]).
  - unfold isRequireOfLiteral. repeat eexists.
  - reflexivity.
Defined.

Section TraverseEstablish.

Context {S : Type}.
Variable enter : Ast.node -> list Ast.node -> S -> result S.
Variable leave : Ast.node -> S -> result S.
Variable Q : S -> Prop.
Variable target : Ast.node.

Hypothesis enter_keeps :
  forall n ancestors s s', enter n ancestors s = Ok s' -> Q s -> Q s'.
Hypothesis leave_keeps : forall n s s', leave n s = Ok s' -> Q s -> Q s'.
Hypothesis enter_target :
  forall ancestors s s', enter target ancestors s = Ok s' -> Q s'.

Lemma traverse_keeps n ancestors s s' :
  traverse enter leave n ancestors s = Ok s' -> Q s -> Q s'.
Proof.
  intros Hrun Hs.
  eapply (traverse_invariant enter leave Q n);
    [| |apply Visited_root|exact Hs|exact Hrun].
  - intros m anc t t' _ Ht Hstep. eapply enter_keeps; eauto.
  - intros m t t' _ Ht Hstep. eapply leave_keeps; eauto.
Qed.

(** What the analyses establish when they enter a visited node and keep
    from then on holds at the end of the traversal. *)
Lemma traverse_establish n :
  forall ancestors s s',
    traverse enter leave n ancestors s = Ok s' ->
    Visited n target -> Q s'.
Proof.
  induction n as [n IH] using node_children_ind.
  intros ancestors s s' Hrun Hm.
  rewrite traverse_children in Hrun.
  apply bind_Ok in Hrun as (s1 & H1 & Hrun).
  apply bind_Ok in Hrun as (s2 & H2 & H3).
  eapply leave_keeps; [exact H3|].
  apply Visited_inv in Hm as [->|(r & c & Hin & Hvis & Hc)].
  - eapply (forEach_invariant Q); [|eapply enter_target; exact H1|exact H2].
    intros [r c] t t' _ Ht. unfold walkChild. cbn [fst snd].
    destruct (Ast.visited_as r c); [|now intros [= <-]].
    intros Hstep. eapply traverse_keeps; eauto.
  - eapply (forEach_establish _ Q _ (r, c) Hin); [| |exact H2].
    + intros [r' c'] t t' _ Hstep Ht. unfold walkChild in Hstep.
      cbn [fst snd] in Hstep.
      destruct (Ast.visited_as r' c'); [|now injection Hstep as <-].
      eapply traverse_keeps; eauto.
    + intros t t' Hstep. unfold walkChild in Hstep. cbn [fst snd] in Hstep.
      rewrite Hvis in Hstep. eapply (IH r c Hin); eauto.
Qed.

End TraverseEstablish.

Lemma fold_add_grows {A} (f : JsSet.t -> A -> JsSet.t) l x :
  (forall s a, In x s -> In x (f s a)) ->
  forall s, In x s -> In x (fold_left f l s).
Proof.
  intros Hf. induction l as [|a l IH]; intros s Hs; cbn; auto.
Qed.

Lemma addProperties_grows module properties memberAccesses memberAccesses' x :
  addProperties module properties memberAccesses = Ok memberAccesses' ->
  In x memberAccesses -> In x memberAccesses'.
Proof.
  unfold addProperties. intros Hrun Hx. revert Hrun.
  apply (forEach_invariant (fun s => In x s)); [|exact Hx].
  intros property s s' _ Hs Hstep. cbn beta in Hstep.
  destruct property; try discriminate; injection Hstep as <-; [|exact Hs].
  apply JsSet_add_In. now left.
Qed.

Lemma addIndices_grows module length memberAccesses x :
  In x memberAccesses -> In x (addIndices module length memberAccesses).
Proof.
  unfold addIndices. apply fold_add_grows.
  intros s a Hs. apply JsSet_add_In. now left.
Qed.

Lemma trackDeclaratorAccess_grows env d memberAccesses memberAccesses' x :
  trackDeclaratorAccess env d memberAccesses = Ok memberAccesses' ->
  In x memberAccesses -> In x memberAccesses'.
Proof.
  unfold trackDeclaratorAccess. intros Hrun Hx.
  apply bind_Ok in Hrun as (id & _ & Hrun).
  destruct id; try (now injection Hrun as <-);
    destruct (patternFromRequire (Ast.init d));
    try (injection Hrun as <-; now apply addIndices_grows);
    try (eapply addProperties_grows; now eauto);
    (destruct (Ast.init d) as [[]|]; try (now injection Hrun as <-));
    apply bind_Ok in Hrun as ([v|] & _ & Hrun);
    try (now injection Hrun as <-);
    try (injection Hrun as <-; now apply addIndices_grows);
    eapply addProperties_grows; eauto.
Qed.

Lemma trackMemberAccess_grows node env memberAccesses memberAccesses' x :
  trackMemberAccess node env memberAccesses = Ok memberAccesses' ->
  In x memberAccesses -> In x memberAccesses'.
Proof.
  unfold trackMemberAccess. intros Hrun Hx.
  destruct node; try (now injection Hrun as <-).
  - destruct (_ && _).
    + apply bind_Ok in Hrun as ([v|] & _ & [= <-]); [|exact Hx].
      apply JsSet_add_In. now left.
    + destruct (isLiteralOrIdentifier node2); [|now injection Hrun as <-].
      destruct (directRequireAccess node1); injection Hrun as <-; [|exact Hx].
      apply JsSet_add_In. now left.
  - revert Hrun. apply (forEach_invariant (fun s => In x s)); [|exact Hx].
    intros d s s' _ Hs Hstep. eapply trackDeclaratorAccess_grows; eauto.
  - destruct (isType NodeTypes.Literal node); injection Hrun as <-;
      [|exact Hx].
    apply fold_add_grows; [|exact Hx].
    intros s [] Hs; auto. apply JsSet_add_In. now left.
  - destruct source as [source|]; [|now injection Hrun as <-].
    destruct (isType NodeTypes.Literal source); injection Hrun as <-;
      [|exact Hx].
    apply fold_add_grows; [|exact Hx].
    intros s [] Hs; auto. apply JsSet_add_In. now left.
Qed.

Lemma enterMember_grows node ancestors st st' x :
  enterMember node ancestors st = Ok st' -> In x (snd st) -> In x (snd st').
Proof.
  destruct st as [env acc]. unfold enterMember. intros Hrun Hx.
  apply bind_Ok in Hrun as (env1 & _ & Hrun).
  apply bind_Ok in Hrun as (env2 & _ & Hrun).
  apply bind_Ok in Hrun as (env3 & _ & Hrun).
  apply bind_Ok in Hrun as (acc' & Hacc & [= <-]).
  eapply trackMemberAccess_grows; eauto.
Qed.

Lemma fold_add_at {A} (f : JsSet.t -> A -> JsSet.t) l a v :
  In a l ->
  (forall s, In v (f s a)) ->
  (forall s b, In v s -> In v (f s b)) ->
  forall s, In v (fold_left f l s).
Proof.
  intros Ha Hadd Hkeep. induction l as [|b l IH]; [destruct Ha|].
  intros s. cbn [fold_left]. destruct Ha as [->|Ha]; [|now apply IH].
  apply fold_add_grows; auto.
Qed.

(** X16. Named imports and re-exports are recorded wherever the walk
    finds them: for every visited [import {x} from 'm'] the result of
    [extractMemberAccesses] has [m.x], and for every visited
    [export {x} from 'm'] likewise, with the local name of the
    specifier. *)
Theorem extractMemberAccesses_named_imports ast memberAccesses :
  extractMemberAccesses ast = Ok memberAccesses ->
  (forall i specifiers k m j imported local,
      Visited ast (Ast.ImportDeclaration i specifiers (Ast.Literal k (JStr m))) ->
      In (Ast.ImportSpecifier j imported local) specifiers ->
      In (JStr (m ++ "." ++ Ast.ident_name imported)) memberAccesses) /\
  (forall i declaration specifiers k m j local exported,
      Visited ast (Ast.ExportNamedDeclaration i declaration specifiers
                     (Some (Ast.Literal k (JStr m)))) ->
      In (Ast.ExportSpecifier j local exported) specifiers ->
      In (JStr (m ++ "." ++ Ast.ident_name local)) memberAccesses).
Proof.
  unfold extractMemberAccesses. intros Hrun.
  apply bind_Ok in Hrun as ([env acc] & Hrun & [= <-]).
  split.
  - intros i specifiers k m j imported local Hn Hspec.
    change (In (JStr (m ++ "." ++ Ast.ident_name imported)) (snd (env, acc))).
    eapply (traverse_establish
              enterMember leaveMember
              (fun st => In (JStr (m ++ "." ++ Ast.ident_name imported)) (snd st))
              (Ast.ImportDeclaration i specifiers (Ast.Literal k (JStr m))));
      [| | |exact Hrun|exact Hn].
    + intros n anc s s'. apply enterMember_grows.
    + now intros n s s' [= <-].
    + intros anc [env0 acc0] s' Henter. unfold enterMember in Henter.
      apply bind_Ok in Henter as (env1 & _ & Henter).
      apply bind_Ok in Henter as (env2 & _ & Henter).
      apply bind_Ok in Henter as (env3 & _ & Henter).
      apply bind_Ok in Henter as (acc' & Hacc & [= <-]).
      cbn in Hacc. injection Hacc as <-. cbn [snd].
      apply (fold_add_at _ _ _ _ Hspec).
      * intros s. apply JsSet_add_In. now right.
      * intros s [] Hs; auto. apply JsSet_add_In. now left.
  - intros i declaration specifiers k m j local exported Hn Hspec.
    change (In (JStr (m ++ "." ++ Ast.ident_name local)) (snd (env, acc))).
    eapply (traverse_establish
              enterMember leaveMember
              (fun st => In (JStr (m ++ "." ++ Ast.ident_name local)) (snd st))
              (Ast.ExportNamedDeclaration i declaration specifiers
                 (Some (Ast.Literal k (JStr m)))));
      [| | |exact Hrun|exact Hn].
    + intros n anc s s'. apply enterMember_grows.
    + now intros n s s' [= <-].
    + intros anc [env0 acc0] s' Henter. unfold enterMember in Henter.
      apply bind_Ok in Henter as (env1 & _ & Henter).
      apply bind_Ok in Henter as (env2 & _ & Henter).
      apply bind_Ok in Henter as (env3 & _ & Henter).
      apply bind_Ok in Henter as (acc' & Hacc & [= <-]).
      cbn in Hacc. injection Hacc as <-. cbn [snd].
      apply (fold_add_at _ _ _ _ Hspec).
      * intros s. apply JsSet_add_In. now right.
      * intros s [] Hs; auto. apply JsSet_add_In. now left.
Qed.

(** [import {readFile} from 'fs';] *)
Lemma extractMemberAccesses_named_imports_witness :
  In (JStr "fs.readFile") [JStr "fs.readFile"].
Proof.
  destruct (extractMemberAccesses_named_imports
              (Ast.Program 0
                 [Ast.ImportDeclaration 1
                    [Ast.ImportSpecifier 2 (Ast.mkIdent 3 "readFile")
                                         (Ast.mkIdent 4 "readFile")]
                    (Ast.Literal 5 (JStr "fs"))])
              [JStr "fs.readFile"] eq_refl) as [H _].
  apply (H 1 [Ast.ImportSpecifier 2 (Ast.mkIdent 3 "readFile")
                                  (Ast.mkIdent 4 "readFile")]
           5 "fs" 2 (Ast.mkIdent 3 "readFile") (Ast.mkIdent 4 "readFile")).
  - eapply Visited_child; [apply Visited_root|cbn; left; reflexivity|reflexivity].
  - now left.
Defined.

(** ** The dependency map (dependencyGraph.js) *)

Lemma fold_left_reach {A B} (f : A -> B -> A) (Q : A -> Prop) l b :
  In b l ->
  (forall a, Q (f a b)) ->
  (forall a c, Q a -> Q (f a c)) ->
  forall a, Q (fold_left f l a).
Proof.
  intros Hb Hset Hkeep. induction l as [|c l IH]; [destruct Hb|].
  intros a. cbn [fold_left]. destruct Hb as [->|Hb]; [|now apply IH].
  clear IH. generalize (f a b) (Hset a). induction l as [|d l IH]; cbn; auto.
Qed.

(** A read of [packagePathsMap[name]] for an own property gives its
    array. *)
Lemma lookupPaths_own (m : PathsMap) name :
  JsObject.has (JsObject.own m) name = true ->
  exists paths,
    Dict.get (JsObject.own m) name = Some paths /\
    lookupPaths m name = inl paths.
Proof.
  intros H. apply JsObject_has_In, Dict_keys_get in H.
  unfold lookupPaths.
  destruct (Dict.get (JsObject.own m) name) as [paths|]; [|congruence].
  eauto.
Qed.

(** After the test that makes sure of an array under the name, [push]
    finds an array: the two statements together throw nothing. *)
Lemma pushPath_ensurePaths (m : PathsMap) name path :
  exists m', pushPath (ensurePaths m name) name path = Ok m'.
Proof.
  unfold ensurePaths.
  destruct (includes (JsObject.keys m) (Some name)) eqn:E.
  - apply includes_keys, Dict_keys_get in E. unfold pushPath.
    destruct (Dict.get (JsObject.own m) name); [eauto|congruence].
  - unfold JsObject.assign.
    destruct (String.eqb name "__proto__"
              && negb (JsObject.has (JsObject.own m) name)) eqn:Ep.
    + apply Bool.andb_true_iff in Ep as [E1 E2].
      apply String.eqb_eq in E1. subst name.
      apply Bool.negb_true_iff, JsObject_has_get in E2.
      unfold pushPath, lookupPaths. cbn [JsObject.own JsObject.prototype].
      rewrite E2. cbn. eauto.
    + unfold pushPath. cbn [JsObject.own].
      rewrite JsObject_get_define, String.eqb_refl. eauto.
Qed.

(** The own arrays after a [push]: the array pushed on, or as before. *)
Lemma pushPath_own (m m' : PathsMap) name path n paths :
  pushPath m name path = Ok m' ->
  In (n, paths) (JsObject.own m') ->
  In (n, paths) (JsObject.own m) \/
  exists old, In (name, old) (JsObject.own m) /\ paths = old ++ [path].
Proof.
  unfold pushPath.
  destruct (Dict.get (JsObject.own m) name) as [old|] eqn:Hget.
  - intros [= <-]. cbn [JsObject.own]. intros Hin.
    apply Dict_set_In in Hin as [Hin| ->]; [auto|].
    right. exists old. split; [now apply Dict_get_In|reflexivity].
  - destruct (lookupPaths m name); [|discriminate].
    intros [= <-]. cbn [JsObject.own]. auto.
Qed.

Lemma ensurePaths_own (m : PathsMap) name n paths :
  In (n, paths) (JsObject.own (ensurePaths m name)) ->
  In (n, paths) (JsObject.own m) \/ paths = [].
Proof.
  unfold ensurePaths. destruct (includes _ _); [auto|].
  apply JsObject_assign_In.
Qed.

Section DependencyMapFacts.

Variable path_join : string -> string -> string.
Variable existsSync : string -> bool.

Local Abbreviation installed := (installedPath path_join existsSync).

Lemma buildPackagePathsMapVersion2or3_installed lockfile rootPath packages m :
  lock_packages lockfile = Some packages ->
  buildPackagePathsMapVersion2or3 path_join existsSync lockfile rootPath = Ok m ->
  forall name paths p,
    In (name, paths) (JsObject.own m) -> In p paths ->
    installed rootPath packages p.
Proof.
  unfold buildPackagePathsMapVersion2or3. intros ->. cbn [deref bind].
  apply (forEach_invariant
           (fun m : PathsMap => forall name paths p,
                In (name, paths) (JsObject.own m) -> In p paths ->
                installed rootPath packages p)); [|intros ? ? ? []].
  intros rel m0 m1 Hrel Hm Hstep. cbn zeta in Hstep.
  assert (forall name paths p,
             In (name, paths)
                (JsObject.own
                   (ensurePaths m0 (lastPathPart (path_join rootPath rel)))) ->
             In p paths -> installed rootPath packages p) as Hm'.
  { intros name paths p Hin Hp.
    apply ensurePaths_own in Hin as [Hin| ->]; [eauto|destruct Hp]. }
  destruct (existsSync (path_join rootPath rel)) eqn:E; cbn [negb] in Hstep.
  - intros name paths p Hin Hp.
    destruct (pushPath_own _ _ _ _ _ _ Hstep Hin)
      as [Hold|(old & Hold & ->)]; [eauto|].
    apply in_app_or in Hp as [Hp|[<-|[]]]; [eauto|].
    exists rel. auto.
  - injection Hstep as <-. exact Hm'.
Qed.

(** X17. The dependency map of a version 2 or 3 lock file, when the
    construction throws nothing: its keys are exactly the paths of the
    lock file's packages that exist on disk, and it is closed, every
    dependency listed under a key being a path that is a key itself. *)
Theorem dependencyMapFromLockfileVersion2or3_closed lockfile rootPath
        dependencyMap :
  dependencyMapFromLockfileVersion2or3 path_join existsSync lockfile rootPath
  = Ok dependencyMap ->
  exists packages,
    lock_packages lockfile = Some packages /\
    (forall k, In k (Dict.keys dependencyMap)
               <-> installed rootPath packages k) /\
    (forall k edges e,
        Dict.get dependencyMap k = Some edges -> In e edges ->
        exists p, e = EdgePath p /\ In p (Dict.keys dependencyMap)).
Proof.
  unfold dependencyMapFromLockfileVersion2or3. intros Hrun.
  apply bind_Ok in Hrun as (m & Hm & Hrun).
  apply bind_Ok in Hrun as (packages & Hp & Hrun).
  destruct (lock_packages lockfile) as [packages'|] eqn:Hpackages;
    [|discriminate]. injection Hp as ->.
  pose proof (buildPackagePathsMapVersion2or3_installed
                _ _ _ _ Hpackages Hm) as Hpaths.
  exists packages. split; [reflexivity|].
  assert (forall k, In k (Dict.keys dependencyMap)
                    <-> installed rootPath packages k) as Hkeys.
  { intros k. split.
    - revert k. revert Hrun.
      apply (forEach_invariant
               (fun d : Dict (list Edge) =>
                  forall k, In k (Dict.keys d) ->
                            installed rootPath packages k));
        [|intros k []].
      intros [rel package] d d' Hin Hd Hstep k.
      destruct (existsSync (path_join rootPath rel)) eqn:E;
        cbn [negb] in Hstep; [|injection Hstep as <-; apply Hd].
      apply bind_Ok in Hstep as (edges & _ & [= <-]).
      intros Hk. apply Dict_keys_set in Hk as [Hk| ->]; [auto|].
      exists rel. split; [|auto].
      apply in_map_iff. exists (rel, package). auto.
    - intros (rel & Hrel & -> & Hex).
      apply in_map_iff in Hrel as ([rel' package] & Hr & Hin).
      cbn in Hr. subst rel'. revert Hrun.
      apply (forEach_establish _
               (fun d : Dict (list Edge) =>
                  In (path_join rootPath rel) (Dict.keys d))
               packages (rel, package) Hin).
      + intros [rel' package'] d d' _ Hstep Hd.
        destruct (negb _); [now injection Hstep as <-|].
        apply bind_Ok in Hstep as (edges & _ & [= <-]).
        apply Dict_keys_set. now left.
      + intros d d' Hstep. rewrite Hex in Hstep. cbn [negb] in Hstep.
        apply bind_Ok in Hstep as (edges & _ & [= <-]).
        apply Dict_keys_set. now right. }
  split; [exact Hkeys|].
  intros k edges e Hget He.
  assert (exists p, e = EdgePath p /\ installed rootPath packages p)
    as (p & -> & Hinst).
  { apply Dict_get_In in Hget. revert k edges Hget e He. revert Hrun.
    apply (forEach_invariant
             (fun d : Dict (list Edge) => forall k edges,
                  In (k, edges) d -> forall e, In e edges ->
                  exists p, e = EdgePath p /\ installed rootPath packages p));
      [|intros ? ? []].
    intros [rel package] d d' Hin Hd Hstep k edges Hk.
    destruct (negb _); [injection Hstep as <-; eauto|].
    apply bind_Ok in Hstep as (edges' & Hedges & [= <-]).
    apply Dict_set_In in Hk as [Hk| ->]; [eauto|].
    revert Hedges.
    apply (forEach_invariant
             (fun l : list Edge => forall e, In e l ->
                  exists p, e = EdgePath p /\ installed rootPath packages p));
      [|intros ? []].
    intros name l l' _ Hl Hstep.
    apply bind_Ok in Hstep as (isOwn & Hown & [= <-]).
    destruct isOwn; [|exact Hl].
    unfold hasOwnProperty in Hown.
    destruct (JsObject.has (JsObject.own m) "hasOwnProperty");
      [discriminate|]. injection Hown as Hown.
    destruct (lookupPaths_own m name Hown) as (paths & Hn & ->).
    intros e He. cbn [concatPaths] in He.
    apply in_app_or in He as [He|He]; [auto|].
    apply in_map_iff in He as (p & <- & Hp).
    exists p. split; [reflexivity|].
    apply Dict_get_In in Hn. eauto. }
  exists p. split; [reflexivity|]. now apply Hkeys.
Qed.

End DependencyMapFacts.

(** A version 3 lock file of a package at [/app] with one dependency, all
    of it on disk. *)
Lemma dependencyMapFromLockfileVersion2or3_closed_witness :
  exists packages,
    lock_packages example_lockfile_v3 = Some packages /\
    (forall k, In k (Dict.keys example_dependencyMap_v3)
               <-> installedPath simple_join (fun _ => true) "/app" packages k)
    /\
    (forall k edges e,
        Dict.get example_dependencyMap_v3 k = Some edges ->
        In e edges ->
        exists p, e = EdgePath p /\ In p (Dict.keys example_dependencyMap_v3)).
Proof.
  apply (dependencyMapFromLockfileVersion2or3_closed
           simple_join (fun _ => true) example_lockfile_v3 "/app"
           example_dependencyMap_v3).
  reflexivity.
Defined.

Section LockEntryInduction.

Variable P : LockEntryV1 -> Prop.
Hypothesis HEntry :
  forall optional requires dependencies,
    (forall packages, dependencies = Some packages ->
                      Forall (fun e => P (snd e)) packages) ->
    P (mkLockEntryV1 optional requires dependencies).

(** Induction over a package entry of a version 1 lock file, with the
    hypothesis available for every nested package. *)
Lemma LockEntryV1_tree_ind : forall package, P package.
Proof.
  fix IH 1. intros [optional requires [packages|]]; apply HEntry.
  - intros packages' [= <-].
    induction packages as [|[name package] packages IHl].
    + constructor.
    + constructor; [apply IH | exact IHl].
  - intros packages' [=].
Qed.

End LockEntryInduction.

Section DependencyMapVersion1.

Variable path_join : string -> string -> string.
Variable existsSync : string -> bool.

(** The construction of [packagePathsMap] from a version 1 lock file
    throws nothing. *)
Lemma addPackagePathToMap_total package :
  forall nodeModulesPath packageName m,
  exists m',
    addPackagePathToMap path_join existsSync nodeModulesPath packageName
                        package m = Ok m'.
Proof.
  induction package as [optional requires dependencies IH]
    using LockEntryV1_tree_ind.
  intros nodeModulesPath packageName m. cbn [addPackagePathToMap].
  destruct (isTrue optional && negb (existsSync _)); [eauto|].
  destruct (pushPath_ensurePaths m packageName
              (path_join nodeModulesPath packageName)) as [m1 ->].
  cbn [bind]. destruct dependencies as [packages|]; [|eauto].
  specialize (IH packages eq_refl). rewrite Forall_forall in IH.
  apply forEach_total. intros [name package] m2 Hin. cbn [fst snd].
  apply (IH (name, package) Hin).
Qed.

Lemma buildPackagePathsMapVersion1_total lockfile nodeModulesPath packages :
  lock_dependencies lockfile = Some packages ->
  exists m,
    buildPackagePathsMapVersion1 path_join existsSync lockfile nodeModulesPath
    = Ok m.
Proof.
  intros E. unfold buildPackagePathsMapVersion1. rewrite E. cbn [deref bind].
  apply forEach_total. intros [name package] m _.
  apply addPackagePathToMap_total.
Qed.

Lemma addDependencyToMap_keeps_keys packagePathsMap k package :
  forall nodeModulesPath packageName dependencyMap,
    In k (Dict.keys dependencyMap) ->
    In k (Dict.keys (addDependencyToMap path_join existsSync packagePathsMap
                       nodeModulesPath packageName package dependencyMap)).
Proof.
  induction package as [optional requires dependencies IH]
    using LockEntryV1_tree_ind.
  intros nodeModulesPath packageName dependencyMap Hk.
  cbn [addDependencyToMap].
  destruct (truthy optional && negb (existsSync _)); [exact Hk|].
  destruct dependencies as [packages|].
  - specialize (IH packages eq_refl).
    match goal with
    | |- context [fold_left _ _ ?d] =>
        assert (In k (Dict.keys d)) as Hd
            by (apply Dict_keys_set; now left);
        revert Hd; generalize d
    end.
    induction packages as [|[name package] packages IHl]; intros d Hd;
      cbn [fold_left]; [exact Hd|].
    inversion IH as [|? ? Hp Hrest]; subst.
    apply IHl; [exact Hrest|]. cbn [fst snd]. now apply Hp.
  - apply Dict_keys_set. now left.
Qed.

(** X18. A version 1 lock file: without a [dependencies] section
    [getDependencyMap] throws ([Object.keys] of [undefined]); with one it
    returns a map that has the root path among its keys, so the root
    package is analysed. *)
Theorem getDependencyMap_version1_root packageJson lockfile rootPath :
  lockfileVersion lockfile = Some (JNum 1) ->
  match lock_dependencies lockfile with
  | None =>
      getDependencyMap path_join existsSync packageJson lockfile rootPath
      = Throw "TypeError"
  | Some _ =>
      exists dependencyMap,
        getDependencyMap path_join existsSync packageJson lockfile rootPath
        = Ok dependencyMap /\
        In rootPath (Dict.keys dependencyMap)
  end.
Proof.
  intros Hversion. unfold getDependencyMap. rewrite Hversion.
  unfold dependencyMapFromLockfileVersion1.
  destruct (lock_dependencies lockfile) as [packages|] eqn:Hpackages;
    [|unfold buildPackagePathsMapVersion1; now rewrite Hpackages].
  destruct (buildPackagePathsMapVersion1_total
              lockfile (path_join rootPath "node_modules/") packages Hpackages)
    as [m ->].
  cbn [deref bind]. eexists. split; [reflexivity|].
  apply (fold_left_invariant (fun d => In rootPath (Dict.keys d))).
  - intros d e _ Hd. now apply addDependencyToMap_keeps_keys.
  - cbn. now left.
Qed.

End DependencyMapVersion1.

(** A version 1 lock file without a [dependencies] section. *)
Lemma getDependencyMap_version1_root_witness :
  getDependencyMap simple_join (fun _ => true) (mkPackageJson [])
                   (mkLockfile (Some (JNum 1)) None None) "/app"
  = Throw "TypeError".
Proof.
  apply (getDependencyMap_version1_root
           simple_join (fun _ => true) (mkPackageJson [])
           (mkLockfile (Some (JNum 1)) None None) "/app").
  reflexivity.
Defined.

(** ** Reading a source file (main.js) *)

Section SplitLines.

Import JsString.

Local Abbreviation nl := (ascii_of_nat 10).

Lemma split_aux_newline_cons c s :
  split_aux newline 0 (String c s) =
  if Ascii.eqb c nl
  then (EmptyString, let (h, t) := split_aux newline 0 s in h :: t)
  else let (h, t) := split_aux newline 0 s in (String c h, t).
Proof.
  unfold newline. cbn [split_aux String.prefix String.length Nat.sub].
  destruct (ascii_dec nl c) as [<-|Hne].
  - rewrite Ascii.eqb_refl. destruct s; reflexivity.
  - destruct (Ascii.eqb_spec c nl) as [->|_]; [congruence|].
    destruct (ascii_dec nl c); [congruence|reflexivity].
Qed.

Lemma join_split_newline s : join newline (split newline s) = s.
Proof.
  unfold split, join, newline. fold newline.
  induction s as [|c s IH]; [reflexivity|].
  rewrite split_aux_newline_cons.
  destruct (split_aux newline 0 s) as [h t].
  destruct (Ascii.eqb_spec c nl) as [->|_].
  - cbn [String.concat]. cbn in IH |- *. now rewrite IH.
  - destruct t; cbn in IH |- *; congruence.
Qed.

Lemma split_newline_app line rest :
  contains nl line = false ->
  split newline (line ++ newline ++ rest) = line :: split newline rest.
Proof.
  unfold split, newline. fold newline.
  induction line as [|c line IH]; intros Hline.
  - change ("" ++ newline ++ rest)%string with (String nl rest).
    rewrite split_aux_newline_cons, Ascii.eqb_refl.
    now destruct (split_aux newline 0 rest).
  - cbn [contains] in Hline. apply Bool.orb_false_iff in Hline as [Hc Hline].
    change (String c line ++ newline ++ rest)%string
      with (String c (line ++ newline ++ rest)).
    rewrite split_aux_newline_cons.
    destruct (Ascii.eqb_spec c nl) as [->|_];
      [now rewrite Ascii.eqb_refl in Hc|].
    specialize (IH Hline).
    destruct (split_aux newline 0 (line ++ newline ++ rest)) as [h t].
    destruct (split_aux newline 0 rest) as [h' t'].
    now injection IH as -> ->.
Qed.

Lemma split_newline_single line :
  contains nl line = false -> split newline line = [line].
Proof.
  unfold split, newline. fold newline.
  induction line as [|c line IH]; intros Hline; [reflexivity|].
  cbn [contains] in Hline. apply Bool.orb_false_iff in Hline as [Hc Hline].
  rewrite split_aux_newline_cons.
  destruct (Ascii.eqb_spec c nl) as [->|_];
    [now rewrite Ascii.eqb_refl in Hc|].
  specialize (IH Hline).
  destruct (split_aux newline 0 line) as [h t].
  now injection IH as -> ->.
Qed.

(** X19. A file that starts with [#!] is parsed without its first line:
    the text handed to the parser is what follows the first line break,
    and the empty text when the file has no line break at all. *)
Theorem getASTFromPath_shebang buildTree readFileSync filePath locations line :
  contains nl line = false ->
  (forall rest,
      readFileSync filePath = ("#!" ++ line ++ newline ++ rest)%string ->
      getASTFromPath buildTree readFileSync filePath locations
      = buildTree rest locations) /\
  (readFileSync filePath = ("#!" ++ line)%string ->
   getASTFromPath buildTree readFileSync filePath locations
   = buildTree "" locations).
Proof.
  intros Hline.
  assert (contains nl ("#!" ++ line) = false) as Hfirst by exact Hline.
  unfold getASTFromPath. split.
  - intros rest ->.
    replace (startsWith ("#!" ++ line ++ newline ++ rest) "#!") with true
      by (cbn; now destruct line).
    unfold removeFirstLine.
    change ("#!" ++ line ++ newline ++ rest)%string
      with (("#!" ++ line) ++ newline ++ rest)%string.
    rewrite split_newline_app by exact Hfirst. cbn [skipn].
    now rewrite join_split_newline.
  - intros ->.
    replace (startsWith ("#!" ++ line) "#!") with true
      by (cbn; now destruct line).
    unfold removeFirstLine.
    now rewrite split_newline_single by exact Hfirst.
Qed.

End SplitLines.

Lemma getASTFromPath_shebang_witness :
  getASTFromPath example_buildTree
                 (fun _ => "#!/usr/bin/env node" ++ newline
                           ++ "const fs = require('fs'); fs.readFile;")%string
                 "cli.js" false
  = example_buildTree "const fs = require('fs'); fs.readFile;" false.
Proof.
  apply (getASTFromPath_shebang
           example_buildTree
           (fun _ => "#!/usr/bin/env node" ++ newline
                     ++ "const fs = require('fs'); fs.readFile;")%string
           "cli.js" false "/usr/bin/env node");
    reflexivity.
Defined.

(** ** The capabilities of a package (main.js) *)

Section PackagesFacts.

Variable builtinModules globalNames : list string.
Variable buildTree : string -> bool -> option Ast.node.
Variable readFileSync : string -> string.
Variable readdirSync : string -> list Dirent.
Variable path_join : string -> string -> string.

Local Abbreviation AST := (getASTFromPath buildTree readFileSync).
Local Abbreviation files := (jsFilePathsOf readdirSync path_join).
Local Abbreviation NATIVE := (NATIVE_MODULES builtinModules).
Local Abbreviation coarseOf :=
  (getAccessesForPackage builtinModules globalNames buildTree readFileSync
                         readdirSync path_join).
Local Abbreviation fineOf :=
  (getMemberAccessesForPackage builtinModules globalNames buildTree
                               readFileSync readdirSync path_join).

(** X20. The coarse capabilities of a package are exactly what its parsed
    files give: a module is in the set when some parsed file of the package
    imports it and, unless custom modules are included, it is a built-in
    module; a global is in the set when some parsed file uses it.  Files
    that do not parse contribute nothing. *)
Theorem getAccessesForPackage_exact packagePath includeCustomModules locations
        coarse :
  getAccessesForPackage builtinModules globalNames buildTree readFileSync
    readdirSync path_join packagePath includeCustomModules locations
  = Ok coarse ->
  (forall v,
      In v (modules coarse) <->
      (exists filePath ast,
          In filePath (files packagePath) /\
          AST filePath locations = Some ast /\
          In v (extractImports ast)) /\
      (includeCustomModules = true \/ In v NATIVE)) /\
  (forall g,
      In g (globals coarse) <->
      exists filePath ast fileGlobals fileGlobalMembers,
        In filePath (files packagePath) /\
        AST filePath locations = Some ast /\
        extractGlobals globalNames ast = Ok (fileGlobals, fileGlobalMembers) /\
        In g fileGlobals).
Proof.
  intros Hrun. pose proof Hrun as Hcoarse.
  unfold getAccessesForPackage in Hrun.
  apply bind_Ok in Hrun as ([ms gs] & Hloop & [= <-]). cbn [modules globals].
  assert ((forall v, In v ms ->
             exists filePath ast,
               In filePath (files packagePath) /\
               AST filePath locations = Some ast /\
               In v (extractImports ast)) /\
          (forall g, In g gs ->
             exists filePath ast fileGlobals fileGlobalMembers,
               In filePath (files packagePath) /\
               AST filePath locations = Some ast /\
               extractGlobals globalNames ast
               = Ok (fileGlobals, fileGlobalMembers) /\
               In g fileGlobals)) as [Hms Hgs].
  { change ms with (fst (ms, gs)). change gs with (snd (ms, gs)) at 2.
    revert Hloop.
    apply (forEach_invariant
             (fun st : JsSet.t * JsSet.t =>
                (forall v, In v (fst st) ->
                   exists filePath ast,
                     In filePath (files packagePath) /\
                     AST filePath locations = Some ast /\
                     In v (extractImports ast)) /\
                (forall g, In g (snd st) ->
                   exists filePath ast fileGlobals fileGlobalMembers,
                     In filePath (files packagePath) /\
                     AST filePath locations = Some ast /\
                     extractGlobals globalNames ast
                     = Ok (fileGlobals, fileGlobalMembers) /\
                     In g fileGlobals)));
      [|split; intros ? []].
    intros f [m g] [m' g'] Hf [Hm Hg] Hstep. cbn [fst snd] in *.
    destruct (AST f locations) as [a|] eqn:Ha;
      [|injection Hstep as <- <-; auto].
    apply bind_Ok in Hstep as ([fg fgm] & Hfg & [= <- <-]). split.
    - intros v Hv. apply JsSet_union_In in Hv as [Hv|Hv]; [auto|].
      exists f, a. auto.
    - intros x Hx. apply JsSet_union_In in Hx as [Hx|Hx]; [auto|].
      exists f, a, fg, fgm. auto. }
  split.
  - intros v. split.
    + destruct includeCustomModules; cbn [negb].
      * intros Hv. split; [auto|now left].
      * intros Hv. apply JsSet_intersection_In in Hv as [Hv Hn].
        split; [auto|now right].
    + intros [(f & a & Hf & Ha & Hv) Hn].
      apply (getAccessesForPackage_complete
               _ _ _ _ _ _ _ _ _ _ f a v Hcoarse Hf Ha Hv).
      destruct Hn; auto.
  - intros g. split; [apply Hgs|].
    intros (f & a & fg & fgm & Hf & Ha & Hfg & Hg).
    change (In g (snd (ms, gs))).
    eapply (forEach_establish _ (fun s => In g (snd s)) _ f Hf);
      [| |exact Hloop].
    + intros f' [m x] [m' x'] _ Hstep Hx. cbn [snd] in *.
      destruct (AST f' locations) as [a'|]; [|now injection Hstep as _ <-].
      apply bind_Ok in Hstep as ([fg' gm'] & _ & [= _ <-]).
      now apply JsSet_union_grows.
    + intros [m x] [m' x'] Hstep. cbn [snd]. rewrite Ha, Hfg in Hstep.
      cbn [bind] in Hstep. injection Hstep as _ <-.
      apply JsSet_union_In. now right.
Qed.

(** X21. Every module member of the fine capabilities of a package is a
    string [m.x] whose module [m] is a built-in module: member accesses on
    other modules are dropped, whatever the coarse setting. *)
Theorem getMemberAccessesForPackage_builtin packagePath locations fine x :
  getMemberAccessesForPackage builtinModules globalNames buildTree
    readFileSync readdirSync path_join packagePath locations = Ok fine ->
  In x (modules fine) ->
  exists m member,
    x = JStr (m ++ "." ++ member) /\ In m builtinModules.
Proof.
  intros Hrun Hx.
  destruct (getMemberAccessesForPackage_sound _ _ _ _ _ _ _ _ _ _ Hrun Hx)
    as (s & _ & _ & _ & -> & Hm & _).
  exists (MemberAccess.module (MemberAccess.fromString s)),
         (template_opt (MemberAccess.memberName (MemberAccess.fromString s))).
  split; [reflexivity|exact Hm].
Qed.

(** X22. [getCapabilitiesFromDependencyMap] analyses the keys of the
    dependency map and nothing else: the coarse capabilities have exactly
    these keys, each with the result of [getAccessesForPackage] on it; the
    fine capabilities have the same keys when member access tracing is
    [true] and are empty for any other value of the flag. *)
Theorem getCapabilitiesFromDependencyMap_keys {V} (dependencyMap : Dict V)
        memberAccessTracing includeCustomModules locations
        capabilitiesCoarse capabilitiesFine :
  getCapabilitiesFromDependencyMap
    builtinModules globalNames buildTree readFileSync readdirSync path_join
    dependencyMap memberAccessTracing includeCustomModules locations
  = Ok (capabilitiesCoarse, capabilitiesFine) ->
  (forall k, In k (Dict.keys capabilitiesCoarse)
             <-> In k (Dict.keys dependencyMap)) /\
  (forall k c, Dict.get capabilitiesCoarse k = Some c ->
               coarseOf k includeCustomModules locations = Ok c) /\
  (forall k, In k (Dict.keys capabilitiesFine)
             <-> memberAccessTracing = Some true /\
                 In k (Dict.keys dependencyMap)) /\
  (forall k c, Dict.get capabilitiesFine k = Some c ->
               fineOf k locations = Ok c).
Proof.
  unfold getCapabilitiesFromDependencyMap. intros Hrun.
  assert ((forall k, In k (Dict.keys capabilitiesCoarse) ->
                     In k (Dict.keys dependencyMap)) /\
          (forall k c, Dict.get capabilitiesCoarse k = Some c ->
                       coarseOf k includeCustomModules locations = Ok c) /\
          (forall k, In k (Dict.keys capabilitiesFine) ->
                     memberAccessTracing = Some true /\
                     In k (Dict.keys dependencyMap)) /\
          (forall k c, Dict.get capabilitiesFine k = Some c ->
                       fineOf k locations = Ok c)) as (H1 & H2 & H3 & H4).
  { change capabilitiesCoarse with (fst (capabilitiesCoarse, capabilitiesFine)).
    change capabilitiesFine
      with (snd (capabilitiesCoarse, capabilitiesFine)) at 3 4.
    revert Hrun.
    apply (forEach_invariant
             (fun st : Dict Capabilities * Dict Capabilities =>
                (forall k, In k (Dict.keys (fst st)) ->
                           In k (Dict.keys dependencyMap)) /\
                (forall k c, Dict.get (fst st) k = Some c ->
                             coarseOf k includeCustomModules locations = Ok c) /\
                (forall k, In k (Dict.keys (snd st)) ->
                           memberAccessTracing = Some true /\
                           In k (Dict.keys dependencyMap)) /\
                (forall k c, Dict.get (snd st) k = Some c ->
                             fineOf k locations = Ok c)));
      [|repeat split; intros; try discriminate; contradiction].
    intros p [cc cf] [cc' cf'] Hp (I1 & I2 & I3 & I4) Hstep.
    cbn [fst snd] in *.
    apply bind_Ok in Hstep as (coarse & Hcoarse & Hstep).
    assert ((forall k, In k (Dict.keys (Dict.set cc p coarse)) ->
                       In k (Dict.keys dependencyMap)) /\
            (forall k c, Dict.get (Dict.set cc p coarse) k = Some c ->
                         coarseOf k includeCustomModules locations = Ok c))
      as [J1 J2].
    { split.
      - intros k Hk. apply Dict_keys_set in Hk as [Hk| ->]; auto.
      - intros k c. rewrite Dict_get_set.
        destruct (String.eqb_spec k p) as [->|_]; [|apply I2].
        now intros [= <-]. }
    destruct memberAccessTracing as [[|]|];
      try (injection Hstep as <- <-; auto).
    apply bind_Ok in Hstep as (fine & Hfine & [= <- <-]).
    repeat split; auto.
    - apply Dict_keys_set in H as [H| ->]; [now apply I3|exact Hp].
    - intros k c. rewrite Dict_get_set.
      destruct (String.eqb_spec k p) as [->|_]; [|apply I4].
      now intros [= <-]. }
  split; [|split; [exact H2|split; [|exact H4]]].
  - intros k. split; [apply H1|]. intros Hk.
    change (In k (Dict.keys (fst (capabilitiesCoarse, capabilitiesFine)))).
    eapply (forEach_establish _ (fun st => In k (Dict.keys (fst st)))
                              _ k Hk); [| |exact Hrun].
    + intros p [cc cf] [cc' cf'] _ Hstep Hin. cbn [fst] in *.
      apply bind_Ok in Hstep as (coarse & _ & Hstep).
      assert (In k (Dict.keys (Dict.set cc p coarse))) as Hset
          by (apply Dict_keys_set; now left).
      destruct memberAccessTracing as [[|]|];
        try (now injection Hstep as <- _).
      now apply bind_Ok in Hstep as (fine & _ & [= <- _]).
    + intros [cc cf] [cc' cf'] Hstep. cbn [fst].
      apply bind_Ok in Hstep as (coarse & _ & Hstep).
      assert (In k (Dict.keys (Dict.set cc k coarse))) as Hset
          by (apply Dict_keys_set; now right).
      destruct memberAccessTracing as [[|]|];
        try (now injection Hstep as <- _).
      now apply bind_Ok in Hstep as (fine & _ & [= <- _]).
  - intros k. split; [apply H3|]. intros [-> Hk].
    change (In k (Dict.keys (snd (capabilitiesCoarse, capabilitiesFine)))).
    eapply (forEach_establish _ (fun st => In k (Dict.keys (snd st)))
                              _ k Hk); [| |exact Hrun].
    + intros p [cc cf] [cc' cf'] _ Hstep Hin. cbn [snd] in *.
      apply bind_Ok in Hstep as (coarse & _ & Hstep).
      apply bind_Ok in Hstep as (fine & _ & [= _ <-]).
      apply Dict_keys_set. now left.
    + intros [cc cf] [cc' cf'] Hstep. cbn [snd].
      apply bind_Ok in Hstep as (coarse & _ & Hstep).
      apply bind_Ok in Hstep as (fine & _ & [= _ <-]).
      apply Dict_keys_set. now right.
Qed.

End PackagesFacts.

(** The package of the examples, with [fs] and [path] built in. *)
Lemma getAccessesForPackage_exact_witness :
  In (JStr "fs") (modules (mkCapabilities [JStr "fs"] [])) <->
  (exists filePath ast,
      In filePath (jsFilePathsOf example_readdirSync simple_join "/app") /\
      getASTFromPath example_buildTree example_readFileSync filePath false
      = Some ast /\
      In (JStr "fs") (extractImports ast)) /\
  (false = true \/ In (JStr "fs") (NATIVE_MODULES ["fs"; "path"])).
Proof.
  destruct (getAccessesForPackage_exact
              ["fs"; "path"] ["console"] example_buildTree example_readFileSync
              example_readdirSync simple_join "/app" false false
              (mkCapabilities [JStr "fs"] []) eq_refl) as [H _].
  apply H.
Defined.

Lemma getMemberAccessesForPackage_builtin_witness :
  exists m member,
    JStr "fs.readFile" = JStr (m ++ "." ++ member) /\ In m ["fs"; "path"].
Proof.
  apply (getMemberAccessesForPackage_builtin
           ["fs"; "path"] ["console"] example_buildTree example_readFileSync
           example_readdirSync simple_join "/app" false
           (mkCapabilities [JStr "fs.readFile"] []) (JStr "fs.readFile")).
  - reflexivity.
  - now left.
Defined.

(** The two packages of the version 3 lock file, without member access
    tracing. *)
Lemma getCapabilitiesFromDependencyMap_keys_witness :
  In "/app/node_modules/dep"
     (Dict.keys [("/app", mkCapabilities [JStr "fs"] []);
                 ("/app/node_modules/dep", mkCapabilities [JStr "fs"] [])])
  <-> In "/app/node_modules/dep" (Dict.keys example_dependencyMap_v3).
Proof.
  destruct (getCapabilitiesFromDependencyMap_keys
              ["fs"; "path"] ["console"] example_buildTree example_readFileSync
              example_readdirSync simple_join example_dependencyMap_v3
              None false false
              [("/app", mkCapabilities [JStr "fs"] []);
               ("/app/node_modules/dep", mkCapabilities [JStr "fs"] [])]
              [] eq_refl) as [H _].
  exact (H "/app/node_modules/dep").
Defined.

(** ** Comparing policies (main.js) *)

Lemma Dict_set_fresh {V} (d : Dict V) k v :
  Dict.get d k = None -> Dict.set d k v = d ++ [(k, v)].
Proof.
  induction d as [|[k' v'] d IH]; cbn; [reflexivity|].
  destruct (String.eqb k k'); [discriminate|].
  intros H. now rewrite IH.
Qed.

Lemma Dict_set_set {V} (d : Dict V) k v v' :
  Dict.set (Dict.set d k v) k v' = Dict.set d k v'.
Proof.
  induction d as [|[k' w] d IH]; cbn.
  - now rewrite String.eqb_refl.
  - destruct (String.eqb k k') eqn:E; cbn; rewrite E; [reflexivity|].
    now rewrite IH.
Qed.

Lemma Dict_get_set_same {V} (d : Dict V) k v :
  Dict.get (Dict.set d k v) k = Some v.
Proof. rewrite Dict_get_set. now rewrite String.eqb_refl. Qed.

Lemma entryOf_set d p v : entryOf (Dict.set d p v) p = v.
Proof. unfold entryOf. now rewrite Dict_get_set_same. Qed.

Lemma noCapabilities_app ms1 gs1 ms2 gs2 :
  noCapabilities (mkCapabilities (ms1 ++ ms2) (gs1 ++ gs2))
  = noCapabilities (mkCapabilities ms1 gs1)
    && noCapabilities (mkCapabilities ms2 gs2).
Proof. destruct ms1, gs1, ms2, gs2; reflexivity. Qed.

Lemma addUses_addUses p ms1 gs1 ms2 gs2 newUses :
  addUses p ms2 gs2 (addUses p ms1 gs1 newUses)
  = addUses p (ms1 ++ ms2) (gs1 ++ gs2) newUses.
Proof.
  unfold addUses. rewrite noCapabilities_app.
  destruct (noCapabilities (mkCapabilities ms1 gs1)) eqn:E1.
  - destruct ms1, gs1; try discriminate. reflexivity.
  - cbn [andb].
    destruct (noCapabilities (mkCapabilities ms2 gs2)) eqn:E2.
    + destruct ms2, gs2; try discriminate. now rewrite !app_nil_r.
    + rewrite !entryOf_set, Dict_set_set.
      cbn [modules globals]. now rewrite <- !app_assoc.
Qed.

Lemma pushGlobal_addUses p x newUses :
  inherited p = false ->
  pushGlobal p x newUses = Ok (addUses p [] [x] newUses).
Proof.
  intros Hp. unfold pushGlobal, ensureEntry, addUses, entryOf. rewrite Hp.
  cbn [noCapabilities modules globals].
  destruct (Dict.get newUses p) as [entry|] eqn:E; cbn [deref bind].
  - rewrite E. cbn [deref bind]. now rewrite app_nil_r.
  - rewrite Dict_get_set_same. cbn [deref bind modules globals].
    now rewrite Dict_set_set.
Qed.

Lemma pushModule_addUses p x newUses :
  inherited p = false ->
  pushModule p x newUses = Ok (addUses p [x] [] newUses).
Proof.
  intros Hp. unfold pushModule, ensureEntry, addUses, entryOf. rewrite Hp.
  cbn [noCapabilities modules globals].
  destruct (Dict.get newUses p) as [entry|] eqn:E; cbn [deref bind].
  - rewrite E. cbn [deref bind]. now rewrite app_nil_r.
  - rewrite Dict_get_set_same. cbn [deref bind modules globals].
    now rewrite Dict_set_set.
Qed.

Lemma diffArray_globals p allowed array : forall newUses,
  inherited p = false ->
  diffArray (Some allowed) (pushGlobal p) array newUses
  = Ok (addUses p []
          (List.filter (fun x => negb (arrayIncludes allowed x)) array)
          newUses).
Proof.
  unfold diffArray. induction array as [|x array IH]; intros newUses Hp;
    cbn [forEach List.filter deref bind]; [reflexivity|].
  destruct (arrayIncludes allowed x); cbn [negb bind].
  - now apply IH.
  - rewrite pushGlobal_addUses by exact Hp. cbn [bind].
    rewrite IH by exact Hp. now rewrite addUses_addUses.
Qed.

Lemma diffArray_modules p allowed array : forall newUses,
  inherited p = false ->
  diffArray (Some allowed) (pushModule p) array newUses
  = Ok (addUses p
          (List.filter (fun x => negb (arrayIncludes allowed x)) array) []
          newUses).
Proof.
  unfold diffArray. induction array as [|x array IH]; intros newUses Hp;
    cbn [forEach List.filter deref bind]; [reflexivity|].
  destruct (arrayIncludes allowed x); cbn [negb bind].
  - now apply IH.
  - rewrite pushModule_addUses by exact Hp. cbn [bind].
    rewrite IH by exact Hp. now rewrite addUses_addUses.
Qed.

Lemma allowedOf_own oldPolicy p :
  inherited p = false ->
  allowedOf oldPolicy p
  = (Some (modules (entryOf oldPolicy p)), Some (globals (entryOf oldPolicy p))).
Proof.
  intros Hp. unfold allowedOf, entryOf. rewrite Hp.
  now destruct (Dict.get oldPolicy p).
Qed.

Lemma Dict_get_app_fresh {V} (d : Dict V) k v k' :
  Dict.get d k' = None -> k' <> k -> Dict.get (d ++ [(k, v)]) k' = None.
Proof.
  induction d as [|[k0 v0] d IH]; cbn.
  - intros _ Hne. now destruct (String.eqb_spec k' k).
  - destruct (String.eqb k' k0); [discriminate|]. exact IH.
Qed.

Lemma addUses_fresh p ms gs newUses :
  Dict.get newUses p = None ->
  addUses p ms gs newUses
  = newUses ++ (if noCapabilities (mkCapabilities ms gs) then []
                else [(p, mkCapabilities ms gs)]).
Proof.
  intros Hnone. unfold addUses, entryOf. rewrite Hnone.
  destruct (noCapabilities (mkCapabilities ms gs)).
  - now rewrite app_nil_r.
  - cbn [modules globals app]. now apply Dict_set_fresh.
Qed.

Section PolicyDiff.

Variable oldPolicy : option (Dict Capabilities).

Local Abbreviation old := (match oldPolicy with Some o => o | None => [] end).

(** The packages with something new, each with what is new. *)
Local Abbreviation newUsesIn :=
  (flat_map (fun entry : string * Capabilities =>
               if noCapabilities (newUsesOf old (fst entry) (snd entry))
               then []
               else [(fst entry, newUsesOf old (fst entry) (snd entry))])).

Lemma policyDiff_loop newPolicy :
  NoDup (Dict.keys newPolicy) ->
  (forall k, In k (Dict.keys newPolicy) -> inherited k = false) ->
  forall newUses,
    (forall k, In k (Dict.keys newPolicy) -> Dict.get newUses k = None) ->
    forEach (fun (entry : string * Capabilities) newUses =>
               let (packagePath, new) := entry in
               let (allowedModules, allowedGlobals) :=
                 allowedOf old packagePath in
               newUses <- diffArray allowedGlobals (pushGlobal packagePath)
                                    (globals new) newUses ;;
               diffArray allowedModules (pushModule packagePath)
                         (modules new) newUses)
            newPolicy newUses
    = Ok (newUses ++ newUsesIn newPolicy).
Proof.
  induction newPolicy as [|[p new] newPolicy IH];
    intros Hdup Hown newUses Hfresh; cbn [forEach flat_map].
  - now rewrite app_nil_r.
  - cbn [Dict.keys List.map fst] in Hdup, Hown, Hfresh.
    inversion Hdup as [|? ? Hp Hdup']; subst.
    assert (inherited p = false) as Hi by (apply Hown; now left).
    rewrite allowedOf_own by exact Hi.
    rewrite diffArray_globals by exact Hi. cbn [bind].
    rewrite diffArray_modules by exact Hi.
    rewrite addUses_addUses, app_nil_r. cbn [app bind].
    assert (Dict.get newUses p = None) as Hnone by (apply Hfresh; now left).
    rewrite addUses_fresh by exact Hnone.
    change (mkCapabilities
              (List.filter (fun x => negb (arrayIncludes
                                             (modules (entryOf old p)) x))
                           (modules new))
              (List.filter (fun x => negb (arrayIncludes
                                             (globals (entryOf old p)) x))
                           (globals new)))
      with (newUsesOf old p new).
    cbn [fst snd].
    rewrite (IH Hdup' (fun k Hk => Hown k (or_intror Hk))).
    + now rewrite <- app_assoc.
    + intros k Hk.
      destruct (noCapabilities (newUsesOf old p new)).
      * rewrite app_nil_r. apply Hfresh. now right.
      * apply Dict_get_app_fresh.
        -- apply Hfresh. now right.
        -- intros ->. contradiction.
Qed.

Lemma policyDiff_flat_map newPolicy :
  NoDup (Dict.keys newPolicy) ->
  (forall k, In k (Dict.keys newPolicy) -> inherited k = false) ->
  policyDiff oldPolicy newPolicy = Ok (newUsesIn newPolicy).
Proof.
  intros Hdup Hown. unfold policyDiff.
  now rewrite policyDiff_loop.
Qed.

Lemma newUsesIn_get newPolicy p :
  NoDup (Dict.keys newPolicy) ->
  Dict.get (newUsesIn newPolicy) p =
  match Dict.get newPolicy p with
  | Some new =>
      if noCapabilities (newUsesOf old p new) then None
      else Some (newUsesOf old p new)
  | None => None
  end.
Proof.
  induction newPolicy as [|[k new] newPolicy IH]; intros Hdup;
    cbn [flat_map Dict.get fst snd]; [reflexivity|].
  cbn [Dict.keys List.map fst] in Hdup.
  inversion Hdup as [|? ? Hk Hdup']; subst.
  assert (forall q, Dict.get (newUsesIn newPolicy) q <> None ->
                    In q (Dict.keys newPolicy)) as Hsub.
  { intros q Hq. apply Dict_keys_get in Hq. unfold Dict.keys in Hq.
    apply in_map_iff in Hq as ([q' u] & Hq' & Hin). cbn in Hq'. subst q'.
    apply in_flat_map in Hin as ([q' e] & Hin & Hu). cbn [fst snd] in Hu.
    destruct (noCapabilities _); [destruct Hu|].
    destruct Hu as [[= -> _]|[]].
    apply in_map_iff. exists (q, e). auto. }
  destruct (String.eqb_spec p k) as [->|Hne].
  - destruct (noCapabilities (newUsesOf old k new)); cbn [app Dict.get].
    + destruct (Dict.get (newUsesIn newPolicy) k) eqn:E; [|reflexivity].
      exfalso. apply Hk, Hsub. congruence.
    + now rewrite String.eqb_refl.
  - destruct (noCapabilities (newUsesOf old k new)); cbn [app Dict.get].
    + now apply IH.
    + destruct (String.eqb_spec p k); [congruence|]. now apply IH.
Qed.

(** X23. [policyDiff] on a new policy whose keys are no property names of
    [Object.prototype]: the result has an entry for exactly the packages
    that have a module or a global which the old policy (nothing, when the
    old policy is [undefined] or has no entry for the package) does not
    list, and the entry holds exactly those, in the order of the new
    policy. *)
Theorem policyDiff_new_uses newPolicy :
  NoDup (Dict.keys newPolicy) ->
  (forall k, In k (Dict.keys newPolicy) -> inherited k = false) ->
  exists newUses,
    policyDiff oldPolicy newPolicy = Ok newUses /\
    forall p,
      Dict.get newUses p =
      match Dict.get newPolicy p with
      | Some new =>
          if noCapabilities (newUsesOf old p new) then None
          else Some (newUsesOf old p new)
      | None => None
      end.
Proof.
  intros Hdup Hown. eexists. split; [now apply policyDiff_flat_map|].
  intros p. now apply newUsesIn_get.
Qed.

Lemma filter_nil_iff {A} (f : A -> bool) l :
  List.filter f l = [] <-> forall x, In x l -> f x = false.
Proof.
  induction l as [|a l IH]; cbn.
  - split; [intros _ x []|reflexivity].
  - destruct (f a) eqn:E.
    + split; [discriminate|]. intros H.
      specialize (H a (or_introl eq_refl)). congruence.
    + rewrite IH. split.
      * intros H x [<-|Hx]; auto.
      * intros H x Hx. apply H. now right.
Qed.

Lemma noCapabilities_newUsesOf p new :
  noCapabilities (newUsesOf old p new) = true <->
  (forall x, In x (modules new) -> In x (modules (entryOf old p))) /\
  (forall x, In x (globals new) -> In x (globals (entryOf old p))).
Proof.
  unfold noCapabilities, newUsesOf. cbn [modules globals].
  assert (forall allowed l,
             List.filter (fun x => negb (arrayIncludes allowed x)) l = [] <->
             forall x, In x l -> In x allowed) as Hf.
  { intros allowed l. rewrite filter_nil_iff. split; intros H x Hx.
    - apply JsSet_has_In. specialize (H x Hx).
      now apply Bool.negb_false_iff in H.
    - apply Bool.negb_false_iff. apply (proj2 (JsSet_has_In allowed x)). auto. }
  rewrite <- !Hf.
  destruct (List.filter _ (modules new)), (List.filter _ (globals new));
    split; try discriminate; try tauto; intros [H1 H2]; discriminate.
Qed.

Lemma newUsesIn_nil_iff newPolicy :
  newUsesIn newPolicy = [] <->
  forall p new,
    In (p, new) newPolicy ->
    (forall x, In x (modules new) -> In x (modules (entryOf old p))) /\
    (forall x, In x (globals new) -> In x (globals (entryOf old p))).
Proof.
  split.
  - intros Hnil p new Hin. apply noCapabilities_newUsesOf.
    destruct (noCapabilities (newUsesOf old p new)) eqn:E; [reflexivity|].
    assert (In (p, newUsesOf old p new) (newUsesIn newPolicy)) as Habs.
    { apply in_flat_map. exists (p, new). split; [exact Hin|].
      cbn [fst snd]. rewrite E. now left. }
    rewrite Hnil in Habs. destruct Habs.
  - intros H.
    induction newPolicy as [|[p new] newPolicy IH]; [reflexivity|].
    cbn [flat_map fst snd].
    rewrite (proj2 (noCapabilities_newUsesOf p new))
      by (apply H; now left).
    cbn [app]. apply IH. intros q e Hq. apply H. now right.
Qed.

(** X24. [policyDiff] returns the empty object exactly when the new policy
    has nothing new: every module and every global of every package is
    listed for the package in the old policy. *)
Theorem policyDiff_empty_iff newPolicy :
  NoDup (Dict.keys newPolicy) ->
  (forall k, In k (Dict.keys newPolicy) -> inherited k = false) ->
  (policyDiff oldPolicy newPolicy = Ok [] <->
   forall p new,
     In (p, new) newPolicy ->
     (forall x, In x (modules new) -> In x (modules (entryOf old p))) /\
     (forall x, In x (globals new) -> In x (globals (entryOf old p)))).
Proof.
  intros Hdup Hown. rewrite policyDiff_flat_map by assumption.
  rewrite <- newUsesIn_nil_iff. split; [now intros [= ->]|now intros ->].
Qed.

Lemma newUsesIn_keys newPolicy k :
  In k (Dict.keys (newUsesIn newPolicy)) -> In k (Dict.keys newPolicy).
Proof.
  unfold Dict.keys. intros Hk.
  apply in_map_iff in Hk as ([k' u] & Hk' & Hin). cbn in Hk'. subst k'.
  apply in_flat_map in Hin as ([k' e] & Hin & Hu). cbn [fst snd] in Hu.
  destruct (noCapabilities _); [destruct Hu|].
  destruct Hu as [[= -> _]|[]].
  apply in_map_iff. exists (k, e). auto.
Qed.

Lemma diffArray_inherited allowed push array newUses :
  (forall x, push x newUses = Throw "TypeError") ->
  diffArray (Some allowed) push array newUses
  = if match List.filter (fun x => negb (arrayIncludes allowed x)) array with
       | [] => true
       | _ => false
       end
    then Ok newUses else Throw "TypeError".
Proof.
  intros Hpush. unfold diffArray.
  induction array as [|x array IH]; cbn [forEach List.filter deref bind];
    [reflexivity|].
  destruct (arrayIncludes allowed x); cbn [negb bind]; [exact IH|].
  now rewrite Hpush.
Qed.

(** X25. A package whose name is a property name of [Object.prototype]
    (such as [constructor]) makes [policyDiff] throw as soon as it has
    something new: [packagePath in newUses] is true for the inherited
    property, so no entry is created and [push] is called on [undefined];
    without an entry of its own in the old policy already the test of the
    allowed arrays throws. *)
Theorem policyDiff_inherited_name before p new after :
  NoDup (Dict.keys before) ->
  (forall k, In k (Dict.keys before) -> inherited k = false) ->
  inherited p = true ->
  noCapabilities (newUsesOf old p new) = false ->
  policyDiff oldPolicy (before ++ (p, new) :: after) = Throw "TypeError".
Proof.
  intros Hdup Hown Hp Hnew. unfold policyDiff.
  rewrite forEach_app, policyDiff_loop by (auto; intros; reflexivity).
  cbn [app bind forEach].
  assert (Dict.get (newUsesIn before) p = None) as Hnone.
  { destruct (Dict.get (newUsesIn before) p) eqn:E; [|reflexivity].
    assert (In p (Dict.keys before)) as Hin
        by (apply newUsesIn_keys, Dict_keys_get; congruence).
    apply Hown in Hin. congruence. }
  unfold newUsesOf, noCapabilities, entryOf in Hnew.
  cbn [modules globals] in Hnew.
  unfold allowedOf. rewrite Hp.
  destruct (Dict.get old p) as [entry|].
  - rewrite (diffArray_inherited (globals entry) (pushGlobal p))
      by (intros x; unfold pushGlobal, ensureEntry;
          now rewrite Hnone, Hp, Hnone).
    destruct (List.filter _ (globals new)); [|reflexivity]. cbn [bind].
    rewrite (diffArray_inherited (modules entry) (pushModule p))
      by (intros x; unfold pushModule, ensureEntry;
          now rewrite Hnone, Hp, Hnone).
    destruct (List.filter _ (modules new)); [discriminate|reflexivity].
  - cbn [modules globals arrayIncludes existsb negb] in Hnew.
    unfold diffArray.
    destruct (globals new) as [|g gs]; cbn [forEach deref bind];
      [|reflexivity].
    destruct (modules new) as [|m ms]; cbn [forEach deref bind];
      [discriminate|reflexivity].
Qed.

Lemma prefix_app (p s : string) : String.prefix p (p ++ s) = true.
Proof.
  induction p as [|c p IH]; cbn; [now destruct s|].
  destruct (ascii_dec c c); [exact IH|congruence].
Qed.

(** X26. [compareImportPolicies]: when the new policy has nothing new it
    logs the one green line; otherwise it logs one red line for every new
    module and every new global and no green line. *)
Theorem compareImportPolicies_lines newPolicy :
  NoDup (Dict.keys newPolicy) ->
  (forall k, In k (Dict.keys newPolicy) -> inherited k = false) ->
  exists lines,
    compareImportPolicies oldPolicy newPolicy = Ok lines /\
    ((forall p new,
         In (p, new) newPolicy ->
         (forall x, In x (modules new) -> In x (modules (entryOf old p))) /\
         (forall x, In x (globals new) -> In x (globals (entryOf old p)))) ->
     lines = [ColorLog.log "No new imports detected!" "brightGreen"]) /\
    (~ (forall p new,
           In (p, new) newPolicy ->
           (forall x, In x (modules new) -> In x (modules (entryOf old p))) /\
           (forall x, In x (globals new) -> In x (globals (entryOf old p)))) ->
     List.length lines
     = list_sum
         (map (fun entry : string * Capabilities =>
                 let uses := newUsesOf old (fst entry) (snd entry) in
                 (List.length (modules uses) + List.length (globals uses))%nat)
              newPolicy) /\
     forall line,
       In line lines ->
       JsString.startsWith line (ColorLog.ansi_color "brightRed" "black")
       = true).
Proof.
  intros Hdup Hown. unfold compareImportPolicies.
  rewrite policyDiff_flat_map by assumption. cbn [bind].
  destruct (newUsesIn newPolicy) as [|use uses] eqn:E.
  - eexists. split; [reflexivity|]. split; [reflexivity|].
    intros Hnot. exfalso. now apply Hnot, newUsesIn_nil_iff.
  - cbn [Dict.keys List.map List.length Nat.ltb Nat.leb].
    eexists. split; [reflexivity|]. split.
    { intros Hall. apply newUsesIn_nil_iff in Hall. congruence. }
    intros _.
    rewrite <- E. clear E use uses. split.
    + clear Hdup Hown.
      induction newPolicy as [|[p new] newPolicy IH]; [reflexivity|].
      cbn [flat_map List.map list_sum fst snd].
      rewrite flat_map_app, length_app, IH. f_equal.
      destruct (noCapabilities (newUsesOf old p new)) eqn:En.
      * unfold noCapabilities in En.
        destruct (modules (newUsesOf old p new)),
                 (globals (newUsesOf old p new)); try discriminate.
        reflexivity.
      * cbn [flat_map]. rewrite app_nil_r, length_app, !length_map.
        reflexivity.
    + intros line Hline.
      apply in_flat_map in Hline as ([pkg entry] & _ & Hline).
      apply in_app_or in Hline as [Hline|Hline];
        apply in_map_iff in Hline as (x & <- & _);
        unfold ColorLog.log, JsString.startsWith; apply prefix_app.
Qed.

End PolicyDiff.

Lemma policyDiff_new_uses_witness :
  exists newUses,
    policyDiff (Some example_oldPolicy) example_newPolicy = Ok newUses /\
    forall p,
      Dict.get newUses p =
      match Dict.get example_newPolicy p with
      | Some new =>
          if noCapabilities (newUsesOf example_oldPolicy p new) then None
          else Some (newUsesOf example_oldPolicy p new)
      | None => None
      end.
Proof.
  apply (policyDiff_new_uses (Some example_oldPolicy) example_newPolicy).
  - repeat constructor; cbn; intuition discriminate.
  - intros k [<-|[<-|[]]]; reflexivity.
Defined.

(** A policy compared with itself. *)
Lemma policyDiff_empty_iff_witness :
  policyDiff (Some example_newPolicy) example_newPolicy = Ok [].
Proof.
  apply (policyDiff_empty_iff (Some example_newPolicy) example_newPolicy).
  - repeat constructor; cbn; intuition discriminate.
  - intros k [<-|[<-|[]]]; reflexivity.
  - intros p new [[= <- <-]|[[= <- <-]|[]]]; split; intros x Hx; exact Hx.
Defined.

(** The package [constructor] starts to import [fs]. *)
Lemma policyDiff_inherited_name_witness :
  policyDiff (Some [("constructor", mkCapabilities [] [])])
             [("constructor", mkCapabilities [JStr "fs"] [])]
  = Throw "TypeError".
Proof.
  apply (policyDiff_inherited_name
           (Some [("constructor", mkCapabilities [] [])])
           [] "constructor" (mkCapabilities [JStr "fs"] []) []).
  - constructor.
  - intros k [].
  - reflexivity.
  - reflexivity.
Defined.

Lemma compareImportPolicies_lines_witness :
  exists lines,
    compareImportPolicies (Some example_oldPolicy) example_newPolicy = Ok lines
    /\ List.length lines = 2%nat.
Proof.
  destruct (compareImportPolicies_lines
              (Some example_oldPolicy) example_newPolicy)
    as (lines & Hrun & _ & Hred).
  - repeat constructor; cbn; intuition discriminate.
  - intros k [<-|[<-|[]]]; reflexivity.
  - exists lines. split; [exact Hrun|].
    destruct Hred as [Hlength _]; [|rewrite Hlength; reflexivity].
    intros H. destruct (H "a" _ (or_introl eq_refl)) as [Hm _].
    specialize (Hm (JStr "net") (or_intror (or_introl eq_refl))).
    cbn in Hm. intuition discriminate.
Defined.

(** ** The entries of a policy (main.js) *)



Lemma createGranularPolicy_package_order_witness :
  Dict.get (JsObject.own
              (createGranularPolicy "/app" (Some "app")
                 [example_package_a; example_package_b])) "a"
  = Dict.get (JsObject.own
                (createGranularPolicy "/app" (Some "app")
                   [example_package_b; example_package_a])) "a".
Proof.
  destruct (createGranularPolicy_package_order
              "/app" (Some "app")
              [example_package_a; example_package_b]
              [example_package_b; example_package_a]) as [_ H].
  - intros p c [[= <- <-]|[[= <- <-]|[]]]; discriminate.
  - intros p c [[= <- <-]|[[= <- <-]|[]]]; cbn; split; repeat constructor;
      cbn; tauto.
  - repeat constructor.
  - apply perm_swap.
  - apply (H "a").
Defined.

Lemma split_aux_absent sep s :
  occurs sep s = false -> JsString.split_aux sep 0 s = (s, []).
Proof.
  induction s as [|c s IH]; [reflexivity|].
  cbn [occurs]. intros H. apply Bool.orb_false_iff in H as [Hp Ho].
  cbn [JsString.split_aux]. rewrite Hp, (IH Ho). reflexivity.
Qed.

Lemma split_absent sep s :
  sep <> EmptyString -> occurs sep s = false -> JsString.split sep s = [s].
Proof.
  intros Hsep Ho. unfold JsString.split.
  destruct sep; [congruence|]. now rewrite split_aux_absent.
Qed.

Lemma occurs_dot s : occurs "." s = JsString.contains "." s.
Proof.
  induction s as [|c s IH]; [reflexivity|].
  cbn [occurs JsString.contains String.prefix]. rewrite IH. f_equal.
  destruct (ascii_dec "." c) as [<-|Hne].
  - rewrite Ascii.eqb_refl. now destruct s.
  - destruct (Ascii.eqb_spec "." c); congruence.
Qed.

(** X29. [MemberAccess.fromString] on a string without a dot: the module
    is the empty string and the member is the whole string, so printing the
    result puts a dot in front; the round trip holds for strings with a dot
    only. *)
Theorem fromString_without_dot s :
  JsString.contains "." s = false ->
  MemberAccess.fromString s = MemberAccess.new "" (Some s) /\
  MemberAccess.toString (MemberAccess.fromString s) = ("." ++ s)%string.
Proof.
  intros Hs. rewrite <- occurs_dot in Hs.
  assert (MemberAccess.fromString s = MemberAccess.new "" (Some s)) as E.
  { unfold MemberAccess.fromString.
    now rewrite (split_absent "." s) by (discriminate || exact Hs). }
  split; [exact E|]. now rewrite E.
Qed.

Lemma fromString_without_dot_witness :
  MemberAccess.fromString "fs" = MemberAccess.new "" (Some "fs") /\
  MemberAccess.toString (MemberAccess.fromString "fs") = ".fs".
Proof. apply (fromString_without_dot "fs"). reflexivity. Defined.

(** Every package path has a name when the root manifest has one. *)
Lemma packageNameOf_named rootPath name p :
  packageNameOf rootPath (Some name) p <> None.
Proof.
  unfold packageNameOf, JsString.split.
  destruct (JsString.split_aux _ _ _) as [h t].
  destruct (nth_error (h :: t) (List.length (h :: t) - 1)) as [x|] eqn:E.
  - destruct (strictEq (Some x) rootPath); discriminate.
  - apply nth_error_None in E. cbn in E. lia.
Qed.

Lemma packageNameOf_root rootPath rootPackageName :
  occurs "node_modules/" rootPath = false ->
  packageNameOf rootPath rootPackageName rootPath = rootPackageName.
Proof.
  intros Hroot. unfold packageNameOf.
  rewrite (split_absent "node_modules/" rootPath)
    by (discriminate || exact Hroot).
  cbn. now rewrite String.eqb_refl.
Qed.

(** X30. The root package, whose path has no [node_modules/] in it, is
    entered in the policy under the name of its manifest: when that name
    is not [__proto__], the policy has an entry under it that holds all
    modules and all globals of the root.  A root analysed alone gives a
    policy object with this one entry, under the key [undefined] when the
    manifest has no name; with the name [__proto__] the object has no entry
    at all. *)
Theorem createGranularPolicy_root rootPath rootPackageName capabilities :
  occurs "node_modules/" rootPath = false ->
  (forall name caps,
      rootPackageName = Some name ->
      name <> "__proto__" ->
      duplicateFree caps ->
      In (rootPath, capabilities) caps ->
      exists entry,
        Dict.get (JsObject.own
                    (createGranularPolicy rootPath rootPackageName caps)) name
        = Some entry /\
        incl (modules capabilities) (modules entry) /\
        incl (globals capabilities) (globals entry)) /\
  createGranularPolicy rootPath rootPackageName [(rootPath, capabilities)]
  = let entry := mkCapabilities (sort (modules capabilities))
                                (sort (globals capabilities)) in
    if strictEq rootPackageName "__proto__"
    then JsObject.mk [] (Some entry)
    else JsObject.mk [(template_opt rootPackageName, entry)] None.
Proof.
  intros Hroot. split.
  - intros name caps -> Hproto Hdup Hin.
    pose proof (createGranularPolicy_entries rootPath (Some name) caps
                  (fun p c _ => packageNameOf_named rootPath name p)
                  Hdup name Hproto) as H.
    destruct (Dict.get _ name) as [entry|].
    + exists entry. split; [reflexivity|].
      destruct H as [(_ & _ & Hm) (_ & _ & Hg)].
      split; intros x Hx; [apply Hm|apply Hg];
        exists rootPath, capabilities;
        (split; [exact Hin|split; [|exact Hx]]);
        now rewrite (packageNameOf_root rootPath (Some name) Hroot).
    + exfalso. apply (H rootPath capabilities Hin).
      now rewrite (packageNameOf_root rootPath (Some name) Hroot).
  - unfold createGranularPolicy. cbn [fold_left addToPolicy].
    rewrite (packageNameOf_root rootPath rootPackageName Hroot).
    destruct rootPackageName as [name|]; [|reflexivity].
    cbn [JsObject.keys JsObject.own JsObject.empty Dict.keys List.map
         includes existsb template_opt strictEq].
    unfold JsObject.assign. cbn [JsObject.own JsObject.has Dict.keys List.map
                                 existsb negb].
    rewrite Bool.andb_true_r.
    destruct (String.eqb name "__proto__"); reflexivity.
Qed.

Lemma createGranularPolicy_root_witness :
  createGranularPolicy "/app" None
                       [("/app", mkCapabilities [JStr "path"; JStr "fs"] [])]
  = JsObject.mk [("undefined", mkCapabilities [JStr "fs"; JStr "path"] [])]
                None.
Proof.
  destruct (createGranularPolicy_root
              "/app" None (mkCapabilities [JStr "path"; JStr "fs"] []))
    as [_ H].
  - reflexivity.
  - exact H.
Defined.
